(** * Guardrail engine of the lead response assistant

    A shallow embedding of [app/core/guardrails.py]: the rule table [_RULES],
    the phrase blocklist [_BLOCKED_PHRASES] and [apply_guardrails], together
    with the part of Python's [re] and [str] semantics that the function
    relies on (prioritised backtracking matching, [findall], [sub], [lower],
    [strip] and substring containment).

    A Python [str] is a sequence of Unicode code points: the text is a
    [list N].  Rule names, flags and modification descriptions are ASCII and
    are kept as [string].

    The modules around the engine come after it: the schemas, the intent
    classifier, the knowledge base and the response generator that calls
    [apply_guardrails] on the draft of the language model.  Last comes the
    call of [apply_guardrails] with its effects: the module globals it
    reads, the logger it writes to and the library calls that can raise. *)

From Stdlib Require Import List NArith ZArith Arith Bool Lia String Ascii
  DecimalString.
Import ListNotations.

Set Implicit Arguments.

(** ** Text *)

Definition text := list N.

Definition cp (a : ascii) : N := N_of_ascii a.

(** The code points of an ASCII literal of the source. *)
Fixpoint str (s : string) : text :=
  match s with
  | EmptyString => []
  | String a s' => cp a :: str s'
  end.

(** U+20B9 INDIAN RUPEE SIGN, the one non-ASCII literal of the rule table. *)
Definition rupee_sign : N := 8377.

(** ** Character classes

    The interpreter's Unicode database beyond ASCII is not part of the
    repository: what [\d], [\b] and [str.lower] do on code points from 128 on
    is taken from a table, and every result below holds for every table. *)

Record UnicodeData := {
  (** [Py_UNICODE_ISDECIMAL], used by [\d] *)
  ud_decimal : N -> bool;
  (** [Py_UNICODE_ISALNUM], used by [\w] and so by [\b] *)
  ud_alnum : N -> bool;
  (** the lowercase expansion [str.lower] gives a code point, which may
      depend on what precedes (reversed) and follows it (final sigma) *)
  ud_lower : list N -> N -> list N -> list N
}.

(** The table of an interpreter that knows ASCII only; used to evaluate the
    engine on ASCII inputs. *)
Definition ascii_only : UnicodeData :=
  {| ud_decimal := fun _ => false;
     ud_alnum := fun _ => false;
     ud_lower := fun _ c _ => [c] |}.

Definition in_range (lo hi c : N) : bool := (lo <=? c)%N && (c <=? hi)%N.

Definition is_ascii (c : N) : bool := (c <? 128)%N.

Definition ascii_isupper (c : N) : bool := in_range 65 90 c.
Definition ascii_islower (c : N) : bool := in_range 97 122 c.
Definition ascii_isdigit (c : N) : bool := in_range 48 57 c.

Definition ascii_tolower (c : N) : N :=
  if ascii_isupper c then (c + 32)%N else c.

(** [Py_UNICODE_ISSPACE]: what [\s] matches and what [str.strip] removes. *)
Definition is_space (c : N) : bool :=
  in_range 9 13 c || in_range 28 32 c || (c =? 133)%N || (c =? 160)%N
  || (c =? 5760)%N || in_range 8192 8202 c || (c =? 8232)%N || (c =? 8233)%N
  || (c =? 8239)%N || (c =? 8287)%N || (c =? 12288)%N.

(** The simple lowercase mapping of [sre], on the code points it sends to an
    ASCII letter: the capitals, U+0130 (to [i]) and U+212A KELVIN SIGN (to
    [k]).  Every other code point lowers to itself or to a non-ASCII one. *)
Definition sre_fold (c : N) : N :=
  if ascii_isupper c then (c + 32)%N
  else if (c =? 304)%N then 105%N
  else if (c =? 8490)%N then 107%N
  else c.

(** A literal of a pattern against a code point.  Under [re.IGNORECASE] the
    literal [i] also matches U+0131 and [s] also matches U+017F (the
    equivalences [sre_compile] adds).  The literals of the rule table are
    ASCII or the caseless rupee sign. *)
Definition lit_match (ignorecase : bool) (l c : N) : bool :=
  if ignorecase then
    (sre_fold c =? sre_fold l)%N
    || ((sre_fold l =? 105)%N && (c =? 305)%N)
    || ((sre_fold l =? 115)%N && (c =? 383)%N)
  else (c =? l)%N.

Section Engine.

Variable U : UnicodeData.

Definition is_digit (c : N) : bool :=
  if is_ascii c then ascii_isdigit c else ud_decimal U c.

Definition is_word (c : N) : bool :=
  if is_ascii c
  then ascii_isupper c || ascii_islower c || ascii_isdigit c || (c =? 95)%N
  else ud_alnum U c.

(** ** Regular expressions

    The constructs the patterns of the repository use.  Repetition is over a
    single-character item, as everywhere in the source ([\s*], [[\d,]+],
    [\d{1,2}], [ +], [\n{3,}]); optional groups are [Opt]. *)

Inductive atom :=
| ALit (c : N)            (* a literal character *)
| ASpace                  (* \s *)
| ADigit                  (* \d *)
| AOr (a b : atom).       (* a character set [ab] *)

Inductive regex :=
| Atom (a : atom)
| WordB                                     (* \b *)
| Eps
| Seq (r1 r2 : regex)
| Alt (r1 r2 : regex)                       (* r1|r2, r1 tried first *)
| Opt (r : regex)                           (* r?, greedy *)
| Rep (a : atom) (lo : nat) (hi : option nat). (* a{lo,hi}, greedy *)

Record Pattern := {
  re : regex;
  ignorecase : bool
}.

Fixpoint atom_match (ic : bool) (a : atom) (c : N) : bool :=
  match a with
  | ALit l => lit_match ic l c
  | ASpace => is_space c
  | ADigit => is_digit c
  | AOr a1 a2 => atom_match ic a1 c || atom_match ic a2 c
  end.

Definition is_word_opt (o : option N) : bool :=
  match o with Some c => is_word c | None => false end.

(** [\b] sits between [prev] and [next]; the ends of the text count as
    non-word. *)
Definition word_boundary (prev next : option N) : bool :=
  xorb (is_word_opt prev) (is_word_opt next).

(** The character before the position reached after reading [w]. *)
Definition last_of (prev : option N) (w : text) : option N :=
  match rev w with
  | [] => prev
  | c :: _ => Some c
  end.

(** Greedy repetition of a one-character test: longest run first, then one
    character fewer at a time, never below [lo] nor above [hi]. *)
Fixpoint rep_exec (p : N -> bool) (lo : nat) (hi : option nat) (s : text)
  : list (text * text) :=
  let stop := if (lo =? 0)%nat then [([], s)] else [] in
  match s with
  | c :: s' =>
      let more :=
        match hi with
        | Some 0%nat => false
        | _ => p c
        end in
      if more
      then map (fun ws => (c :: fst ws, snd ws))
               (rep_exec p (pred lo) (option_map pred hi) s')
           ++ stop
      else stop
  | [] => stop
  end.

(** The backtracking matcher: every way [r] matches at the head of [s], in
    the order the engine tries them, each as (matched text, rest).  [prev]
    is the character before the position ([None] at the start). *)
Fixpoint exec (ic : bool) (r : regex) (prev : option N) (s : text)
  : list (text * text) :=
  match r with
  | Atom a =>
      match s with
      | c :: s' => if atom_match ic a c then [([c], s')] else []
      | [] => []
      end
  | WordB => if word_boundary prev (hd_error s) then [([], s)] else []
  | Eps => [([], s)]
  | Seq r1 r2 =>
      flat_map (fun m1 =>
                  map (fun m2 => (fst m1 ++ fst m2, snd m2))
                      (exec ic r2 (last_of prev (fst m1)) (snd m1)))
               (exec ic r1 prev s)
  | Alt r1 r2 => exec ic r1 prev s ++ exec ic r2 prev s
  | Opt r1 => exec ic r1 prev s ++ [([], s)]
  | Rep a lo hi => rep_exec (atom_match ic a) lo hi s
  end.

(** The match the engine reports at a position: the first in priority
    order. *)
Definition first_match (p : Pattern) (prev : option N) (s : text)
  : option text :=
  match exec (ignorecase p) (re p) prev s with
  | [] => None
  | m :: _ => Some (fst m)
  end.

(** ** Scanning: [finditer]

    Left to right, non-overlapping: at each position not inside the previous
    match the pattern is tried; a match is recorded and the scan resumes
    after it.  No pattern of the repository matches the empty string (see
    [patterns_never_match_empty]), so an empty match is treated as none. *)

Inductive piece :=
| Keep (c : N)        (* a character outside every match *)
| Hit (m : text).     (* a match *)

Fixpoint scan (p : Pattern) (skip : nat) (prev : option N) (s : text)
  : list piece :=
  match s with
  | [] => []
  | c :: s' =>
      match skip with
      | S k => scan p k (Some c) s'
      | O =>
          match first_match p prev s with
          | Some (x :: w') =>
              Hit (x :: w') :: scan p (List.length w') (Some c) s'
          | _ => Keep c :: scan p 0 (Some c) s'
          end
      end
  end.

Definition hits (ps : list piece) : list text :=
  flat_map (fun x => match x with Hit m => [m] | Keep _ => [] end) ps.

Definition render (repl : text) (ps : list piece) : text :=
  flat_map (fun x => match x with Hit _ => repl | Keep c => [c] end) ps.

(** [pattern.findall(string)] for a pattern without capturing groups. *)
Definition findall (p : Pattern) (t : text) : list text :=
  hits (scan p 0 None t).

(** [pattern.sub(repl, string)] for a replacement without backslashes. *)
Definition sub (p : Pattern) (repl t : text) : text :=
  render repl (scan p 0 None t).

End Engine.

(** ** The [str] operations the function uses *)

Section Strings.

Variable U : UnicodeData.

(** [str.lower()]: ASCII capitals to small letters; other code points as the
    Unicode database says. *)
Fixpoint lower_from (before : list N) (t : text) : text :=
  match t with
  | [] => []
  | c :: t' =>
      (if is_ascii c then [ascii_tolower c] else ud_lower U before c t')
      ++ lower_from (c :: before) t'
  end.

Definition lower (t : text) : text := lower_from [] t.

End Strings.

Fixpoint starts_with (needle hay : text) : bool :=
  match needle, hay with
  | [], _ => true
  | a :: needle', b :: hay' => (a =? b)%N && starts_with needle' hay'
  | _ :: _, [] => false
  end.

(** [needle in hay] *)
Fixpoint contains (needle hay : text) : bool :=
  starts_with needle hay
  || match hay with
     | [] => false
     | _ :: hay' => contains needle hay'
     end.

Fixpoint lstrip (t : text) : text :=
  match t with
  | c :: t' => if is_space c then lstrip t' else t
  | [] => []
  end.

Definition rstrip (t : text) : text := rev (lstrip (rev t)).

(** [str.strip()] *)
Definition strip (t : text) : text := rstrip (lstrip t).

(** ** Writing patterns *)

Definition lit (a : ascii) : regex := Atom (ALit (cp a)).

(** A run of literal characters, as in [within] or in an escaped phrase. *)
Fixpoint word (s : string) : regex :=
  match s with
  | EmptyString => Eps
  | String a EmptyString => lit a
  | String a s' => Seq (lit a) (word s')
  end.

Fixpoint seq (rs : list regex) : regex :=
  match rs with
  | [] => Eps
  | [r] => r
  | r :: rs' => Seq r (seq rs')
  end.

Fixpoint alts (r : regex) (rs : list regex) : regex :=
  match rs with
  | [] => r
  | r' :: rs' => Alt r (alts r' rs')
  end.

Definition ws_star : regex := Rep ASpace 0 None.   (* \s* *)
Definition ws_plus : regex := Rep ASpace 1 None.   (* \s+ *)

(** [re.compile(re.escape(phrase), re.IGNORECASE)] for an ASCII phrase. *)
Definition escaped (phrase : string) : Pattern :=
  {| re := word phrase; ignorecase := true |}.

(** ** Pattern definitions *)

Record _Rule := {
  name : string;
  pattern : Pattern;
  replacement : text
}.

(** [(?:Rs\.?|INR|₹)] *)
Definition currency_before : regex :=
  alts (Seq (word "Rs") (Opt (lit "."))) [word "INR"; Atom (ALit rupee_sign)].

(** [(?:Rs\.?|INR|₹|rupees)] *)
Definition currency_after : regex :=
  alts (Seq (word "Rs") (Opt (lit ".")))
       [word "INR"; Atom (ALit rupee_sign); word "rupees"].

(** [[\d,]+(?:\.\d{1,2})?] *)
Definition amount : regex :=
  Seq (Rep (AOr ADigit (ALit (cp ","))) 1 None)
      (Opt (Seq (lit ".") (Rep ADigit 1 (Some 2)))).

Definition guarant : regex :=   (* guarant(?:ee|y) *)
  Seq (word "guarant") (Alt (word "ee") (lit "y")).

Definition _RULES : list _Rule := [
  (* Fabricated pricing *)
  {| name := "hallucinated_exact_price";
     pattern :=
       {| re := Alt (seq [currency_before; ws_star; amount])
                    (seq [amount; ws_star; currency_after]);
          ignorecase := true |};
     replacement :=
       str "(pricing will be determined after a professional on-site assessment)" |};
  (* Fabricated timelines *)
  {| name := "hallucinated_timeline";
     pattern :=
       {| re := seq [WordB; Alt (word "within") (word "in"); ws_plus;
                     Rep ADigit 1 None; ws_star;
                     alts (Seq (word "hour") (Opt (lit "s")))
                          [Seq (word "day") (Opt (lit "s"));
                           Seq (word "week") (Opt (lit "s"));
                           Seq (word "month") (Opt (lit "s"))];
                     WordB];
          ignorecase := true |};
     replacement := str "(timeline will be confirmed after assessment)" |};
  (* Absolute guarantees *)
  {| name := "absolute_guarantee";
     pattern :=
       {| re := seq [WordB;
                     alts (seq [word "100"; ws_star; lit "%"; ws_star; guarant])
                          [seq [word "lifetime"; ws_plus;
                                Alt guarant (word "warranty")];
                           seq [word "permanent"; Opt (word "ly"); ws_plus;
                                alts (word "fix") [word "solv"; word "cur"]];
                           seq [word "never"; ws_plus;
                                alts (word "leak") [word "seep"; word "damage"];
                                ws_plus; word "again"]];
                     WordB];
          ignorecase := true |};
     replacement :=
       str "(long-lasting solutions backed by professional assessment)" |};
  (* False urgency / scare tactics *)
  {| name := "scare_tactics";
     pattern :=
       {| re := seq [WordB;
                     alts (seq [word "your"; ws_plus;
                                alts (word "house") [word "home"; word "building"];
                                ws_plus; Alt (word "will") (word "could");
                                ws_plus; word "collapse"])
                          [seq [word "extremely"; ws_plus; word "dangerous"];
                           seq [word "life";
                                Atom (AOr (ALit (cp "-")) (ALit (cp " ")));
                                word "threatening"; ws_plus;
                                Alt (word "situation") (word "condition")]];
                     WordB];
          ignorecase := true |};
     replacement :=
       str "(we recommend a professional assessment to evaluate the situation)" |};
  (* Competitor bashing *)
  {| name := "competitor_bashing";
     pattern :=
       {| re := seq [WordB;
                     seq [word "other"; ws_plus; word "companies"; ws_plus;
                          Alt (word "will") (word "would"); ws_plus;
                          alts (word "cheat")
                               [word "scam"; word "overcharge";
                                seq [word "rip"; ws_star; word "off"]]];
                     WordB];
          ignorecase := true |};
     replacement := str "(we focus on transparency and professional service)" |}
].

(** ** Phrase-level blocklist (exact substring match) *)

Definition _BLOCKED_PHRASES : list (string * string) := [
  ("i am an ai", "");
  ("as an ai language model", "");
  ("as a large language model", "");
  ("i don't have access to real-time", "")
]%string.

(** ** Public API *)

(** Outcome of the hallucination / safety guardrail scan
    ([app/models/schemas.py]). *)
Record GuardrailCheck := {
  passed : bool;
  flags : list string;
  modifications_applied : list string
}.

(** What the function hands to [logger]. *)
Inductive log_record :=
| LogTriggered (rule_name : string) (n : nat)   (* info, in the rule loop *)
| LogPhraseRemoved (phrase : string)            (* info, in the phrase loop *)
| LogFailed (n : nat)                           (* warning *)
| LogPassed.                                    (* debug *)

(** The local variables the two loops update. *)
Record locals := {
  l_flags : list string;
  l_modifications : list string;
  l_cleaned : text;
  l_log : list log_record
}.

(** [str(n)] of a length *)
Definition decimal (n : nat) : string := NilZero.string_of_uint (Nat.to_uint n).

Definition newline : N := 10.

(** [r"  +"] and [r"\n{3,}"] *)
Definition double_spaces : Pattern :=
  {| re := Seq (lit " ") (Rep (ALit (cp " ")) 1 None); ignorecase := false |}.
Definition triple_newlines : Pattern :=
  {| re := Rep (ALit newline) 3 None; ignorecase := false |}.

Section Guardrails.

Variable U : UnicodeData.

(** One iteration of [for rule in _RULES]. *)
Definition rule_step (st : locals) (rule : _Rule) : locals :=
  let matches := findall U (pattern rule) (l_cleaned st) in
  match matches with
  | [] => st
  | _ :: _ =>
      {| l_flags :=
           l_flags st
           ++ [(name rule ++ ": matched " ++ decimal (List.length matches)
                ++ " occurrence(s)")%string];
         l_modifications :=
           l_modifications st
           ++ [("Replaced " ++ name rule
                ++ " matches with safe alternative.")%string];
         l_cleaned := sub U (pattern rule) (replacement rule) (l_cleaned st);
         l_log :=
           l_log st ++ [LogTriggered (name rule) (List.length matches)] |}
  end.

(** One iteration of [for phrase, repl in _BLOCKED_PHRASES]; [lower_cleaned]
    is the variable assigned once before the loop. *)
Definition phrase_step (lower_cleaned : text) (st : locals)
    (entry : string * string) : locals :=
  let (phrase, repl) := entry in
  if contains (str phrase) lower_cleaned then
    {| l_flags := l_flags st ++ [("blocked_phrase: '" ++ phrase ++ "'")%string];
       l_modifications :=
         l_modifications st
         ++ [("Removed blocked phrase: '" ++ phrase ++ "'")%string];
       l_cleaned := sub U (escaped phrase) (str repl) (l_cleaned st);
       l_log := l_log st ++ [LogPhraseRemoved phrase] |}
  else st.

(** Step 3 of the function: the two whitespace substitutions and the
    [strip] between them. *)
Definition normalize_whitespace (cleaned : text) : text :=
  let cleaned := strip (sub U double_spaces (str " ") cleaned) in
  sub U triple_newlines [newline; newline] cleaned.

(** The body of [apply_guardrails] up to the construction of the result. *)
Definition run_guardrails (draft_reply : text) : locals :=
  let st := {| l_flags := []; l_modifications := [];
               l_cleaned := draft_reply; l_log := [] |} in
  (* 1. Regex-based rules *)
  let st := fold_left rule_step _RULES st in
  (* 2. Blocked phrases *)
  let lower_cleaned := lower U (l_cleaned st) in
  let st := fold_left (phrase_step lower_cleaned) _BLOCKED_PHRASES st in
  (* 3. Remove any double-spacing artefacts from replacements *)
  let cleaned := normalize_whitespace (l_cleaned st) in
  let passed := (List.length (l_flags st) =? 0)%nat in
  {| l_flags := l_flags st;
     l_modifications := l_modifications st;
     l_cleaned := cleaned;
     l_log := l_log st
              ++ [if passed then LogPassed
                  else LogFailed (List.length (l_flags st))] |}.

Definition apply_guardrails (draft_reply : text) : text * GuardrailCheck :=
  let st := run_guardrails draft_reply in
  (l_cleaned st,
   {| passed := (List.length (l_flags st) =? 0)%nat;
      flags := l_flags st;
      modifications_applied := l_modifications st |}).

(** The records one call emits. *)
Definition emitted_log (draft_reply : text) : list log_record :=
  l_log (run_guardrails draft_reply).

End Guardrails.

(** * The rest of the pipeline

    The modules around the guardrail engine: the response schemas
    ([app/models/schemas.py]), the intent classifier
    ([app/core/intent_classifier.py]), the knowledge base
    ([app/core/knowledge_base.py]) and the orchestration
    ([app/core/response_generator.py]).  What lies outside the repository
    (the Groq API, the embedding model, FAISS, the knowledge file, the clock)
    is a parameter: a call to it yields whatever outcome it is given. *)

(** ** Exceptions *)

Inductive exception :=
| AttributeError
| TypeError
| KeyError
| IndexError
| ValueError
| ValidationError          (* pydantic *)
| RuntimeError
| FileNotFoundError
| ExternalError (what : string).   (* raised by a library or a remote service *)

(** What a call gives: a value, or an exception that propagates. *)
Inductive outcome (A : Type) :=
| Returned (a : A)
| Raised (e : exception).

Arguments Returned {A} a.
Arguments Raised {A} e.

Definition bind (A B : Type) (m : outcome A) (k : A -> outcome B)
  : outcome B :=
  match m with
  | Returned a => k a
  | Raised e => Raised e
  end.

Declare Scope outcome_scope.
Delimit Scope outcome_scope with outcome.
Notation "x <- m ;; k" := (bind m (fun x => k))
  (at level 61, m at next level, right associativity) : outcome_scope.

(** ** JSON values

    What [json.loads] returns.  An object is a [dict]: its members in
    document order, one per key.  A number is kept as it is written; only
    [float()] looks into it. *)

#[warnings="-register-all"] Inductive json :=
| JNull
| JBool (b : bool)
| JNumber (literal : string)
| JString (s : text)
| JArray (items : list json)
| JObject (members : list (text * json)).

Fixpoint text_eqb (a b : text) : bool :=
  match a, b with
  | [], [] => true
  | x :: a', y :: b' => (x =? y)%N && text_eqb a' b'
  | _, _ => false
  end.

Fixpoint dict_find (A : Type) (key : text) (members : list (text * A))
  : option A :=
  match members with
  | [] => None
  | (k, v) :: rest => if text_eqb k key then Some v else dict_find key rest
  end.

(** [d.get(key, default)] *)
Definition get (d : json) (key : string) (default : json) : outcome json :=
  match d with
  | JObject members =>
      Returned match dict_find (str key) members with
               | Some v => v
               | None => default
               end
  | _ => Raised AttributeError
  end.

(** [for x in v]: the items of a list, the keys of a dict, the characters
    of a string. *)
Definition iterate (v : json) : outcome (list json) :=
  match v with
  | JArray items => Returned items
  | JObject members => Returned (map (fun m => JString (fst m)) members)
  | JString s => Returned (map (fun c => JString [c]) s)
  | _ => Raised TypeError
  end.

(** [key in v] for a string [key]: a key of a dict, an item of a list, a
    substring of a string. *)
Definition has_key (key : string) (v : json) : outcome bool :=
  match v with
  | JObject members =>
      Returned match dict_find (str key) members with
               | Some _ => true
               | None => false
               end
  | JArray items =>
      Returned (existsb (fun x => match x with
                                  | JString s => text_eqb s (str key)
                                  | _ => false
                                  end) items)
  | JString s => Returned (contains (str key) s)
  | _ => Raised TypeError
  end.

(** [v[key]] for a string [key] *)
Definition subscript (v : json) (key : string) : outcome json :=
  match v with
  | JObject members =>
      match dict_find (str key) members with
      | Some x => Returned x
      | None => Raised KeyError
      end
  | _ => Raised TypeError
  end.

(** [v[:n]]; a dict cannot be sliced ([KeyError] from Python 3.12 on). *)
Definition slice_to (n : nat) (v : json) : outcome json :=
  match v with
  | JArray items => Returned (JArray (firstn n items))
  | JString s => Returned (JString (firstn n s))
  | _ => Raised TypeError
  end.

(** ** Floating point

    The interpreter's [float] is not modelled: its values, conversions,
    comparisons and formatting are taken from a table, and every result
    below holds for every table. *)
Record PyFloat := {
  float : Type;
  (** [float(v)] *)
  float_of : json -> outcome float;
  (** [a < b] and [a <= b] *)
  float_lt : float -> float -> bool;
  float_le : float -> float -> bool;
  (** the literals [0.0] and [1.0] *)
  float_0 : float;
  float_1 : float;
  (** [format(x, ".2f")] *)
  format_2f : float -> text
}.

(** [max(a, b)] and [min(a, b)]: the first argument unless the second is
    strictly beyond it. *)
Definition py_max (F : PyFloat) (a b : float F) : float F :=
  if float_lt F a b then b else a.

Definition py_min (F : PyFloat) (a b : float F) : float F :=
  if float_lt F b a then b else a.

(** [', '.join(parts)] and the like *)
Fixpoint join (sep : text) (parts : list text) : text :=
  match parts with
  | [] => []
  | [a] => a
  | a :: rest => a ++ sep ++ join sep rest
  end.

(** A literal that runs over several lines of the source. *)
Definition lines (ls : list text) : text := join [newline] ls.

Definition quote : N := 34.

(** U+2014 EM DASH *)
Definition em_dash : N := 8212.

(** ** [app/models/schemas.py] *)

Module schemas.

(** Supported customer intent categories. *)
Inductive CustomerIntent :=
| WATER_DAMAGE
| WATERPROOFING_INQUIRY
| LEAKAGE_SEEPAGE
| ROOF_REPAIR
| WALL_REPAIR
| THERMAL_SCANNING
| PRICING_INQUIRY
| SERVICE_BOOKING
| COMPLAINT
| GENERAL_INQUIRY.

Definition CustomerIntent_members : list CustomerIntent :=
  [WATER_DAMAGE; WATERPROOFING_INQUIRY; LEAKAGE_SEEPAGE; ROOF_REPAIR;
   WALL_REPAIR; THERMAL_SCANNING; PRICING_INQUIRY; SERVICE_BOOKING;
   COMPLAINT; GENERAL_INQUIRY].

Definition CustomerIntent_value (i : CustomerIntent) : string :=
  match i with
  | WATER_DAMAGE => "water_damage"
  | WATERPROOFING_INQUIRY => "waterproofing_inquiry"
  | LEAKAGE_SEEPAGE => "leakage_seepage"
  | ROOF_REPAIR => "roof_repair"
  | WALL_REPAIR => "wall_repair"
  | THERMAL_SCANNING => "thermal_scanning"
  | PRICING_INQUIRY => "pricing_inquiry"
  | SERVICE_BOOKING => "service_booking"
  | COMPLAINT => "complaint"
  | GENERAL_INQUIRY => "general_inquiry"
  end.

(** Estimated urgency of the customer issue. *)
Inductive Urgency :=
| LOW
| MEDIUM
| HIGH
| CRITICAL.

Definition Urgency_members : list Urgency := [LOW; MEDIUM; HIGH; CRITICAL].

Definition Urgency_value (u : Urgency) : string :=
  match u with
  | LOW => "low"
  | MEDIUM => "medium"
  | HIGH => "high"
  | CRITICAL => "critical"
  end.

(** [Enum(v)]: the member whose value is [v]; [ValueError] when there is
    none.  The values are strings, so nothing but a string names a
    member. *)
Definition enum_call (E : Type) (members : list E) (value : E -> string)
    (v : json) : outcome E :=
  match v with
  | JString s =>
      match find (fun m => text_eqb (str (value m)) s) members with
      | Some m => Returned m
      | None => Raised ValueError
      end
  | _ => Raised ValueError
  end.

Definition CustomerIntent_call : json -> outcome CustomerIntent :=
  enum_call CustomerIntent_members CustomerIntent_value.

Definition Urgency_call : json -> outcome Urgency :=
  enum_call Urgency_members Urgency_value.

(** What pydantic accepts for a [str] field and for a [List[str]] field
    among JSON values: a string, a list of strings. *)
Definition validate_str (v : json) : outcome text :=
  match v with
  | JString s => Returned s
  | _ => Raised ValidationError
  end.

Fixpoint validate_strs (items : list json) : outcome (list text) :=
  match items with
  | [] => Returned []
  | JString s :: rest =>
      match validate_strs rest with
      | Returned l => Returned (s :: l)
      | Raised e => Raised e
      end
  | _ :: _ => Raised ValidationError
  end.

Definition validate_str_list (v : json) : outcome (list text) :=
  match v with
  | JArray items => validate_strs items
  | _ => Raised ValidationError
  end.

Section Models.

Variable F : PyFloat.

(** Result of intent classification on the enquiry. *)
Record IntentAnalysis := {
  primary_intent : CustomerIntent;
  confidence : float F;
  secondary_intents : list CustomerIntent;
  urgency : Urgency;
  key_topics : list text
}.

(** [IntentAnalysis(...)] as the classifier calls it: [confidence] is a
    float and must lie between 0.0 and 1.0, [key_topics] must be a list of
    strings. *)
Definition IntentAnalysis_new (primary : CustomerIntent) (conf : float F)
    (secondary : list CustomerIntent) (urg : Urgency) (topics : json)
  : outcome IntentAnalysis :=
  if float_le F (float_0 F) conf && float_le F conf (float_1 F) then
    match validate_str_list topics with
    | Returned l =>
        Returned {| primary_intent := primary; confidence := conf;
                    secondary_intents := secondary; urgency := urg;
                    key_topics := l |}
    | Raised e => Raised e
    end
  else Raised ValidationError.

End Models.

(** A contextual follow-up question to ask the customer. *)
Record FollowUpQuestion := {
  question : text;
  reason : text
}.

Definition FollowUpQuestion_new (q r : json) : outcome FollowUpQuestion :=
  match validate_str q, validate_str r with
  | Returned a, Returned b => Returned {| question := a; reason := b |}
  | _, _ => Raised ValidationError
  end.

(** Full structured response returned to the caller. *)
Record LeadResponse (F : PyFloat) (datetime : Type) := {
  request_id : text;
  timestamp : datetime;
  original_message : text;
  intent_analysis : IntentAnalysis F;
  drafted_reply : text;
  follow_up_questions : list FollowUpQuestion;
  guardrail_check : GuardrailCheck;
  sources_used : list text
}.

End schemas.

(** ** [app/services/groq_service.py], from outside *)

Module groq_service.

(** One entry of the message list: [{"role": ..., "content": ...}]. *)
Record chat_message := {
  role : string;
  content : text
}.

(** The two methods of [GroqService] the pipeline calls. *)
Record GroqService := {
  (** [chat_completion(messages)], with the defaults of the service *)
  chat_completion : list chat_message -> outcome text;
  (** [chat_completion_json(messages, temperature=..., max_tokens=...)] *)
  chat_completion_json :
    list chat_message -> string -> nat -> outcome json
}.

End groq_service.

(** ** [app/core/intent_classifier.py] *)

Module intent_classifier.

Import schemas groq_service.

(** System prompt for intent classification *)
Definition _SYSTEM_PROMPT : text :=
  lines [
    str "You are an intent classification engine for UrbanRoof, a home repair and waterproofing company.";
    [];
    str "Analyse the customer message and return a JSON object with EXACTLY these fields:";
    str "{";
    str "  " ++ [quote] ++ str "primary_intent" ++ [quote] ++ str ": " ++ [quote] ++ str "<one of: water_damage, waterproofing_inquiry, leakage_seepage, roof_repair, wall_repair, thermal_scanning, pricing_inquiry, service_booking, complaint, general_inquiry>" ++ [quote] ++ str ",";
    str "  " ++ [quote] ++ str "confidence" ++ [quote] ++ str ": <float 0.0-1.0>,";
    str "  " ++ [quote] ++ str "secondary_intents" ++ [quote] ++ str ": [<list of other applicable intents from the same set, can be empty>],";
    str "  " ++ [quote] ++ str "urgency" ++ [quote] ++ str ": " ++ [quote] ++ str "<one of: low, medium, high, critical>" ++ [quote] ++ str ",";
    str "  " ++ [quote] ++ str "key_topics" ++ [quote] ++ str ": [<short phrases describing the main topics mentioned, max 5>]";
    str "}";
    [];
    str "Classification guidelines:";
    str "- water_damage: Active water damage, flooding, water stains";
    str "- waterproofing_inquiry: Questions about waterproofing services/solutions";
    str "- leakage_seepage: Leaks, seepage, dampness, moisture issues";
    str "- roof_repair: Roof-related issues (leaks, cracks, waterproofing)";
    str "- wall_repair: Wall-related issues (cracks, dampness, paint peeling)";
    str "- thermal_scanning: Questions about thermal/infrared inspection";
    str "- pricing_inquiry: Cost, rates, pricing questions";
    str "- service_booking: Want to schedule an inspection or service";
    str "- complaint: Dissatisfaction with existing service";
    str "- general_inquiry: General questions about the company/services";
    [];
    str "Urgency guidelines:";
    str "- critical: Active flooding, electrical safety risk, structural danger";
    str "- high: Active leakage during rains, spreading damage";
    str "- medium: Recurring dampness, seepage, intermittent issues";
    str "- low: General enquiry, preventive check, information gathering";
    [];
    str "Return ONLY the JSON object, no other text."].

(* response_generator *)

Section Classifier.

Variable F : PyFloat.

(** [get_groq_service()]: the service, or the exception its construction
    raises. *)
Variable get_groq_service : outcome GroqService.

(** The loop over [secondary_intents]: unknown values are skipped. *)
Definition secondary_of (raw : list json) : list CustomerIntent :=
  flat_map (fun raw_intent =>
              match CustomerIntent_call raw_intent with
              | Returned i => [i]
              | Raised _ => []   (* silently skip unknown secondary intents *)
              end) raw.

(** Parse and validate: the part of [classify_intent] after the call. *)
Definition parse_analysis (result : json) : outcome (IntentAnalysis F) :=
  (raw_primary <- get result "primary_intent" (JString (str "general_inquiry")) ;;
   let primary :=
     match CustomerIntent_call raw_primary with
     | Returned i => i
     | Raised _ => GENERAL_INQUIRY
     end in
   raw_secondary <- get result "secondary_intents" (JArray []) ;;
   raw_intents <- iterate raw_secondary ;;
   let secondary := secondary_of raw_intents in
   raw_urgency <- get result "urgency" (JString (str "medium")) ;;
   let urgency :=
     match Urgency_call raw_urgency with
     | Returned u => u
     | Raised _ => MEDIUM
     end in
   raw_confidence <- get result "confidence" (JNumber "0.7") ;;
   x <- float_of F raw_confidence ;;
   let confidence := py_min F (py_max F x (float_0 F)) (float_1 F) in
   raw_topics <- get result "key_topics" (JArray []) ;;
   topics <- slice_to 5 raw_topics ;;
   IntentAnalysis_new F primary confidence secondary urgency topics)%outcome.

(** The messages of the classification request. *)
Definition classification_messages (message : text) : list chat_message :=
  [ {| role := "system"; content := _SYSTEM_PROMPT |};
    {| role := "user"; content := message |} ].

(** Classify the intent of a customer enquiry. *)
Definition classify_intent (message : text) : outcome (IntentAnalysis F) :=
  (groq <- get_groq_service ;;
   let messages := classification_messages message in
   result <- chat_completion_json groq messages "0.1" 300 ;;
   parse_analysis result)%outcome.

End Classifier.

End intent_classifier.

(** ** [app/core/knowledge_base.py] *)

Module knowledge_base.

(** The settings the store reads ([app/config.py]). *)
Record Settings (F : PyFloat) := {
  knowledge_top_k : Z;
  similarity_threshold : float F
}.

(** The embedding model and FAISS: [embed_texts] gives the rows of the
    embedding matrix; an index is searched for the [k] nearest rows of a
    query vector, each hit being a score and a row number ([-1] where
    there is none). *)
Record VectorLibrary (F : PyFloat) := {
  vector : Type;
  faiss_index : Type;
  score32 : Type;
  embed_texts : list text -> outcome (list vector);
  (** [faiss.IndexFlatIP(embeddings.shape[1])] *)
  IndexFlatIP : list vector -> outcome faiss_index;
  (** [index.add(embeddings)]: the index with the rows added *)
  index_add : faiss_index -> list vector -> outcome faiss_index;
  (** [index.search(query_vec, k)], as pairs *)
  search : faiss_index -> vector -> Z -> outcome (list (score32 * Z));
  (** [score < threshold] and [float(score)] *)
  score_below : score32 -> float F -> bool;
  score_float : score32 -> float F
}.

Section Store.

Variable F : PyFloat.
Variable L : VectorLibrary F.
Variable settings : Settings F.

(** A single piece of contextual knowledge. *)
Record KnowledgeDocument := {
  topic : text;
  content : text;
  category : text;
  embedding : option (vector L)
}.

(** Concatenate topic + content for richer semantic encoding. *)
Definition text_for_embedding (doc : KnowledgeDocument) : text :=
  topic doc ++ str ": " ++ content doc.

(** A document retrieved from the knowledge base with its score. *)
Record RetrievalResult := {
  document : KnowledgeDocument;
  score : float F
}.

(** In-memory FAISS vector store built from the UrbanRoof knowledge JSON. *)
Record KnowledgeBase := {
  _documents : list KnowledgeDocument;
  _index : option (faiss_index L);
  _is_initialised : bool
}.

(** [KnowledgeBase()] *)
Definition __init__ : KnowledgeBase :=
  {| _documents := []; _index := None; _is_initialised := false |}.

(** The knowledge file, once parsed: categories in document order, each a
    list of items, an item a dict of strings. *)
Definition knowledge_json : Type := list (text * list (list (text * text))).

(** [item[key]] *)
Definition item_get (item : list (text * text)) (key : string)
  : outcome text :=
  match dict_find (str key) item with
  | Some v => Returned v
  | None => Raised KeyError
  end.

(** The inner loop of the flattening: the documents appended so far, and
    how the loop ended. *)
Fixpoint load_items (cat : text) (items : list (list (text * text)))
    (docs : list KnowledgeDocument)
  : list KnowledgeDocument * outcome unit :=
  match items with
  | [] => (docs, Returned tt)
  | item :: rest =>
      match item_get item "topic" with
      | Raised e => (docs, Raised e)
      | Returned t =>
          match item_get item "content" with
          | Raised e => (docs, Raised e)
          | Returned c =>
              load_items cat rest
                (docs ++ [ {| topic := t; content := c; category := cat;
                              embedding := None |} ])
          end
      end
  end.

Fixpoint load_categories (raw : knowledge_json)
    (docs : list KnowledgeDocument)
  : list KnowledgeDocument * outcome unit :=
  match raw with
  | [] => (docs, Returned tt)
  | (cat, items) :: rest =>
      match load_items cat items docs with
      | (docs', Returned _) => load_categories rest docs'
      | (docs', Raised e) => (docs', Raised e)
      end
  end.

(** [for doc, emb in zip(self._documents, embeddings): doc.embedding = emb] *)
Fixpoint set_embeddings (docs : list KnowledgeDocument)
    (embeddings : list (vector L)) : list KnowledgeDocument :=
  match docs, embeddings with
  | doc :: docs', emb :: embeddings' =>
      {| topic := topic doc; content := content doc;
         category := category doc; embedding := Some emb |}
      :: set_embeddings docs' embeddings'
  | _, _ => docs
  end.

(** Load knowledge JSON, compute embeddings, and build the FAISS index.
    [file] is what the knowledge file is at the time of the call: [None]
    when it does not exist, else what opening and parsing it gives.  The
    object is updated in place: the result holds its new state also when
    the call raises. *)
Definition initialise (file : option (outcome knowledge_json))
    (self : KnowledgeBase) : KnowledgeBase * outcome unit :=
  if _is_initialised self then (self, Returned tt)
  else
    match file with
    | None => (self, Raised FileNotFoundError)
    | Some (Raised e) => (self, Raised e)
    | Some (Returned raw) =>
        (* Flatten all categories into a single document list *)
        let (docs, loaded) := load_categories raw (_documents self) in
        let self := {| _documents := docs; _index := _index self;
                       _is_initialised := false |} in
        match loaded with
        | Raised e => (self, Raised e)
        | Returned _ =>
            (* Embed all documents in one batched call *)
            match embed_texts L (map text_for_embedding docs) with
            | Raised e => (self, Raised e)
            | Returned embeddings =>
                let docs := set_embeddings docs embeddings in
                let self := {| _documents := docs; _index := _index self;
                               _is_initialised := false |} in
                (* Build FAISS index *)
                match IndexFlatIP L embeddings with
                | Raised e => (self, Raised e)
                | Returned index =>
                    let self := {| _documents := docs; _index := Some index;
                                   _is_initialised := false |} in
                    match index_add L index embeddings with
                    | Raised e => (self, Raised e)
                    | Returned index =>
                        ({| _documents := docs; _index := Some index;
                            _is_initialised := true |}, Returned tt)
                    end
                end
            end
        end
    end.

(** [embed_query] of [app/services/embedding_service.py] *)
Definition embed_query (query : text) : outcome (vector L) :=
  (rows <- embed_texts L [query] ;;
   match rows with
   | row :: _ => Returned row
   | [] => Raised IndexError
   end)%outcome.

(** [docs[idx]] for an integer index: negative indices count from the
    end. *)
Definition list_index (A : Type) (l : list A) (idx : Z) : outcome A :=
  let n := Z.of_nat (List.length l) in
  let i := if (idx <? 0)%Z then (idx + n)%Z else idx in
  if (i <? 0)%Z then Raised IndexError
  else match nth_error l (Z.to_nat i) with
       | Some x => Returned x
       | None => Raised IndexError
       end.

(** The loop over what the search found. *)
Fixpoint collect (docs : list KnowledgeDocument) (threshold : float F)
    (found : list (score32 L * Z)) : outcome (list RetrievalResult) :=
  match found with
  | [] => Returned []
  | (s, idx) :: rest =>
      if (idx =? -1)%Z then collect docs threshold rest
      else if score_below L s threshold then collect docs threshold rest
      else
        (doc <- list_index docs idx ;;
         results <- collect docs threshold rest ;;
         Returned ({| document := doc; score := score_float L s |}
                   :: results))%outcome
  end.

(** Retrieve the most relevant knowledge documents for the given query. *)
Definition retrieve (self : KnowledgeBase) (query : text)
    (top_k : option Z) (threshold : option (float F))
  : outcome (list RetrievalResult) :=
  match _is_initialised self, _index self with
  | true, Some index =>
      let top_k :=
        match top_k with
        | Some k => if (k =? 0)%Z then knowledge_top_k settings else k
        | None => knowledge_top_k settings
        end in
      let threshold :=
        match threshold with
        | Some t => t
        | None => similarity_threshold settings
        end in
      (query_vec <- embed_query query ;;
       found <- search L index query_vec top_k ;;
       collect (_documents self) threshold found)%outcome
  | _, _ => Raised RuntimeError
  end.

Definition document_count (self : KnowledgeBase) : nat :=
  List.length (_documents self).

Definition is_ready (self : KnowledgeBase) : bool := _is_initialised self.

(** Return a lazily-initialised singleton of the knowledge base: the new
    value of the module's [_instance], and what the call gives. *)
Definition get_knowledge_base (file : option (outcome knowledge_json))
    (_instance : option KnowledgeBase)
  : option KnowledgeBase * outcome KnowledgeBase :=
  match _instance with
  | None =>
      let (kb, done) := initialise file __init__ in
      (Some kb, match done with
                | Returned _ => Returned kb
                | Raised e => Raised e
                end)
  | Some kb => (Some kb, Returned kb)
  end.

End Store.

End knowledge_base.

(** ** [app/core/response_generator.py] *)

Module response_generator.

Import schemas groq_service knowledge_base.

(** System prompt template: [_SYSTEM_PROMPT.format(context=..., intent=...,
    urgency=...)] *)
Definition _SYSTEM_PROMPT (context intent urgency : text) : text :=
  lines [
       str "You are a senior customer support advisor for UrbanRoof " ++ [em_dash] ++ str " a trusted home repair and waterproofing company with 7+ years of experience. UrbanRoof's team of civil engineers uses advanced thermal scanning to diagnose leakages, seepage, and structural issues non-invasively.";
       [];
       str "YOUR ROLE:";
       str "You draft warm, professional, and helpful replies to customer enquiries. You represent UrbanRoof and should guide the customer toward booking a professional inspection when appropriate.";
       [];
       str "STRICT RULES " ++ [em_dash] ++ str " NEVER VIOLATE:";
       str "1. NEVER fabricate pricing, costs, or specific timelines. Pricing depends on on-site assessment.";
       str "2. NEVER make absolute guarantees (e.g. " ++ [quote] ++ str "100% guarantee" ++ [quote] ++ str ", " ++ [quote] ++ str "permanent fix" ++ [quote] ++ str ", " ++ [quote] ++ str "will never leak again" ++ [quote] ++ str ").";
       str "3. NEVER diagnose the exact problem " ++ [em_dash] ++ str " only a professional on-site thermal scan can do that. You may discuss *possible* causes.";
       str "4. NEVER recommend DIY repairs for structural / waterproofing issues " ++ [em_dash] ++ str " always recommend professional assessment.";
       str "5. NEVER mention competitors or compare with other companies.";
       str "6. NEVER reveal that you are an AI. Write as a knowledgeable UrbanRoof team member.";
       str "7. ALWAYS be empathetic, acknowledge the customer's concern, and provide reassurance.";
       str "8. ALWAYS ask relevant clarifying questions to better understand the issue.";
       str "9. ALWAYS suggest safe immediate steps the customer can take (e.g., move valuables, switch off nearby electrical points if water is active).";
       str "10. Keep the tone warm, professional, and conversational " ++ [em_dash] ++ str " not robotic or overly formal.";
       [];
       str "RESPONSE STRUCTURE (follow this order):";
       str "1. Greet the customer and acknowledge their concern empathetically.";
       str "2. Provide a brief, helpful explanation of what *might* be causing the issue (without diagnosing).";
       str "3. Suggest safe immediate steps they can take right now.";
       str "4. Ask 2-3 relevant clarifying follow-up questions to understand the issue better.";
       str "5. Recommend booking a professional inspection with UrbanRoof and briefly explain the process (thermal scanning, non-invasive, detailed report).";
       str "6. Close warmly.";
       [];
       str "CONTEXT FROM KNOWLEDGE BASE:";
       []]
  ++ context
  ++ lines [
       [];
       [];
       str "CUSTOMER INTENT: "]
  ++ intent
  ++ lines [
       [];
       str "URGENCY LEVEL: "]
  ++ urgency
  ++ lines [
       [];
       []].

(** [_USER_TEMPLATE.format(message=..., customer_name_line=...)] *)
Definition _USER_TEMPLATE (message customer_name_line : text) : text :=
  lines [
       str "Customer message:";
       [quote]]
  ++ message
  ++ lines [
       [quote];
       [];
       []]
  ++ customer_name_line
  ++ lines [
       [];
       [];
       str "Draft a helpful, warm, and professional reply following all the rules above. Remember: no fabricated pricing, no guarantees, no exact diagnoses."].

Definition _FOLLOWUP_SYSTEM : text :=
  lines [
    str "You are an expert customer support analyst for UrbanRoof, a home repair and waterproofing company.";
    [];
    str "Given a customer message and the intent analysis, generate a JSON object with a list of follow-up questions that would help better understand and resolve the customer's issue.";
    [];
    str "Return EXACTLY this format:";
    str "{{";
    str "  " ++ [quote] ++ str "questions" ++ [quote] ++ str ": [";
    str "    {{";
    str "      " ++ [quote] ++ str "question" ++ [quote] ++ str ": " ++ [quote] ++ str "<the follow-up question>" ++ [quote] ++ str ",";
    str "      " ++ [quote] ++ str "reason" ++ [quote] ++ str ": " ++ [quote] ++ str "<why this question helps provide a better answer>" ++ [quote];
    str "    }}";
    str "  ]";
    str "}}";
    [];
    str "Guidelines:";
    str "- Generate 2-4 questions maximum";
    str "- Questions should be specific and relevant to the customer's issue";
    str "- Focus on information that would help diagnose or address the issue";
    str "- Include questions about: location of issue, duration, severity, previous repairs, property type";
    str "- Do NOT ask about budget or pricing";
    str "- Keep questions natural and conversational";
    [];
    str "Return ONLY the JSON object."].

Section Generator.

Variable F : PyFloat.
Variable L : VectorLibrary F.
Variable settings : Settings F.

(** The sections of the context, numbered from [i]. *)
Fixpoint context_sections (i : nat) (results : list (RetrievalResult L))
  : list text :=
  match results with
  | [] => []
  | r :: rest =>
      (str "[Source " ++ str (decimal i) ++ str " " ++ [em_dash] ++ str " "
       ++ category (document r) ++ str "/" ++ topic (document r)
       ++ str " (relevance: " ++ format_2f F (score r) ++ str ")]"
       ++ [newline] ++ content (document r))
      :: context_sections (S i) rest
  end.

(** Helper: build context string from retrieved docs *)
Definition _format_context (results : list (RetrievalResult L)) : text :=
  match results with
  | [] =>
      str "No specific knowledge base documents matched. Use general UrbanRoof knowledge."
  | _ :: _ => join [newline; newline] (context_sections 1 results)
  end.

(** The list comprehension of [_generate_followups]. *)
Fixpoint followups_of (questions : list json)
  : outcome (list FollowUpQuestion) :=
  match questions with
  | [] => Returned []
  | q :: rest =>
      (has_question <- has_key "question" q ;;
       keep <- (if has_question : bool then has_key "reason" q
                else Returned false) ;;
       if keep : bool then
         a <- subscript q "question" ;;
         b <- subscript q "reason" ;;
         fq <- FollowUpQuestion_new a b ;;
         others <- followups_of rest ;;
         Returned (fq :: others)
       else followups_of rest)%outcome
  end.

(** The messages of the follow-up request. *)
Definition followup_messages (message : text) (intent : IntentAnalysis F)
  : list chat_message :=
  [ {| role := "system"; groq_service.content := _FOLLOWUP_SYSTEM |};
    {| role := "user";
       groq_service.content :=
         str "Customer message: " ++ [quote] ++ message ++ [quote]
         ++ [newline]
         ++ str "Primary intent: "
         ++ str (CustomerIntent_value (primary_intent intent))
         ++ [newline]
         ++ str "Urgency: " ++ str (Urgency_value (urgency intent))
         ++ [newline]
         ++ str "Key topics: " ++ join (str ", ") (key_topics intent) |} ].

(** Ask the LLM for structured follow-up questions. *)
Definition _generate_followups (message : text) (intent : IntentAnalysis F)
    (groq : GroqService) : list FollowUpQuestion :=
  let attempt :=
    (result <-
       chat_completion_json groq (followup_messages message intent)
         "0.3" 400 ;;
     questions <- get result "questions" (JArray []) ;;
     items <- iterate questions ;;
     followups_of items)%outcome in
  match attempt with
  | Returned l => l
  | Raised _ => []   (* except Exception: return [] *)
  end.

(** What one request finds outside the program: the Groq service, the
    knowledge file, and the identifier and the time the response is
    stamped with. *)
Record environment (datetime : Type) := {
  get_groq_service : outcome GroqService;
  knowledge_file : option (outcome knowledge_json);
  uuid4_hex : text;
  utcnow : datetime
}.

Variable datetime : Type.

(** The messages of the drafting request: the system prompt filled with
    the context and the intent, and the customer's message with the name
    line, which is empty when no name or an empty one is given. *)
Definition draft_messages (retrieval_results : list (RetrievalResult L))
    (intent : IntentAnalysis F) (message : text)
    (customer_name : option text) : list chat_message :=
  let context_str := _format_context retrieval_results in
  let system_msg :=
    _SYSTEM_PROMPT context_str
      (str (CustomerIntent_value (primary_intent intent)))
      (str (Urgency_value (urgency intent))) in
  let name_line :=
    match customer_name with
    | Some (c :: n) => str "Customer name: " ++ c :: n
    | _ => []
    end in
  let user_msg := _USER_TEMPLATE message name_line in
  [ {| role := "system"; groq_service.content := system_msg |};
    {| role := "user"; groq_service.content := user_msg |} ].

(** End-to-end pipeline: intent, retrieval, generation, guardrails.  The
    call takes the module-level [_instance] of the knowledge base and gives
    its new value with the response. *)
Definition generate_lead_response (U : UnicodeData)
    (env : environment datetime)
    (_instance : option (KnowledgeBase L))
    (message : text) (customer_name : option text)
  : option (KnowledgeBase L) * outcome (LeadResponse F datetime) :=
  match get_groq_service env with
  | Raised e => (_instance, Raised e)
  | Returned groq =>
      let (_instance, got) :=
        get_knowledge_base (knowledge_file env) _instance in
      (_instance,
       (kb <- got ;;
        (* Step 1: Intent Classification *)
        intent <-
          intent_classifier.classify_intent F (get_groq_service env) message ;;
        (* Step 2: Knowledge Retrieval (RAG) *)
        retrieval_results <- retrieve settings kb message None None ;;
        let sources :=
          map (fun r => category (document r) ++ str "/" ++ topic (document r))
              retrieval_results in
        (* Step 3: Draft Reply Generation *)
        draft <-
          chat_completion groq
            (draft_messages retrieval_results intent message customer_name) ;;
        (* Step 3b: Generate follow-up questions *)
        let followup_questions := _generate_followups message intent groq in
        (* Step 4: Guardrail Check *)
        let (safe_reply, guardrail_check) := apply_guardrails U draft in
        Returned
          {| request_id := firstn 12 (uuid4_hex env);
             timestamp := utcnow env;
             original_message := message;
             intent_analysis := intent;
             drafted_reply := safe_reply;
             follow_up_questions := followup_questions;
             guardrail_check := guardrail_check;
             sources_used := sources |})%outcome)
  end.

End Generator.

End response_generator.

(** * The call and its effects

    [apply_guardrails] above is the function a call computes.  A call of the
    Python function does more than compute: it reads the two tables from
    the module's globals, which are ordinary lists that any code may
    reassign or mutate; it hands records to the module's [logger]; and it
    runs library code that can raise.  The module below writes the body
    again, statement by statement, as a program over that state whose
    statements may raise.  What [re] does with a replacement that holds a
    backslash lies outside the repository and is a parameter, like the
    Unicode database. *)

Module guardrails.

(** What a call can see and change beyond its own locals: the module
    globals [_RULES] and [_BLOCKED_PHRASES], and the records the module's
    [logger] has been handed so far. *)
Record state := {
  g_RULES : list _Rule;
  g_BLOCKED_PHRASES : list (string * string);
  handled : list log_record
}.

(** The state when the module has been imported and the logger has been
    handed [journal]: the tables are the ones the source defines. *)
Definition imported (journal : list log_record) : state :=
  {| g_RULES := _RULES;
     g_BLOCKED_PHRASES := _BLOCKED_PHRASES;
     handled := journal |}.

(** A statement: from the state it starts in to the state it leaves and
    either a value or the exception it raised. *)
Definition action (A : Type) : Type := state -> state * outcome A.

Definition ret (A : Type) (a : A) : action A := fun s => (s, Returned a).

(** [m] and then [k]; an exception of [m] ends the call. *)
Definition and_then (A B : Type) (m : action A) (k : A -> action B)
  : action B :=
  fun s =>
    match m s with
    | (s', Returned a) => k a s'
    | (s', Raised e) => (s', Raised e)
    end.

Declare Scope action_scope.
Delimit Scope action_scope with action.
Notation "x <- m ;; k" := (and_then m (fun x => k))
  (at level 61, m at next level, right associativity) : action_scope.

(** A library call that touches no state of the module. *)
Definition pure_call (A : Type) (m : outcome A) : action A := fun s => (s, m).

(** Reading a module global. *)
Definition global (A : Type) (field : state -> A) : action A :=
  fun s => (s, Returned (field s)).

(** [logger.info], [logger.warning], [logger.debug]: the record is handed
    over; the logging package keeps the failures of its handlers to
    itself. *)
Definition logger_call (r : log_record) : action unit :=
  fun s =>
    ({| g_RULES := g_RULES s;
        g_BLOCKED_PHRASES := g_BLOCKED_PHRASES s;
        handled := handled s ++ [r] |},
     Returned tt).

(** The locals [flags], [modifications] and [cleaned]. *)
Record variables := {
  v_flags : list string;
  v_modifications : list string;
  v_cleaned : text
}.

(** [for x in items: body], the loop variables threaded through. *)
Fixpoint for_each (A : Type) (body : variables -> A -> action variables)
    (items : list A) (v : variables) : action variables :=
  match items with
  | [] => ret v
  | x :: rest => (v' <- body v x ;; for_each body rest v')%action
  end.

Definition backslash : N := 92.

Section Call.

Variable U : UnicodeData.

(** The template compiler of [re]: given a replacement that holds a
    backslash, it raises [re.error] (a bad escape, a reference to a group
    the pattern has not) or gives the text to insert for each match. *)
Variable compile_template : text -> outcome (text -> text).

(** [pattern.sub(repl, string)] and [re.sub(pattern, repl, string)]: a
    replacement without a backslash is inserted as it is; any other one
    goes through the template compiler first, before the text is
    scanned. *)
Definition re_sub (p : Pattern) (repl t : text) : outcome text :=
  if existsb (N.eqb backslash) repl then
    (expand <- compile_template repl ;;
     Returned (flat_map (fun x => match x with
                                  | Hit m => expand m
                                  | Keep c => [c]
                                  end)
                        (scan U p 0 None t)))%outcome
  else Returned (sub U p repl t).

(** The body of [for rule in _RULES]. *)
Definition rule_body (v : variables) (rule : _Rule) : action variables :=
  let matches := findall U (pattern rule) (v_cleaned v) in
  match matches with
  | [] => ret v
  | _ :: _ =>
      (cleaned <- pure_call
                    (re_sub (pattern rule) (replacement rule) (v_cleaned v)) ;;
       _ <- logger_call (LogTriggered (name rule) (List.length matches)) ;;
       ret {| v_flags :=
                v_flags v
                ++ [(name rule ++ ": matched " ++ decimal (List.length matches)
                     ++ " occurrence(s)")%string];
              v_modifications :=
                v_modifications v
                ++ [("Replaced " ++ name rule
                     ++ " matches with safe alternative.")%string];
              v_cleaned := cleaned |})%action
  end.

(** The body of [for phrase, repl in _BLOCKED_PHRASES].  The pattern is
    [re.escape(phrase)], in which nothing is left for the pattern compiler
    to reject. *)
Definition phrase_body (lower_cleaned : text) (v : variables)
    (entry : string * string) : action variables :=
  let (phrase, repl) := entry in
  if contains (str phrase) lower_cleaned then
    (cleaned <- pure_call (re_sub (escaped phrase) (str repl) (v_cleaned v)) ;;
     _ <- logger_call (LogPhraseRemoved phrase) ;;
     ret {| v_flags :=
              v_flags v ++ [("blocked_phrase: '" ++ phrase ++ "'")%string];
            v_modifications :=
              v_modifications v
              ++ [("Removed blocked phrase: '" ++ phrase ++ "'")%string];
            v_cleaned := cleaned |})%action
  else ret v.

(** The function.  [GuardrailCheck] is given a [bool] and two lists of
    [str], the types its schema declares. *)
Definition apply_guardrails (draft_reply : text)
  : action (text * GuardrailCheck) :=
  (let v := {| v_flags := []; v_modifications := [];
               v_cleaned := draft_reply |} in
   (* 1. Regex-based rules *)
   rules <- global g_RULES ;;
   v <- for_each rule_body rules v ;;
   (* 2. Blocked phrases *)
   let lower_cleaned := lower U (v_cleaned v) in
   phrases <- global g_BLOCKED_PHRASES ;;
   v <- for_each (phrase_body lower_cleaned) phrases v ;;
   (* 3. Remove any double-spacing artefacts from replacements *)
   spaced <- pure_call (re_sub double_spaces (str " ") (v_cleaned v)) ;;
   cleaned <- pure_call
                (re_sub triple_newlines [newline; newline] (strip spaced)) ;;
   let passed := (List.length (v_flags v) =? 0)%nat in
   let check := {| passed := passed;
                   flags := v_flags v;
                   modifications_applied := v_modifications v |} in
   _ <- logger_call (if passed then LogPassed
                     else LogFailed (List.length (v_flags v))) ;;
   ret (cleaned, check))%action.

End Call.

End guardrails.

(** * Vocabulary of the properties *)

(** A rule that fired during a call: a pattern rule with the number of
    matches its scan found, or a blocked phrase. *)
Inductive trigger :=
| PatternHit (rule : _Rule) (count : nat)
| PhraseHit (phrase : string).

Definition flag_of (t : trigger) : string :=
  match t with
  | PatternHit rule n =>
      name rule ++ ": matched " ++ decimal n ++ " occurrence(s)"
  | PhraseHit phrase => "blocked_phrase: '" ++ phrase ++ "'"
  end.

Definition modification_of (t : trigger) : string :=
  match t with
  | PatternHit rule _ =>
      "Replaced " ++ name rule ++ " matches with safe alternative."
  | PhraseHit phrase => "Removed blocked phrase: '" ++ phrase ++ "'"
  end.

Definition log_of (t : trigger) : log_record :=
  match t with
  | PatternHit rule n => LogTriggered (name rule) n
  | PhraseHit phrase => LogPhraseRemoved phrase
  end.

(** Whether the pattern has an occurrence somewhere in the text: a position
    where the engine reports a match. *)
Fixpoint occurs_from (U : UnicodeData) (p : Pattern) (prev : option N)
    (s : text) : bool :=
  match s with
  | [] => false
  | c :: s' =>
      match first_match U p prev s with
      | Some (_ :: _) => true
      | _ => occurs_from U p (Some c) s'
      end
  end.

Definition occurs (U : UnicodeData) (p : Pattern) (t : text) : bool :=
  occurs_from U p None t.

(** A lower bound on the length of every match. *)
Fixpoint min_len (r : regex) : nat :=
  match r with
  | Atom _ => 1
  | WordB | Eps => 0
  | Seq r1 r2 => min_len r1 + min_len r2
  | Alt r1 r2 => Nat.min (min_len r1) (min_len r2)
  | Opt _ => 0
  | Rep _ lo _ => lo
  end.

Section Cascading.

Variable U : UnicodeData.

(** The pattern rules that fire on [t], in table order, each seeing the text
    the earlier ones left. *)
Fixpoint rule_triggers (rules : list _Rule) (t : text) : list trigger :=
  match rules with
  | [] => []
  | rule :: rules' =>
      if occurs U (pattern rule) t
      then PatternHit rule (List.length (findall U (pattern rule) t))
           :: rule_triggers rules' (sub U (pattern rule) (replacement rule) t)
      else rule_triggers rules' t
  end.

(** The text the pattern rules leave. *)
Fixpoint after_rules (rules : list _Rule) (t : text) : text :=
  match rules with
  | [] => t
  | rule :: rules' =>
      after_rules rules'
        (if occurs U (pattern rule) t
         then sub U (pattern rule) (replacement rule) t
         else t)
  end.

(** The phrases found in one fixed lowercased text. *)
Definition phrase_triggers (phrases : list (string * string))
    (lower_cleaned : text) : list trigger :=
  flat_map (fun e => if contains (str (fst e)) lower_cleaned
                     then [PhraseHit (fst e)] else [])
           phrases.

(** The text the phrase loop leaves: every phrase found in [lower_cleaned]
    is substituted in the current text. *)
Fixpoint after_phrases (phrases : list (string * string))
    (lower_cleaned t : text) : text :=
  match phrases with
  | [] => t
  | e :: phrases' =>
      after_phrases phrases' lower_cleaned
        (if contains (str (fst e)) lower_cleaned
         then sub U (escaped (fst e)) (str (snd e)) t
         else t)
  end.

(** Every rule that fires during [apply_guardrails draft], in order. *)
Definition triggers (draft : text) : list trigger :=
  rule_triggers _RULES draft
  ++ phrase_triggers _BLOCKED_PHRASES (lower U (after_rules _RULES draft)).

End Cascading.

(** The text a list of pieces was cut from. *)
Definition original (ps : list piece) : text :=
  flat_map (fun x => match x with Hit m => m | Keep c => [c] end) ps.

(** The length of the run of [c] at the head of the text. *)
Fixpoint run_len (c : N) (s : text) : nat :=
  match s with
  | x :: s' => if (x =? c)%N then S (run_len c s') else 0
  | [] => 0
  end.

Definition starts_clean (t : text) : Prop :=
  match t with
  | [] => True
  | x :: _ => is_space x = false
  end.

Definition ends_clean (t : text) : Prop := starts_clean (rev t).

(** The maximal runs of equal characters of a text, each with its length. *)
Fixpoint runs (t : text) : list (N * nat) :=
  match t with
  | [] => []
  | x :: t' =>
      match runs t' with
      | (y, n) :: r =>
          if (x =? y)%N then (y, S n) :: r else (x, 1) :: (y, n) :: r
      | [] => [(x, 1)]
      end
  end.

Definition unruns (rs : list (N * nat)) : text :=
  flat_map (fun r => repeat (fst r) (snd r)) rs.

(** Every maximal run of [lo] or more [c] cut down to [keep] of them, the
    rest of the text as it is. *)
Definition collapse_runs (c : N) (lo keep : nat) (t : text) : text :=
  unruns (map (fun r => if (fst r =? c)%N && (lo <=? snd r)%nat
                        then (c, keep) else r)
              (runs t)).

(** A text the third step of the function has nothing to do on. *)
Definition whitespace_normal (t : text) : Prop :=
  contains (str "  ") t = false
  /\ contains [newline; newline; newline] t = false
  /\ strip t = t.

Definition passing : GuardrailCheck :=
  {| passed := true; flags := []; modifications_applied := [] |}.

(** No pattern rule has an occurrence in the text. *)
Definition clean_for_rules (U : UnicodeData) (d : text) : Prop :=
  Forall (fun rule => occurs U (pattern rule) d = false) _RULES.

(** No blocked phrase is in the lowercased text. *)
Definition clean_for_phrases (U : UnicodeData) (d : text) : Prop :=
  Forall (fun e => contains (str (fst e)) (lower U d) = false) _BLOCKED_PHRASES.

(** The table entry a trigger stands for. *)
Definition trigger_id (t : trigger) : string :=
  match t with
  | PatternHit rule _ => name rule
  | PhraseHit phrase => phrase
  end.

Definition table_trigger (t : trigger) : Prop :=
  match t with
  | PatternHit rule n => In rule _RULES /\ 1 <= n
  | PhraseHit phrase => In phrase (map fst _BLOCKED_PHRASES)
  end.

Definition is_pattern_flag (f : string) : Prop :=
  exists rule n, In rule _RULES /\ 1 <= n /\ f = flag_of (PatternHit rule n).

Definition is_phrase_flag (f : string) : Prop :=
  exists phrase,
    In phrase (map fst _BLOCKED_PHRASES) /\ f = flag_of (PhraseHit phrase).

(** A flag and the modification recorded with it. *)
Definition audit_pair (f m : string) : Prop :=
  (exists rule n,
      In rule _RULES /\ 1 <= n
      /\ f = (name rule ++ ": matched " ++ decimal n ++ " occurrence(s)")%string
      /\ m = ("Replaced " ++ name rule
              ++ " matches with safe alternative.")%string)
  \/ (exists phrase,
         In phrase (map fst _BLOCKED_PHRASES)
         /\ f = ("blocked_phrase: '" ++ phrase ++ "'")%string
         /\ m = ("Removed blocked phrase: '" ++ phrase ++ "'")%string).

Definition table_ids : list string :=
  map name _RULES ++ map fst _BLOCKED_PHRASES.

(** No [\b] in the expression. *)
Fixpoint wordb_free (r : regex) : bool :=
  match r with
  | WordB => false
  | Atom _ | Eps | Rep _ _ _ => true
  | Seq r1 r2 | Alt r1 r2 => wordb_free r1 && wordb_free r2
  | Opt r1 => wordb_free r1
  end.

(** The expression is a sequence whose last item is [\b]. *)
Fixpoint ends_wordb (r : regex) : bool :=
  match r with
  | WordB => true
  | Seq _ r2 => ends_wordb r2
  | _ => false
  end.

(** The expression has the shape [\b ... \b]. *)
Definition anchored (r : regex) : bool :=
  match r with
  | Seq WordB r' => ends_wordb r'
  | _ => false
  end.

(** No item of the expression accepts the character [c]. *)
Fixpoint atoms_reject (U : UnicodeData) (ic : bool) (r : regex) (c : N)
  : bool :=
  match r with
  | Atom a | Rep a _ _ => negb (atom_match U ic a c)
  | WordB | Eps => true
  | Seq r1 r2 | Alt r1 r2 => atoms_reject U ic r1 c && atoms_reject U ic r2 c
  | Opt r1 => atoms_reject U ic r1 c
  end.

Definition open_paren : N := 40.

Definition close_paren : N := 41.

(** How the character before a position of the new text relates to the one
    before the same position of the old text. *)
Definition ctx_ok (U : UnicodeData) (p : Pattern) (prev prev' : option N)
    (s : text) : Prop :=
  wordb_free (re p) = true
  \/ is_word_opt U prev = is_word_opt U prev'
  \/ (is_word_opt U prev' = false
      /\ word_boundary U prev (hd_error s) = true).

Definition clean_draft : text :=
  str "Thank you for reaching out! We understand your concern about damp patches on your wall. Our team of civil engineers can help diagnose the issue using thermal scanning technology.".



Definition priced_draft : text :=
  str "The waterproofing will cost Rs. 25,000 for your terrace.".

(** ** Vocabulary of the further properties *)

(** What lets the absence of [p] survive the substitution of rule [q]. *)
Definition survives (U : UnicodeData) (p : Pattern) (q : _Rule) : Prop :=
  (wordb_free (re p) = true
   \/ (anchored (re p) = true /\ anchored (re (pattern q)) = true))
  /\ occurs U p (replacement q) = false.

(** A character as the phrases of the blocklist have them: ASCII and not a
    capital. *)
Definition plain_char (c : N) : bool := is_ascii c && negb (ascii_isupper c).

(** [a] is [b] with some characters deleted. *)
Inductive subseq : text -> text -> Prop :=
| subseq_nil : subseq [] []
| subseq_drop x a b : subseq a b -> subseq a (x :: b)
| subseq_take x a b : subseq a b -> subseq (x :: a) (x :: b).

(** The substitution of [q] cannot touch the text [b]: [q] reads no
    parenthesis and has no occurrence in [b]. *)
Definition block_safe (U : UnicodeData) (q : Pattern) (b : text) : Prop :=
  1 <= min_len (re q)
  /\ atoms_reject U (ignorecase q) (re q) open_paren = true
  /\ atoms_reject U (ignorecase q) (re q) close_paren = true
  /\ occurs U q b = false.

(** The replacement of a rule is out of reach of every phrase and of the
    whitespace patterns. *)
Definition replacement_safe (U : UnicodeData) (b : text) : Prop :=
  Forall (fun e => block_safe U (escaped (fst e)) b) _BLOCKED_PHRASES
  /\ block_safe U double_spaces b
  /\ block_safe U triple_newlines b.

(** The reply the classification prompt asks for. *)
Definition analysis_json (primary : schemas.CustomerIntent) (conf : json)
    (secondary : list schemas.CustomerIntent) (urg : schemas.Urgency)
    (topics : list text) : json :=
  JObject
    [ (str "primary_intent",
       JString (str (schemas.CustomerIntent_value primary)));
      (str "confidence", conf);
      (str "secondary_intents",
       JArray (map (fun i => JString (str (schemas.CustomerIntent_value i)))
                   secondary));
      (str "urgency", JString (str (schemas.Urgency_value urg)));
      (str "key_topics", JArray (map JString topics)) ].

(** The reply the follow-up prompt asks for. *)
Definition questions_json (qs : list schemas.FollowUpQuestion) : json :=
  JObject
    [ (str "questions",
       JArray (map (fun fq =>
                      JObject [ (str "question",
                                 JString (schemas.question fq));
                                (str "reason", JString (schemas.reason fq)) ])
                   qs)) ].

(** The value in hundredths of a number written [n], [n.d] or [n.dd]. *)
Fixpoint hundredths (s : text) (acc : N) : option N :=
  match s with
  | [] => Some (acc * 100)%N
  | c :: s' =>
      if ascii_isdigit c then hundredths s' (acc * 10 + (c - 48))%N
      else if (c =? 46)%N then
        match s' with
        | [d] =>
            if ascii_isdigit d then Some (acc * 100 + (d - 48) * 10)%N
            else None
        | [d1; d2] =>
            if ascii_isdigit d1 && ascii_isdigit d2
            then Some (acc * 100 + (d1 - 48) * 10 + (d2 - 48))%N
            else None
        | _ => None
        end
      else None
  end.

(** A table of floats for the examples: the numbers from 0 on written with
    at most two decimals, each held as its value in hundredths.  On them
    comparison and [format(x, ".2f")] are exact. *)
Definition two_decimals : PyFloat :=
  {| float := N;
     float_of := fun v =>
       match v with
       | JNumber lit =>
           match hundredths (str lit) 0 with
           | Some h => Returned h
           | None => Raised ValueError
           end
       | JString s =>
           match hundredths s 0 with
           | Some h => Returned h
           | None => Raised ValueError
           end
       | JBool b => Returned (if b then 100 else 0)%N
       | _ => Raised TypeError
       end;
     float_lt := N.ltb;
     float_le := N.leb;
     float_0 := 0%N;
     float_1 := 100%N;
     format_2f := fun h =>
       str (decimal (N.to_nat (h / 100))) ++ str "."
       ++ str (decimal (N.to_nat ((h mod 100) / 10)))
       ++ str (decimal (N.to_nat (h mod 10))) |}.

(** A Groq service that answers the classification request (the one with
    [max_tokens=300]) with [intent_reply], any other JSON request with
    [followup_reply], and a drafting request with [draft]. *)
Definition scripted_groq (intent_reply followup_reply : outcome json)
    (draft : outcome text) : groq_service.GroqService :=
  {| groq_service.chat_completion := fun _ => draft;
     groq_service.chat_completion_json := fun _ _ max_tokens =>
       if (max_tokens =? 300)%nat then intent_reply else followup_reply |}.

(** A vector library for the examples: a vector is the length of its text,
    an index the list of its rows, and a search gives what it is
    scripted with. *)
Definition scripted_library (found : list (N * Z))
  : knowledge_base.VectorLibrary two_decimals :=
  @knowledge_base.Build_VectorLibrary two_decimals
    nat (list nat) N
    (fun texts => Returned (map (@List.length N) texts))
    (fun _ => Returned [])
    (fun index rows => Returned (index ++ rows))
    (fun _ _ _ => Returned found)
    N.ltb
    (fun s => s).

Definition example_settings : knowledge_base.Settings two_decimals :=
  @knowledge_base.Build_Settings two_decimals 5%Z 35%N.

Definition example_analysis : schemas.IntentAnalysis two_decimals :=
  @schemas.Build_IntentAnalysis two_decimals
    schemas.LEAKAGE_SEEPAGE 90%N [schemas.WALL_REPAIR] schemas.MEDIUM
    [str "damp patches"; str "bedroom wall"].

Definition example_message : text :=
  str "Hi, I am getting damp patches on my bedroom wall after rains. What should I do?".

Definition example_knowledge : knowledge_base.knowledge_json :=
  [ (str "services",
     [ [ (str "topic", str "Waterproofing");
         (str "content", str "We waterproof terraces and walls.") ];
       [ (str "topic", str "Thermal scanning");
         (str "content", str "A non-invasive scan finds the source.") ] ]);
    (str "faq",
     [ [ (str "topic", str "Damp walls");
         (str "content", str "Damp patches often follow the rains.") ] ]) ].

Definition example_questions : list schemas.FollowUpQuestion :=
  [ {| schemas.question := str "Since when is the wall damp?";
       schemas.reason := str "Duration tells the severity." |};
    {| schemas.question := str "Is it an outer wall?";
       schemas.reason := str "Outer walls take the rain." |} ].

(** A question whose text is a number, after a well-formed one. *)
Definition number_as_question : list (text * json) :=
  [ (str "question", JNumber "42");
    (str "reason", JString (str "No reason.")) ].

Definition poisoned_questions : list json :=
  [ JObject [ (str "question", JString (str "Since when is the wall damp?"));
              (str "reason", JString (str "Duration tells the severity.")) ];
    JObject number_as_question ].

(** A service that fails but for the follow-up request. *)
Definition followup_only (reply : json) : groq_service.GroqService :=
  scripted_groq (Raised (ExternalError "timeout")) (Returned reply)
    (Raised (ExternalError "timeout")).

(** A hit of the search that [retrieve] keeps: a row number other than
    [-1] and a score not below the threshold. *)
Definition kept (F : PyFloat) (L : knowledge_base.VectorLibrary F)
    (threshold : float F) (hit : knowledge_base.score32 L * Z) : bool :=
  negb (snd hit =? -1)%Z
  && negb (knowledge_base.score_below L (fst hit) threshold).

(** What a document holds of the knowledge file. *)
Definition document_fields (F : PyFloat) (L : knowledge_base.VectorLibrary F)
    (doc : knowledge_base.KnowledgeDocument L) : text * text * text :=
  (knowledge_base.category doc, knowledge_base.topic doc,
   knowledge_base.content doc).

Definition item_field (item : list (text * text)) (key : string) : text :=
  match dict_find (str key) item with
  | Some v => v
  | None => []
  end.

(** The entries of the knowledge file, category by category, in the order
    of the file. *)
Definition flattened (raw : knowledge_base.knowledge_json)
  : list (text * text * text) :=
  flat_map (fun c =>
              map (fun item =>
                     (fst c, item_field item "topic",
                      item_field item "content"))
                  (snd c))
           raw.

(** The knowledge base of the examples, loaded from [example_knowledge]. *)
Definition example_store (found : list (N * Z))
  : knowledge_base.KnowledgeBase (scripted_library found) :=
  fst (knowledge_base.initialise (Some (Returned example_knowledge))
         (knowledge_base.__init__ (scripted_library found))).

Definition example_hits : list (N * Z) :=
  [ (90%N, 2%Z); (50%N, (-1)%Z); (20%N, 1%Z); (40%N, 0%Z) ].

(** An environment in which the classification and the drafting succeed
    and the follow-up request fails. *)
Definition example_environment (file : option (outcome knowledge_base.knowledge_json))
  : response_generator.environment nat :=
  {| response_generator.get_groq_service :=
       Returned
         (scripted_groq
            (Returned
               (analysis_json schemas.LEAKAGE_SEEPAGE (JNumber "0.9")
                  [schemas.WALL_REPAIR] schemas.MEDIUM
                  [str "damp patches"; str "bedroom wall"]))
            (Raised (ExternalError "timeout"))
            (Returned
               (str "Thank you for reaching out.  The repair will cost Rs. 10,000.")));
     response_generator.knowledge_file := file;
     response_generator.uuid4_hex := str "0123456789abcdef0123456789abcdef";
     response_generator.utcnow := 0 |}.

Definition example_draft : text :=
  str "Thank you for reaching out.  The repair will cost Rs. 10,000.".

(** What the pipeline returns in [example_environment] for
    [example_message]. *)
Definition example_response : schemas.LeadResponse two_decimals nat :=
  @schemas.Build_LeadResponse two_decimals nat
    (str "0123456789ab") 0 example_message
    (@schemas.Build_IntentAnalysis two_decimals
       schemas.LEAKAGE_SEEPAGE 90%N [schemas.WALL_REPAIR] schemas.MEDIUM
       [str "damp patches"; str "bedroom wall"])
    (str "Thank you for reaching out. The repair will cost (pricing will be determined after a professional on-site assessment).")
    []
    {| passed := false;
       flags := ["hallucinated_exact_price: matched 1 occurrence(s)"%string];
       modifications_applied :=
         ["Replaced hallucinated_exact_price matches with safe alternative."%string] |}
    [str "faq/Damp walls"; str "services/Waterproofing"].

(** ** Vocabulary of the call and its effects *)

(** Two states of the module that hold the same tables; what the logger was
    handed may differ. *)
Definition same_tables (s1 s2 : guardrails.state) : Prop :=
  guardrails.g_RULES s1 = guardrails.g_RULES s2
  /\ guardrails.g_BLOCKED_PHRASES s1 = guardrails.g_BLOCKED_PHRASES s2.

(** A statement that the tables decide: started in two states with the same
    tables it gives the same value or raises the same exception, and it
    leaves the tables as it found them. *)
Definition decided_by_tables (A : Type) (m : guardrails.action A) : Prop :=
  forall s1 s2,
    same_tables s1 s2 ->
    snd (m s1) = snd (m s2) /\ same_tables (fst (m s1)) s1.

(** The loop variables among the locals of the function above. *)
Definition variables_of (st : locals) : guardrails.variables :=
  {| guardrails.v_flags := l_flags st;
     guardrails.v_modifications := l_modifications st;
     guardrails.v_cleaned := l_cleaned st |}.

(** The state [s] when the logger has been handed [journal] instead. *)
Definition with_journal (s : guardrails.state) (journal : list log_record)
  : guardrails.state :=
  {| guardrails.g_RULES := guardrails.g_RULES s;
     guardrails.g_BLOCKED_PHRASES := guardrails.g_BLOCKED_PHRASES s;
     guardrails.handled := journal |}.

Definition plain (repl : text) : Prop :=
  existsb (N.eqb guardrails.backslash) repl = false.

(** A template compiler that rejects whatever it is given. *)
Definition rejecting : text -> outcome (text -> text) :=
  fun _ => Raised (ExternalError "re.error").

(** The module after some code has put a backslash into the replacement of
    the price rule. *)
Definition tampered : guardrails.state :=
  {| guardrails.g_RULES :=
       [{| name := "hallucinated_exact_price";
           pattern := {| re := Alt (seq [currency_before; ws_star; amount])
                                   (seq [amount; ws_star; currency_after]);
                         ignorecase := true |};
           replacement := str "(see \price list)" |}];
     guardrails.g_BLOCKED_PHRASES := _BLOCKED_PHRASES;
     guardrails.handled := [] |}.

(** A draft with every kind of violation at once. *)
Definition every_violation : text :=
  str "Rs. 100 within 2 days, 100% guarantee, extremely dangerous, other companies will cheat. I am an AI, as an AI language model, as a large language model I don't have access to real-time data.".

(** The pattern of the last assertion of [test_full_pipeline]
    ([tests/test_assistant.py]): [re.search(r"Rs\.?\s*[\d,]+", reply)] must
    find nothing. *)
Definition price_assertion : Pattern :=
  {| re := seq [word "Rs"; Opt (lit "."); ws_star;
                Rep (AOr ADigit (ALit (cp ","))) 1 None];
     ignorecase := false |}.

(** Splitting a conjunction of evaluations without trying to compute its
    members by unification. *)
Ltac split_conj := repeat match goal with |- _ /\ _ => split end.

Ltac evaluate := vm_compute; first [reflexivity | discriminate | repeat constructor].

(** * The model against the repository's tests

    The assertions of [TestGuardrails] in [tests/test_assistant.py],
    evaluated on the embedding. *)

Example test_exact_price_is_replaced :
  let r := apply_guardrails ascii_only
             (str "The waterproofing will cost Rs. 25,000 for your terrace.") in
  contains (str "Rs. 25,000") (fst r) = false
  /\ contains (str "assessment") (lower ascii_only (fst r)) = true
  /\ passed (snd r) = false.
Proof. cbv zeta. split_conj; evaluate. Qed.

Example test_inr_price_is_replaced :
  let r := apply_guardrails ascii_only
             (str "Total cost would be INR 15000 approximately.") in
  contains (str "INR 15000") (fst r) = false /\ passed (snd r) = false.
Proof. cbv zeta. split_conj; evaluate. Qed.

Example test_rupee_symbol_price_is_replaced :
  let r := apply_guardrails ascii_only
             (str "The inspection fee is " ++ rupee_sign :: str "2,500.") in
  contains (rupee_sign :: str "2,500") (fst r) = false
  /\ passed (snd r) = false.
Proof. cbv zeta. split_conj; evaluate. Qed.

Example test_fabricated_timeline_is_replaced :
  let r := apply_guardrails ascii_only
             (str "We will complete the work within 3 days.") in
  contains (str "within 3 days") (fst r) = false /\ passed (snd r) = false.
Proof. cbv zeta. split_conj; evaluate. Qed.

Example test_absolute_guarantee_is_replaced :
  let r := apply_guardrails ascii_only
             (str "We provide a 100% guarantee on all waterproofing work.") in
  contains (str "100% guarantee") (fst r) = false /\ passed (snd r) = false.
Proof. cbv zeta. split_conj; evaluate. Qed.

Example test_lifetime_warranty_is_replaced :
  let r := apply_guardrails ascii_only
             (str "This comes with a lifetime warranty.") in
  contains (str "lifetime warranty") (fst r) = false
  /\ passed (snd r) = false.
Proof. cbv zeta. split_conj; evaluate. Qed.

Example test_ai_self_reference_is_removed :
  let r := apply_guardrails ascii_only
             (str "As an AI language model, I can help you with your query.") in
  contains (str "ai language model") (lower ascii_only (fst r)) = false
  /\ passed (snd r) = false.
Proof. cbv zeta. split_conj; evaluate. Qed.

Example test_clean_text_passes :
  let r := apply_guardrails ascii_only clean_draft in
  passed (snd r) = true /\ fst r = clean_draft.
Proof. cbv zeta. split_conj; evaluate. Qed.

Example test_multiple_violations_all_caught :
  let r := apply_guardrails ascii_only
             (str "The repair will cost Rs. 10,000 and will be completed within 2 days. We offer a 100% guarantee.") in
  contains (str "Rs. 10,000") (fst r) = false
  /\ contains (str "within 2 days") (fst r) = false
  /\ contains (str "100% guarantee") (fst r) = false
  /\ 3 <= List.length (flags (snd r)).
Proof.
  cbv zeta. split_conj; evaluate.
Qed.

(** * What the model takes for granted *)

(** No pattern the function uses can match the empty string, so [scan]
    never meets an empty match. *)
Lemma patterns_never_match_empty :
  Forall (fun rule => 1 <= min_len (re (pattern rule))) _RULES
  /\ Forall (fun e => 1 <= min_len (re (escaped (fst e)))) _BLOCKED_PHRASES
  /\ 1 <= min_len (re double_spaces)
  /\ 1 <= min_len (re triple_newlines).
Proof.
  repeat split; repeat constructor; cbn; lia.
Qed.

(** No replacement holds a backslash: [re.sub] inserts each of them as it
    is. *)
Lemma replacements_are_plain :
  Forall (fun rule => existsb (N.eqb 92) (replacement rule) = false) _RULES
  /\ Forall (fun e => existsb (N.eqb 92) (str (snd e)) = false)
       _BLOCKED_PHRASES.
Proof.
  split; repeat constructor.
Qed.

(** On the ASCII drafts used as examples below, the Unicode table plays no
    part. *)
Remark examples_for_every_table (U : UnicodeData) :
  apply_guardrails U (str "Thank you.  We will call you back.")
  = apply_guardrails ascii_only (str "Thank you.  We will call you back.")
  /\ apply_guardrails U (str "I am an AI don't have access to real-time data.")
     = apply_guardrails ascii_only
         (str "I am an AI don't have access to real-time data.")
  /\ apply_guardrails U (str "This is not a life  threatening situation.")
     = apply_guardrails ascii_only
         (str "This is not a life  threatening situation.")
  /\ apply_guardrails U (str "This is not a life threatening situation.")
     = apply_guardrails ascii_only
         (str "This is not a life threatening situation.")
  /\ apply_guardrails U (str "i am an i am an aiai")
     = apply_guardrails ascii_only (str "i am an i am an aiai")
  /\ apply_guardrails U
       (str "A life threatening condition, not a life  threatening condition.")
     = apply_guardrails ascii_only
         (str "A life threatening condition, not a life  threatening condition.")
  /\ apply_guardrails U (str "It costs Rs I am an AI 500.")
     = apply_guardrails ascii_only (str "It costs Rs I am an AI 500.")
  /\ apply_guardrails U (str "It costs Rs 500.")
     = apply_guardrails ascii_only (str "It costs Rs 500.").
Proof.
  split_conj; evaluate.
Qed.

(** * Properties of the matcher *)

Section MatcherFacts.

Variable U : UnicodeData.

Lemma rep_exec_in (p : N -> bool) (s : text) :
  forall lo hi w s',
    In (w, s') (rep_exec p lo hi s) <->
    s = w ++ s' /\ forallb p w = true /\ lo <= List.length w
    /\ match hi with Some h => List.length w <= h | None => True end.
Proof.
  induction s as [|c s IH]; intros lo hi w s'; cbn [rep_exec].
  - destruct lo; cbn [Nat.eqb In]; split.
    + intros [E|[]]. inversion E; subst. cbn. destruct hi; repeat split; lia.
    + intros (E & _). symmetry in E. apply app_eq_nil in E as [-> ->]. now left.
    + intros [].
    + intros (E & _ & L & _). symmetry in E. apply app_eq_nil in E as [-> _].
      cbn in L. lia.
  - set (stop := if (lo =? 0)%nat then [(@nil N, c :: s)] else @nil (text * text)).
    assert (Hstop : In (w, s') stop <-> w = [] /\ s' = c :: s /\ lo = 0).
    { unfold stop. destruct lo; cbn; split.
      - intros [E|[]]. inversion E. auto.
      - intros (-> & -> & _). now left.
      - intros [].
      - intros (_ & _ & L). discriminate. }
    assert (Hmore :
      In (w, s')
         (map (fun ws => (c :: fst ws, snd ws))
              (rep_exec p (pred lo) (option_map pred hi) s)) <->
      exists w', w = c :: w' /\ In (w', s')
                   (rep_exec p (pred lo) (option_map pred hi) s)).
    { rewrite in_map_iff. split.
      - intros ([w' r] & E & Hin). cbn in E. inversion E; subst. eauto.
      - intros (w' & -> & Hin). exists (w', s'). auto. }
    subst stop.
    destruct (match hi with Some 0 => false | _ => p c end) eqn:M.
    + rewrite in_app_iff, Hstop, Hmore. split.
      * intros [(w' & -> & Hin) | (-> & -> & ->)].
        -- apply IH in Hin as (-> & F & L & H).
           cbn. repeat split; try lia.
           ++ apply andb_true_iff; split; [|exact F].
              destruct hi as [[|h]|]; [discriminate|exact M|exact M].
           ++ destruct hi as [[|h]|]; cbn in *; try lia; discriminate.
        -- cbn. destruct hi; repeat split; lia.
      * intros (E & F & L & H). destruct w as [|x w].
        -- right. cbn in E, L. repeat split; auto. lia.
        -- left. cbn in E. inversion E; subst. exists w. split; auto.
           apply IH. cbn in F, L. apply andb_true_iff in F as [_ F].
           repeat split; auto; try lia.
           destruct hi as [[|h]|]; cbn in *; auto; lia.
    + rewrite Hstop. split.
      * intros (-> & -> & ->). cbn. destruct hi; repeat split; lia.
      * intros (E & F & L & H). destruct w as [|x w].
        -- cbn in E, L. repeat split; auto. lia.
        -- exfalso. cbn in E. inversion E; subst. cbn in F, H.
           apply andb_true_iff in F as [F _].
           destruct hi as [[|h]|]; try congruence. lia.
Qed.

(** A match is a prefix of what the matcher was given. *)
Lemma exec_split ic r :
  forall prev s w s', In (w, s') (exec U ic r prev s) -> s = w ++ s'.
Proof.
  induction r; intros prev s w s' H; cbn [exec] in H.
  - destruct s as [|c s]; [contradiction|].
    destruct (atom_match U ic a c); [|contradiction].
    destruct H as [E|[]]. now inversion E.
  - destruct (word_boundary U prev (hd_error s)); [|contradiction].
    destruct H as [E|[]]. now inversion E.
  - destruct H as [E|[]]. now inversion E.
  - apply in_flat_map in H as ([w1 s1] & H1 & H2).
    apply in_map_iff in H2 as ([w2 s2] & E & H2). cbn in *.
    inversion E; subst. apply IHr1 in H1. apply IHr2 in H2. subst.
    now rewrite app_assoc.
  - apply in_app_iff in H as [H|H]; eauto.
  - apply in_app_iff in H as [H|[E|[]]]; eauto. now inversion E.
  - now apply rep_exec_in in H.
Qed.

Lemma exec_min_len ic r :
  forall prev s w s',
    In (w, s') (exec U ic r prev s) -> min_len r <= List.length w.
Proof.
  induction r; intros prev s w s' H; cbn [exec min_len] in *.
  - destruct s as [|c s]; [contradiction|].
    destruct (atom_match U ic a c); [|contradiction].
    destruct H as [E|[]]. inversion E. cbn. lia.
  - lia.
  - lia.
  - apply in_flat_map in H as ([w1 s1] & H1 & H2).
    apply in_map_iff in H2 as ([w2 s2] & E & H2). cbn in *.
    inversion E; subst. apply IHr1 in H1. apply IHr2 in H2.
    rewrite length_app. lia.
  - apply in_app_iff in H as [H|H]; [apply IHr1 in H|apply IHr2 in H]; lia.
  - lia.
  - apply rep_exec_in in H. lia.
Qed.

(** For a pattern that cannot match the empty string, the engine reports
    nothing exactly when the matcher has no way to match. *)
Lemma first_match_none p prev s :
  1 <= min_len (re p) ->
  match first_match U p prev s with
  | Some (_ :: _) => False
  | _ => True
  end ->
  exec U (ignorecase p) (re p) prev s = [].
Proof.
  unfold first_match. intros L H.
  destruct (exec U (ignorecase p) (re p) prev s) as [|[w s'] l] eqn:E; auto.
  assert (Hin : In (w, s') (exec U (ignorecase p) (re p) prev s))
    by (rewrite E; now left).
  apply exec_min_len in Hin. cbn in H. destruct w; [cbn in Hin; lia|contradiction].
Qed.

Lemma first_match_in p prev s w :
  first_match U p prev s = Some w ->
  exists s', In (w, s') (exec U (ignorecase p) (re p) prev s) /\ s = w ++ s'.
Proof.
  unfold first_match.
  destruct (exec U (ignorecase p) (re p) prev s) as [|[w0 s'] l] eqn:E;
    [discriminate|].
  intros H. inversion H; subst. cbn. exists s'.
  assert (Hin : In (w, s') (exec U (ignorecase p) (re p) prev s))
    by (rewrite E; now left).
  split; auto. eapply exec_split; eauto.
Qed.

(** ** Scanning a text without occurrence *)

Lemma scan_clean p : forall prev s,
  occurs_from U p prev s = false -> scan U p 0 prev s = map Keep s.
Proof.
  intros prev s; revert prev.
  induction s as [|c s IH]; intros prev H; cbn [scan occurs_from map] in *; auto.
  destruct (first_match U p prev (c :: s)) as [[|x w]|];
    try discriminate; now rewrite IH.
Qed.

Lemma scan_occurs p : forall prev s,
  occurs_from U p prev s = true -> hits (scan U p 0 prev s) <> [].
Proof.
  intros prev s; revert prev.
  induction s as [|c s IH]; intros prev H; cbn [scan occurs_from] in *;
    [discriminate|].
  destruct (first_match U p prev (c :: s)) as [[|x w]|]; cbn;
    try discriminate; now apply IH.
Qed.

Lemma render_keep repl (s : text) : render repl (map Keep s) = s.
Proof.
  unfold render. induction s as [|c s IH]; cbn; congruence.
Qed.

Lemma hits_keep (s : text) : hits (map Keep s) = [].
Proof.
  unfold hits. induction s as [|c s IH]; cbn; auto.
Qed.

Lemma findall_nil_iff p t : findall U p t = [] <-> occurs U p t = false.
Proof.
  unfold findall, occurs. split; intros H.
  - destruct (occurs_from U p None t) eqn:E; auto.
    apply scan_occurs in E. contradiction.
  - rewrite scan_clean by assumption. apply hits_keep.
Qed.

Lemma sub_clean p repl t : occurs U p t = false -> sub U p repl t = t.
Proof.
  unfold sub, occurs. intros H. rewrite scan_clean by assumption.
  apply render_keep.
Qed.

End MatcherFacts.

(** ** Positions and pieces *)

Lemma last_of_cons prev c w : last_of prev (c :: w) = last_of (Some c) w.
Proof.
  unfold last_of. cbn [rev]. destruct (rev w); reflexivity.
Qed.

Lemma scan_skip U p : forall k prev s,
  k <= List.length s ->
  scan U p k prev s = scan U p 0 (last_of prev (firstn k s)) (skipn k s).
Proof.
  induction k as [|k IH]; intros prev s L.
  - reflexivity.
  - destruct s as [|c s]; [cbn in L; lia|].
    cbn [scan firstn skipn]. rewrite last_of_cons. apply IH. cbn in L. lia.
Qed.

(** The scan cuts the text into pieces: matches and the characters between
    them. *)
Lemma scan_original U p : forall n s prev,
  List.length s <= n -> original (scan U p 0 prev s) = s.
Proof.
  induction n as [|n IH]; intros s prev L.
  - destruct s; [reflexivity|cbn in L; lia].
  - destruct s as [|c s]; [reflexivity|]. cbn [List.length] in L.
    cbn [scan].
    destruct (first_match U p prev (c :: s)) as [[|x w]|] eqn:F.
    + unfold original. cbn [flat_map app]. f_equal. apply IH. lia.
    + apply first_match_in in F as (rest & _ & E).
      cbn [app] in E. inversion E; subst.
      rewrite scan_skip by (rewrite length_app; lia).
      rewrite firstn_app, Nat.sub_diag, firstn_all, skipn_app, Nat.sub_diag,
              skipn_all.
      cbn [firstn skipn app]. unfold original. cbn [flat_map app].
      f_equal. f_equal. apply IH. rewrite length_app in L. lia.
    + unfold original. cbn [flat_map app]. f_equal. apply IH. lia.
Qed.

(** [occurs] spelled out: somewhere in the text the engine reports a
    non-empty match. *)
Lemma occurs_from_iff U p : forall s prev,
  occurs_from U p prev s = true <->
  exists a w b,
    s = a ++ w ++ b /\ w <> []
    /\ first_match U p (last_of prev a) (w ++ b) = Some w.
Proof.
  induction s as [|c s IH]; intros prev; cbn [occurs_from].
  - split; [discriminate|]. intros (a & w & b & E & Hw & _).
    destruct a; [destruct w; [contradiction|discriminate]|discriminate].
  - split.
    + destruct (first_match U p prev (c :: s)) as [[|x w]|] eqn:F.
      * intros H. apply IH in H as (a & w & b & -> & Hw & Hm).
        exists (c :: a), w, b. rewrite last_of_cons. auto.
      * intros _. pose proof F as F'.
        apply first_match_in in F' as (b & _ & E).
        exists [], (x :: w), b.
        split; [exact E|]. split; [discriminate|].
        unfold last_of. cbn [rev]. rewrite <- E. exact F.
      * intros H. apply IH in H as (a & w & b & -> & Hw & Hm).
        exists (c :: a), w, b. rewrite last_of_cons. auto.
    + intros (a & w & b & E & Hw & Hm). destruct a as [|y a].
      * cbn [app last_of rev] in *. rewrite E, Hm.
        destruct w; [contradiction|reflexivity].
      * cbn [app] in E. inversion E; subst. rewrite last_of_cons in Hm.
        destruct (first_match U p prev (y :: a ++ w ++ b)) as [[|x w0]|];
          auto; apply IH; exists a, w, b; auto.
Qed.

(** * The two loops, rule by rule *)

Section Cascade.

Variable U : UnicodeData.

Lemma rule_step_fires st rule :
  occurs U (pattern rule) (l_cleaned st) = true ->
  rule_step U st rule =
  let hit := PatternHit rule
               (List.length (findall U (pattern rule) (l_cleaned st))) in
  {| l_flags := l_flags st ++ [flag_of hit];
     l_modifications := l_modifications st ++ [modification_of hit];
     l_cleaned := sub U (pattern rule) (replacement rule) (l_cleaned st);
     l_log := l_log st ++ [log_of hit] |}.
Proof.
  intros H. unfold rule_step.
  destruct (findall U (pattern rule) (l_cleaned st)) eqn:E; [|reflexivity].
  apply findall_nil_iff in E. congruence.
Qed.

Lemma rule_step_idle st rule :
  occurs U (pattern rule) (l_cleaned st) = false -> rule_step U st rule = st.
Proof.
  intros H. unfold rule_step. apply findall_nil_iff in H. now rewrite H.
Qed.

Lemma fold_rule_step rules : forall st,
  fold_left (rule_step U) rules st =
  let ts := rule_triggers U rules (l_cleaned st) in
  {| l_flags := l_flags st ++ map flag_of ts;
     l_modifications := l_modifications st ++ map modification_of ts;
     l_cleaned := after_rules U rules (l_cleaned st);
     l_log := l_log st ++ map log_of ts |}.
Proof.
  induction rules as [|rule rules IH]; intros st; cbn [fold_left].
  - cbn. rewrite !app_nil_r. now destruct st.
  - cbn [rule_triggers after_rules].
    destruct (occurs U (pattern rule) (l_cleaned st)) eqn:E.
    + rewrite rule_step_fires by assumption. rewrite IH. cbn.
      now rewrite <- !app_assoc.
    + rewrite rule_step_idle by assumption. apply IH.
Qed.

Lemma fold_phrase_step lower_cleaned phrases : forall st,
  fold_left (phrase_step U lower_cleaned) phrases st =
  let ts := phrase_triggers phrases lower_cleaned in
  {| l_flags := l_flags st ++ map flag_of ts;
     l_modifications := l_modifications st ++ map modification_of ts;
     l_cleaned := after_phrases U phrases lower_cleaned (l_cleaned st);
     l_log := l_log st ++ map log_of ts |}.
Proof.
  induction phrases as [|[phrase repl] phrases IH]; intros st; cbn [fold_left].
  - cbn. rewrite !app_nil_r. now destruct st.
  - unfold phrase_triggers. cbn [flat_map after_phrases phrase_step fst snd].
    destruct (contains (str phrase) lower_cleaned) eqn:E.
    + rewrite IH. cbn. now rewrite <- !app_assoc.
    + apply IH.
Qed.

(** The locals at the end of the body, in terms of the rules that fired. *)
Lemma run_guardrails_eq draft :
  let ts := triggers U draft in
  let c0 := after_rules U _RULES draft in
  run_guardrails U draft =
  {| l_flags := map flag_of ts;
     l_modifications := map modification_of ts;
     l_cleaned :=
       normalize_whitespace U
         (after_phrases U _BLOCKED_PHRASES (lower U c0) c0);
     l_log := map log_of ts
              ++ [if (List.length (map flag_of ts) =? 0)%nat then LogPassed
                  else LogFailed (List.length (map flag_of ts))] |}.
Proof.
  unfold run_guardrails, triggers.
  rewrite fold_rule_step. cbn [l_cleaned l_flags l_modifications l_log].
  rewrite fold_phrase_step. cbn [l_cleaned l_flags l_modifications l_log app].
  now rewrite !map_app.
Qed.

Lemma apply_guardrails_eq draft :
  let ts := triggers U draft in
  let c0 := after_rules U _RULES draft in
  apply_guardrails U draft =
  (normalize_whitespace U (after_phrases U _BLOCKED_PHRASES (lower U c0) c0),
   {| passed := (List.length ts =? 0)%nat;
      flags := map flag_of ts;
      modifications_applied := map modification_of ts |}).
Proof.
  unfold apply_guardrails. rewrite run_guardrails_eq.
  cbv zeta. cbn [l_cleaned l_flags l_modifications].
  now rewrite length_map.
Qed.

End Cascade.

(** * Substrings, runs and [strip] *)

Lemma starts_with_app n a b :
  starts_with n a = true -> starts_with n (a ++ b) = true.
Proof.
  revert a. induction n as [|x n IH]; intros [|y a] H; cbn in *; auto;
    try discriminate.
  apply andb_true_iff in H as [-> H]. cbn. auto.
Qed.

Lemma contains_app_l n a b :
  contains n a = true -> contains n (a ++ b) = true.
Proof.
  induction a as [|y a IH]; cbn [contains app]; intros H.
  - rewrite orb_false_r in H. destruct n; [|destruct b; discriminate].
    destruct b; reflexivity.
  - apply orb_true_iff in H as [H|H]; apply orb_true_iff.
    + left. now apply (starts_with_app n (y :: a) b).
    + right. auto.
Qed.

Lemma contains_app_r n a b :
  contains n b = true -> contains n (a ++ b) = true.
Proof.
  induction a as [|y a IH]; cbn [contains app]; intros H; auto.
  apply orb_true_iff. right. auto.
Qed.

Lemma contains_free_app n a b :
  contains n (a ++ b) = false -> contains n a = false /\ contains n b = false.
Proof.
  intros H. split.
  - destruct (contains n a) eqn:E; auto.
    apply (contains_app_l n a b) in E. congruence.
  - destruct (contains n b) eqn:E; auto.
    apply (contains_app_r n a b) in E. congruence.
Qed.

Lemma starts_with_run c k s :
  starts_with (repeat c k) s = (k <=? run_len c s)%nat.
Proof.
  revert s. induction k as [|k IH]; intros [|x s]; cbn; auto.
  rewrite N.eqb_sym. destruct (x =? c)%N; cbn; auto.
Qed.

Lemma contains_run_cons c k x s :
  contains (repeat c k) (x :: s) =
  (k <=? run_len c (x :: s))%nat || contains (repeat c k) s.
Proof.
  cbn [contains]. now rewrite starts_with_run.
Qed.

Lemma run_len_le c s : run_len c s <= List.length s.
Proof.
  induction s as [|x s IH]; cbn; auto. destruct (x =? c)%N; lia.
Qed.

Lemma run_len_skipn c s : run_len c (skipn (run_len c s) s) = 0.
Proof.
  induction s as [|x s IH]; cbn; auto.
  destruct (x =? c)%N eqn:E; cbn; auto. now rewrite E.
Qed.

Lemma run_len_snoc c s x :
  x <> c -> run_len c (s ++ [x]) = run_len c s.
Proof.
  intros H. induction s as [|y s IH]; cbn.
  - apply N.eqb_neq in H. now rewrite H.
  - destruct (y =? c)%N; auto.
Qed.

Lemma run_len_repeat_app c k s :
  run_len c (repeat c k ++ s) = k + run_len c s.
Proof.
  induction k as [|k IH]; cbn; auto. now rewrite N.eqb_refl, IH.
Qed.

Lemma run_len_other c d s :
  c <> d -> 1 <= run_len c s -> run_len d s = 0.
Proof.
  intros H L. destruct s as [|x s]; cbn in *; auto.
  destruct (x =? c)%N eqn:E; [|lia]. apply N.eqb_eq in E. subst.
  apply N.eqb_neq in H. now rewrite H.
Qed.

(** ** [strip] *)

Lemma lstrip_suffix t : exists a, t = a ++ lstrip t.
Proof.
  induction t as [|x t [a IH]]; cbn.
  - now exists [].
  - destruct (is_space x).
    + exists (x :: a). cbn. congruence.
    + now exists [].
Qed.

Lemma lstrip_starts_clean t : starts_clean (lstrip t).
Proof.
  induction t as [|x t IH]; cbn; auto.
  destruct (is_space x) eqn:E; auto.
Qed.

Lemma lstrip_clean t : starts_clean t -> lstrip t = t.
Proof.
  destruct t as [|x t]; cbn; auto. now intros ->.
Qed.

Lemma rstrip_prefix t : exists b, t = rstrip t ++ b.
Proof.
  unfold rstrip. destruct (lstrip_suffix (rev t)) as [a E].
  exists (rev a). rewrite <- rev_app_distr, <- E. now rewrite rev_involutive.
Qed.

Lemma rstrip_ends_clean t : ends_clean (rstrip t).
Proof.
  unfold ends_clean, rstrip. rewrite rev_involutive. apply lstrip_starts_clean.
Qed.

Lemma rstrip_clean t : ends_clean t -> rstrip t = t.
Proof.
  unfold ends_clean, rstrip. intros H. rewrite lstrip_clean by assumption.
  apply rev_involutive.
Qed.

Lemma rstrip_starts_clean t : starts_clean t -> starts_clean (rstrip t).
Proof.
  destruct (rstrip_prefix t) as [b E]. intros H.
  destruct (rstrip t) as [|x r]; cbn; auto. rewrite E in H. exact H.
Qed.

Lemma strip_clean t : starts_clean t -> ends_clean t -> strip t = t.
Proof.
  intros H1 H2. unfold strip. rewrite lstrip_clean by assumption.
  now apply rstrip_clean.
Qed.

Lemma strip_starts_clean t : starts_clean (strip t).
Proof. apply rstrip_starts_clean, lstrip_starts_clean. Qed.

Lemma strip_ends_clean t : ends_clean (strip t).
Proof. apply rstrip_ends_clean. Qed.

Lemma strip_fixed_clean t : strip t = t -> starts_clean t /\ ends_clean t.
Proof.
  intros E. rewrite <- E. split;
    [apply strip_starts_clean | apply strip_ends_clean].
Qed.

Lemma strip_infix t : exists a b, t = a ++ strip t ++ b.
Proof.
  unfold strip. destruct (lstrip_suffix t) as [a Ea].
  destruct (rstrip_prefix (lstrip t)) as [b Eb].
  exists a, b. now rewrite <- Eb.
Qed.

Lemma strip_free n t : contains n t = false -> contains n (strip t) = false.
Proof.
  destruct (strip_infix t) as (a & b & E). intros H. rewrite E in H.
  apply contains_free_app in H as [_ H].
  now apply contains_free_app in H as [H _].
Qed.

(** * Patterns that match a run of one character *)

Lemma rep_exec_greedy (p : N -> bool) c :
  (forall x, p x = (x =? c)%N) ->
  forall s lo,
    hd_error (rep_exec p lo None s) =
    if (lo <=? run_len c s)%nat
    then Some (repeat c (run_len c s), skipn (run_len c s) s)
    else None.
Proof.
  intros Hp. induction s as [|x s IH]; intros lo; cbn [rep_exec run_len].
  - destruct lo; reflexivity.
  - rewrite Hp. destruct (x =? c)%N eqn:E.
    + apply N.eqb_eq in E. subst x. specialize (IH (pred lo)). cbn [option_map].
      destruct (rep_exec p (pred lo) None s) as [|[w r] l]; cbn in IH |- *.
      * destruct lo as [|lo]; cbn in IH |- *.
        -- discriminate.
        -- destruct (lo <=? run_len c s)%nat; [discriminate|reflexivity].
      * destruct lo as [|lo]; cbn in IH |- *.
        -- inversion IH; subst. reflexivity.
        -- destruct (lo <=? run_len c s)%nat; [|discriminate].
           inversion IH; subst. reflexivity.
    + destruct lo; reflexivity.
Qed.

Lemma first_match_double_spaces U prev s :
  first_match U double_spaces prev s =
  if (2 <=? run_len 32 s)%nat then Some (repeat 32%N (run_len 32 s)) else None.
Proof.
  unfold first_match.
  change double_spaces
    with {| re := Seq (Atom (ALit 32)) (Rep (ALit 32) 1 None);
            ignorecase := false |}.
  cbn [re ignorecase exec].
  destruct s as [|x s]; [reflexivity|].
  cbn [atom_match lit_match run_len].
  destruct (x =? 32)%N eqn:E; [|reflexivity].
  apply N.eqb_eq in E. subst x.
  cbn [flat_map fst snd app]. rewrite app_nil_r.
  pose proof (@rep_exec_greedy (fun y : N => (y =? 32)%N) 32%N
                (fun y => eq_refl) s 1) as G.
  destruct (rep_exec (fun y : N => (y =? 32)%N) 1 None s) as [|[w r] l];
    cbn in G |- *.
  - destruct (run_len 32 s); [reflexivity|discriminate].
  - destruct (run_len 32 s); [discriminate|]. now inversion G.
Qed.

Lemma first_match_triple_newlines U prev s :
  first_match U triple_newlines prev s =
  if (3 <=? run_len 10 s)%nat then Some (repeat 10%N (run_len 10 s)) else None.
Proof.
  unfold first_match, triple_newlines. cbn [re ignorecase exec].
  cbn [atom_match lit_match]. change newline with 10%N.
  pose proof (@rep_exec_greedy (fun y : N => (y =? 10)%N) 10%N
                (fun y => eq_refl) s 3) as G.
  destruct (rep_exec (fun y : N => (y =? 10)%N) 3 None s)
    as [|[w r] l]; cbn [hd_error] in G.
  - destruct (3 <=? run_len 10 s)%nat; [discriminate|reflexivity].
  - destruct (3 <=? run_len 10 s)%nat; [|discriminate]. now inversion G.
Qed.

(** ** Runs and their collapse *)

Lemma runs_unfold x t :
  runs (x :: t)
  = match runs t with
    | (y, n) :: r =>
        if (x =? y)%N then (y, S n) :: r else (x, 1) :: (y, n) :: r
    | [] => [(x, 1)]
    end.
Proof. reflexivity. Qed.

Lemma runs_cons : forall t x,
  runs (x :: t) = (x, S (run_len x t)) :: runs (skipn (run_len x t) t).
Proof.
  induction t as [|y t IH]; intros x; [reflexivity|].
  rewrite runs_unfold, IH. cbn [run_len]. rewrite (N.eqb_sym y x).
  destruct (x =? y)%N eqn:E.
  - apply N.eqb_eq in E. subst y. reflexivity.
  - cbn [skipn]. now rewrite IH.
Qed.

Lemma unruns_runs t : unruns (runs t) = t.
Proof.
  remember (List.length t) as n eqn:En. revert t En.
  induction n as [n IH] using lt_wf_ind. intros [|x t] En; [reflexivity|].
  rewrite runs_cons. unfold unruns. cbn [flat_map fst snd repeat app].
  f_equal. fold (unruns (runs (skipn (run_len x t) t))).
  rewrite (IH (List.length (skipn (run_len x t) t))); [|subst n; cbn; rewrite length_skipn; lia|reflexivity].
  rewrite <- (firstn_skipn (run_len x t) t) at 3. f_equal.
  clear. induction t as [|y t IH]; cbn; auto.
  rewrite (N.eqb_sym y x). destruct (x =? y)%N eqn:E; cbn; auto.
  apply N.eqb_eq in E. subst. now rewrite IH.
Qed.

Section Collapse.

Variable c : N.
Variables lo keep : nat.

Let cut (r : N * nat) : N * nat :=
  if (fst r =? c)%N && (lo <=? snd r)%nat then (c, keep) else r.

Lemma collapse_runs_cons x s :
  collapse_runs c lo keep (x :: s)
  = repeat (fst (cut (x, S (run_len x s)))) (snd (cut (x, S (run_len x s))))
    ++ collapse_runs c lo keep (skipn (run_len x s) s).
Proof.
  unfold collapse_runs. rewrite runs_cons. reflexivity.
Qed.

Lemma collapse_runs_hit s :
  1 <= lo -> lo <= run_len c s ->
  collapse_runs c lo keep s
  = repeat c keep ++ collapse_runs c lo keep (skipn (run_len c s) s).
Proof.
  intros P L. destruct s as [|x s]; [cbn in L; lia|].
  cbn [run_len] in *. destruct (x =? c)%N eqn:E; [|lia].
  apply N.eqb_eq in E. subst x. rewrite collapse_runs_cons.
  unfold cut. cbn [fst snd skipn]. rewrite N.eqb_refl.
  now rewrite (proj2 (Nat.leb_le _ _) L).
Qed.

Lemma collapse_runs_run x s :
  (x <> c \/ run_len x s < lo) ->
  collapse_runs c lo keep s
  = repeat x (run_len x s)
    ++ collapse_runs c lo keep (skipn (run_len x s) s).
Proof.
  intros H. destruct s as [|y s]; [reflexivity|].
  cbn [run_len] in *. destruct (y =? x)%N eqn:E; [|reflexivity].
  apply N.eqb_eq in E. subst y. rewrite collapse_runs_cons.
  cbn [skipn]. f_equal. unfold cut. cbn [fst snd].
  destruct H as [H|H].
  - apply N.eqb_neq in H. now rewrite H.
  - apply Nat.leb_gt in H. rewrite H, andb_false_r. reflexivity.
Qed.

Lemma collapse_runs_keep x s :
  run_len c (x :: s) < lo ->
  collapse_runs c lo keep (x :: s) = x :: collapse_runs c lo keep s.
Proof.
  intros L. rewrite collapse_runs_cons.
  assert (H : x <> c \/ run_len x s < lo).
  { cbn [run_len] in L. destruct (x =? c)%N eqn:E.
    - apply N.eqb_eq in E. subst x. right. lia.
    - apply N.eqb_neq in E. now left. }
  rewrite (collapse_runs_run s H).
  assert (C : cut (x, S (run_len x s)) = (x, S (run_len x s))).
  { unfold cut. cbn [fst snd]. cbn [run_len] in L.
    destruct (x =? c)%N eqn:E; [|reflexivity].
    apply N.eqb_eq in E. subst x.
    apply Nat.leb_gt in L. now rewrite L. }
  rewrite C. reflexivity.
Qed.

End Collapse.

Section RunPattern.

Variable U : UnicodeData.
Variable p : Pattern.
Variable c : N.
Variables lo keep : nat.

Hypothesis lo_pos : 1 <= lo.
Hypothesis keep_pos : 1 <= keep.
Hypothesis keep_lt : keep < lo.
Hypothesis first_match_run : forall prev s,
  first_match U p prev s =
  if (lo <=? run_len c s)%nat then Some (repeat c (run_len c s)) else None.

Let repl : text := repeat c keep.

Lemma scan_run_prev : forall s k prev prev',
  scan U p k prev s = scan U p k prev' s.
Proof.
  induction s as [|x s IH]; intros k prev prev'; cbn [scan]; auto.
  destruct k; auto. now rewrite (first_match_run prev), (first_match_run prev').
Qed.

Lemma sub_run_hit s :
  lo <= run_len c s ->
  sub U p repl s = repl ++ sub U p repl (skipn (run_len c s) s).
Proof.
  intros L. unfold sub. destruct s as [|x s]; [cbn in L; lia|].
  cbn [scan]. rewrite first_match_run.
  rewrite (proj2 (Nat.leb_le _ _) L).
  pose proof (run_len_le c s) as B.
  cbn [run_len] in *. destruct (x =? c)%N; [|lia].
  cbn [repeat skipn]. rewrite repeat_length.
  rewrite scan_skip by assumption.
  rewrite (scan_run_prev _ 0 _ None). reflexivity.
Qed.

Lemma sub_run_keep x s :
  run_len c (x :: s) < lo -> sub U p repl (x :: s) = x :: sub U p repl s.
Proof.
  intros L. unfold sub. cbn [scan]. rewrite first_match_run.
  apply Nat.leb_gt in L. rewrite L. cbn [render flat_map app].
  now rewrite (scan_run_prev _ 0 _ None).
Qed.

Lemma sub_run_nil : sub U p repl [] = [].
Proof. reflexivity. Qed.

Lemma run_len_sub s :
  run_len c (sub U p repl s) =
  if (lo <=? run_len c s)%nat then keep else run_len c s.
Proof.
  induction s as [|x s IH].
  - cbn. destruct lo; [lia|reflexivity].
  - destruct (lo <=? run_len c (x :: s))%nat eqn:E.
    + apply Nat.leb_le in E. rewrite sub_run_hit by assumption.
      unfold repl. rewrite run_len_repeat_app.
      pose proof (run_len_skipn c (x :: s)) as Z.
      destruct (skipn (run_len c (x :: s)) (x :: s)) as [|y r].
      * cbn. lia.
      * rewrite sub_run_keep by lia. cbn [run_len] in *.
        destruct (y =? c)%N; [discriminate|lia].
    + apply Nat.leb_gt in E. rewrite sub_run_keep by assumption.
      cbn [run_len] in *. destruct (x =? c)%N; auto.
      rewrite IH. destruct (lo <=? run_len c s)%nat eqn:E2; auto.
      apply Nat.leb_le in E2. lia.
Qed.

Lemma contains_repeat_app n k o :
  k < n -> run_len c o = 0 -> contains (repeat c n) o = false ->
  contains (repeat c n) (repeat c k ++ o) = false.
Proof.
  intros L Z F. induction k as [|k IH]; cbn [repeat app]; auto.
  rewrite contains_run_cons. rewrite IH by lia.
  change (c :: repeat c k ++ o) with (repeat c (S k) ++ o).
  rewrite run_len_repeat_app, Z, orb_false_r. apply Nat.leb_gt. lia.
Qed.

Lemma contains_other_app d n k o :
  c <> d -> 1 <= n -> contains (repeat d n) o = false ->
  contains (repeat d n) (repeat c k ++ o) = false.
Proof.
  intros D L F. induction k as [|k IH]; cbn [repeat app]; auto.
  rewrite contains_run_cons, IH, orb_false_r.
  cbn [run_len]. apply N.eqb_neq in D. rewrite D. apply Nat.leb_gt. lia.
Qed.

(** No run of [lo] or more survives the substitution. *)
Lemma sub_run_free : forall s, contains (repeat c lo) (sub U p repl s) = false.
Proof.
  intros s. remember (List.length s) as n eqn:En.
  revert s En. induction n as [n IH] using lt_wf_ind. intros s En.
  destruct s as [|x s].
  - rewrite sub_run_nil. destruct lo; [lia|reflexivity].
  - destruct (lo <=? run_len c (x :: s))%nat eqn:E.
    + apply Nat.leb_le in E. rewrite sub_run_hit by assumption.
      apply contains_repeat_app; auto.
      * rewrite run_len_sub, run_len_skipn.
        destruct lo; [lia|reflexivity].
      * eapply IH; [|reflexivity]. rewrite length_skipn. subst n. cbn [List.length]. lia.
    + pose proof E as E'. apply Nat.leb_gt in E'.
      pose proof (run_len_sub (x :: s)) as R. rewrite E in R.
      rewrite sub_run_keep in * by assumption.
      rewrite contains_run_cons, R, E.
      apply (IH (List.length s)); [subst n; cbn; lia|reflexivity].
Qed.

Lemma run_len_other_sub d s :
  c <> d -> run_len d (sub U p repl s) = run_len d s.
Proof.
  intros D. induction s as [|x s IH]; auto.
  destruct (lo <=? run_len c (x :: s))%nat eqn:E.
  - apply Nat.leb_le in E. rewrite sub_run_hit by assumption.
    rewrite (@run_len_other c d (x :: s)) by (auto; lia).
    unfold repl. destruct keep as [|k]; [lia|]. cbn [repeat app run_len].
    apply N.eqb_neq in D. now rewrite D.
  - apply Nat.leb_gt in E. rewrite sub_run_keep by assumption.
    cbn [run_len]. now rewrite IH.
Qed.

(** Runs of another character are left as they were. *)
Lemma sub_run_other d k :
  c <> d -> 1 <= k ->
  forall s, contains (repeat d k) s = false ->
            contains (repeat d k) (sub U p repl s) = false.
Proof.
  intros D K s. remember (List.length s) as n eqn:En.
  revert s En. induction n as [n IH] using lt_wf_ind. intros s En F.
  destruct s as [|x s]; [exact F|].
  destruct (lo <=? run_len c (x :: s))%nat eqn:E.
  - apply Nat.leb_le in E. rewrite sub_run_hit by assumption.
    apply contains_other_app; auto.
    eapply IH; [|reflexivity|].
    + rewrite length_skipn. subst n. cbn [List.length]. lia.
    + rewrite <- (firstn_skipn (run_len c (x :: s)) (x :: s)) in F.
      now apply contains_free_app in F.
  - apply Nat.leb_gt in E.
    pose proof (run_len_other_sub (x :: s) D) as R.
    rewrite sub_run_keep in * by assumption.
    rewrite contains_run_cons in F |- *. rewrite R.
    apply orb_false_iff in F as [-> F]. cbn [orb].
    apply (IH (List.length s)); [subst n; cbn; lia|reflexivity|exact F].
Qed.

Lemma sub_run_snoc x :
  x <> c -> forall s, sub U p repl (s ++ [x]) = sub U p repl s ++ [x].
Proof.
  intros X s. remember (List.length s) as n eqn:En.
  revert s En. induction n as [n IH] using lt_wf_ind. intros s En.
  destruct s as [|y s].
  - cbn [app]. rewrite sub_run_keep, sub_run_nil; auto.
    cbn. apply N.eqb_neq in X. rewrite X. lia.
  - pose proof (@run_len_snoc c (y :: s) x X) as R.
    destruct (lo <=? run_len c (y :: s))%nat eqn:E.
    + apply Nat.leb_le in E.
      rewrite (sub_run_hit (y :: s)) by assumption.
      rewrite sub_run_hit by lia. rewrite R.
      rewrite skipn_app.
      pose proof (run_len_le c (y :: s)) as B.
      replace (run_len c (y :: s) - List.length (y :: s)) with 0 by lia.
      cbn [skipn]. rewrite <- app_assoc. f_equal.
      eapply IH; [|reflexivity]. rewrite length_skipn. subst n.
      cbn [List.length]. lia.
    + apply Nat.leb_gt in E. cbn [app] in *.
      rewrite sub_run_keep by lia. rewrite (@sub_run_keep y s) by lia.
      cbn [app]. f_equal.
      apply (IH (List.length s)); [subst n; cbn; lia|reflexivity].
Qed.

Lemma sub_run_starts_clean s :
  is_space c = true -> starts_clean s -> starts_clean (sub U p repl s).
Proof.
  intros C H. destruct s as [|x s]; [exact I|].
  cbn in H. rewrite sub_run_keep; [exact H|].
  cbn [run_len]. destruct (x =? c)%N eqn:E; [|lia].
  apply N.eqb_eq in E. congruence.
Qed.

Lemma sub_run_ends_clean s :
  is_space c = true -> ends_clean s -> ends_clean (sub U p repl s).
Proof.
  intros C H. destruct (rev s) as [|x r] eqn:E.
  - apply (f_equal (@rev N)) in E. rewrite rev_involutive in E. subst s.
    exact I.
  - apply (f_equal (@rev N)) in E. rewrite rev_involutive in E. cbn in E.
    subst s. unfold ends_clean in *. rewrite rev_app_distr in H. cbn in H.
    rewrite sub_run_snoc by congruence. rewrite rev_app_distr. exact H.
Qed.

(** A text without a run of [lo] has no occurrence of the pattern. *)
Lemma run_free_occurs : forall s prev,
  contains (repeat c lo) s = false -> occurs_from U p prev s = false.
Proof.
  induction s as [|x s IH]; intros prev F; cbn [occurs_from]; auto.
  rewrite contains_run_cons in F. apply orb_false_iff in F as [F1 F2].
  rewrite first_match_run, F1. auto.
Qed.

Lemma sub_run_fixed s :
  contains (repeat c lo) s = false -> sub U p repl s = s.
Proof.
  intros F. apply sub_clean. now apply run_free_occurs.
Qed.

(** The substitution is the collapse of the long runs. *)
Lemma sub_run_collapse : forall s,
  sub U p repl s = collapse_runs c lo keep s.
Proof.
  intros s. remember (List.length s) as n eqn:En.
  revert s En. induction n as [n IH] using lt_wf_ind. intros s En.
  destruct s as [|x s]; [reflexivity|].
  destruct (lo <=? run_len c (x :: s))%nat eqn:E.
  - apply Nat.leb_le in E. rewrite sub_run_hit by assumption.
    rewrite collapse_runs_hit by assumption. f_equal.
    eapply IH; [|reflexivity]. rewrite length_skipn. subst n.
    cbn [List.length]. lia.
  - apply Nat.leb_gt in E. rewrite sub_run_keep by assumption.
    rewrite collapse_runs_keep by assumption. f_equal.
    apply (IH (List.length s)); [subst n; cbn; lia|reflexivity].
Qed.

End RunPattern.

(** * Whitespace normalisation *)

(** Substring containment, spelled out. *)
Lemma starts_with_iff n h : starts_with n h = true <-> exists b, h = n ++ b.
Proof.
  revert h. induction n as [|x n IH]; intros h; cbn.
  - split; eauto.
  - destruct h as [|y h].
    + split; [discriminate|]. intros [b E]. discriminate.
    + rewrite andb_true_iff, IH, N.eqb_eq. split.
      * intros (-> & b & ->). eauto.
      * intros [b E]. inversion E; subst. eauto.
Qed.

Lemma contains_iff n h :
  contains n h = true <-> exists a b, h = a ++ n ++ b.
Proof.
  induction h as [|y h IH]; cbn [contains].
  - rewrite orb_false_r, starts_with_iff. split.
    + intros [b E]. exists [], b. exact E.
    + intros (a & b & E). destruct a; [eauto|discriminate].
  - rewrite orb_true_iff, starts_with_iff, IH. split.
    + intros [[b E]|(a & b & E)].
      * exists [], b. exact E.
      * exists (y :: a), b. cbn. congruence.
    + intros (a & b & E). destruct a as [|z a]; cbn in E.
      * left. eauto.
      * right. inversion E; subst. eauto.
Qed.

Lemma contains_free_iff n h :
  contains n h = false <-> forall a b, h <> a ++ n ++ b.
Proof.
  split.
  - intros F a b E.
    assert (T : contains n h = true) by (apply contains_iff; eauto).
    congruence.
  - intros H. destruct (contains n h) eqn:E; auto.
    apply contains_iff in E as (a & b & E). now apply H in E.
Qed.

Section Normalize.

Variable U : UnicodeData.

Let spaces_run := @first_match_double_spaces U.
Let newlines_run := @first_match_triple_newlines U.

Lemma sub_double_spaces_free t :
  contains (str "  ") (sub U double_spaces (str " ") t) = false.
Proof.
  apply (@sub_run_free U double_spaces 32%N 2 1); auto.
Qed.

Lemma normalize_whitespace_normal t :
  whitespace_normal (normalize_whitespace U t).
Proof.
  unfold normalize_whitespace.
  set (x := strip (sub U double_spaces (str " ") t)).
  assert (X1 : contains (str "  ") x = false)
    by apply strip_free, sub_double_spaces_free.
  assert (X2 : starts_clean x) by apply strip_starts_clean.
  assert (X3 : ends_clean x) by apply strip_ends_clean.
  repeat split.
  - apply (@sub_run_other U triple_newlines 10%N 3 2) with (d := 32%N) (k := 2);
      auto; try lia; discriminate.
  - apply (@sub_run_free U triple_newlines 10%N 3 2); auto.
  - apply strip_clean.
    + apply (@sub_run_starts_clean U triple_newlines 10%N 3 2); auto.
    + apply (@sub_run_ends_clean U triple_newlines 10%N 3 2); auto.
Qed.

Lemma normalize_whitespace_fixed t :
  whitespace_normal t -> normalize_whitespace U t = t.
Proof.
  intros (S & L & T). unfold normalize_whitespace.
  rewrite (@sub_run_fixed U double_spaces 32%N 2 1) by auto.
  rewrite T.
  apply (@sub_run_fixed U triple_newlines 10%N 3 2); auto.
Qed.

(** Step 3 of the function in terms of runs. *)
Lemma normalize_whitespace_collapses t :
  normalize_whitespace U t
  = collapse_runs newline 3 2 (strip (collapse_runs 32 2 1 t)).
Proof.
  unfold normalize_whitespace.
  rewrite <- (@sub_run_collapse U double_spaces 32%N 2 1) by auto.
  rewrite <- (@sub_run_collapse U triple_newlines 10%N 3 2) by auto.
  reflexivity.
Qed.

End Normalize.

(** * Clean text *)

Section CleanText.

Variable U : UnicodeData.

Lemma rule_triggers_clean rules d :
  Forall (fun rule => occurs U (pattern rule) d = false) rules ->
  rule_triggers U rules d = [] /\ after_rules U rules d = d.
Proof.
  induction 1 as [|rule rules H _ IH]; cbn; auto. now rewrite H.
Qed.

Lemma phrase_triggers_clean phrases lc t :
  Forall (fun e => contains (str (fst e)) lc = false) phrases ->
  phrase_triggers phrases lc = [] /\ after_phrases U phrases lc t = t.
Proof.
  unfold phrase_triggers.
  induction 1 as [|e phrases H _ IH]; cbn; auto. now rewrite H.
Qed.

Lemma apply_guardrails_clean d :
  clean_for_rules U d -> clean_for_phrases U d ->
  apply_guardrails U d = (normalize_whitespace U d, passing).
Proof.
  intros R P. rewrite apply_guardrails_eq. unfold triggers.
  destruct (rule_triggers_clean d R) as [-> ->].
  destruct (phrase_triggers_clean (lower U d) d P) as [-> ->].
  reflexivity.
Qed.

End CleanText.

(** * The audit record *)

Lemma table_ids_nodup : NoDup table_ids.
Proof.
  unfold table_ids. cbn.
  repeat (constructor; [cbn; intuition discriminate|]). constructor.
Qed.

Lemma flag_of_id t1 t2 :
  table_trigger t1 -> table_trigger t2 ->
  flag_of t1 = flag_of t2 -> trigger_id t1 = trigger_id t2.
Proof.
  destruct t1 as [r1 n1|p1], t2 as [r2 n2|p2]; cbn [table_trigger trigger_id].
  - intros [H1 _] [H2 _] E. cbn in H1, H2.
    repeat (destruct H1 as [H1|H1]; [|try contradiction]);
      repeat (destruct H2 as [H2|H2]; [|try contradiction]);
      subst; try reflexivity; cbn in E; discriminate E.
  - intros [H1 _] H2 E. cbn in H1, H2.
    repeat (destruct H1 as [H1|H1]; [|try contradiction]);
      repeat (destruct H2 as [H2|H2]; [|try contradiction]);
      subst; cbn in E; discriminate E.
  - intros H1 [H2 _] E. cbn in H1, H2.
    repeat (destruct H1 as [H1|H1]; [|try contradiction]);
      repeat (destruct H2 as [H2|H2]; [|try contradiction]);
      subst; cbn in E; discriminate E.
  - intros H1 H2 E. cbn in H1, H2.
    repeat (destruct H1 as [H1|H1]; [|try contradiction]);
      repeat (destruct H2 as [H2|H2]; [|try contradiction]);
      subst; try reflexivity; cbn in E; discriminate E.
Qed.

Lemma nodup_map_by (A B C : Type) (f : A -> B) (g : A -> C) (l : list A) :
  (forall x y, In x l -> In y l -> f x = f y -> g x = g y) ->
  NoDup (map g l) -> NoDup (map f l).
Proof.
  induction l as [|x l IH]; cbn; intros Inj N; [constructor|].
  inversion N as [|? ? Hx Hl]; subst. constructor.
  - intros Hin. apply in_map_iff in Hin as (y & E & Hy). apply Hx.
    apply in_map_iff. exists y. split; [|exact Hy].
    apply Inj; auto.
  - apply IH; auto.
Qed.

Section Audit.

Variable U : UnicodeData.

Lemma findall_occurs p t :
  occurs U p t = true -> 1 <= List.length (findall U p t).
Proof.
  intros H. destruct (findall U p t) eqn:E; cbn; [|lia].
  apply findall_nil_iff in E. congruence.
Qed.

Lemma rule_triggers_table rules : forall t,
  incl rules _RULES ->
  Forall table_trigger (rule_triggers U rules t).
Proof.
  induction rules as [|rule rules IH]; intros t I; cbn [rule_triggers].
  - constructor.
  - assert (I' : incl rules _RULES) by (intros x Hx; apply I; now right).
    destruct (occurs U (pattern rule) t) eqn:E; auto.
    constructor; auto. split; [apply I; now left|now apply findall_occurs].
Qed.

Lemma rule_triggers_ids rules : forall t,
  NoDup (map name rules) ->
  NoDup (map trigger_id (rule_triggers U rules t))
  /\ incl (map trigger_id (rule_triggers U rules t)) (map name rules).
Proof.
  induction rules as [|rule rules IH]; intros t N; cbn [rule_triggers map].
  - split; [constructor|easy].
  - inversion N as [|? ? Hx Hl]; subst.
    destruct (occurs U (pattern rule) t).
    + destruct (IH (sub U (pattern rule) (replacement rule) t) Hl) as [N' I'].
      cbn [map trigger_id]. split.
      * constructor; auto.
      * intros x [<-|Hx']; [now left|right; auto].
    + destruct (IH t Hl) as [N' I']. split; auto.
      intros x Hx'. right. auto.
Qed.

Lemma phrase_triggers_table phrases lc :
  incl (map fst phrases) (map fst _BLOCKED_PHRASES) ->
  Forall table_trigger (phrase_triggers phrases lc).
Proof.
  unfold phrase_triggers.
  induction phrases as [|e phrases IH]; intros I; cbn [flat_map].
  - constructor.
  - assert (I' : incl (map fst phrases) (map fst _BLOCKED_PHRASES))
      by (intros x Hx; apply I; now right).
    destruct (contains (str (fst e)) lc); cbn [app]; auto.
    constructor; auto. cbn. apply I. now left.
Qed.

Lemma phrase_triggers_ids phrases lc :
  NoDup (map fst phrases) ->
  NoDup (map trigger_id (phrase_triggers phrases lc))
  /\ incl (map trigger_id (phrase_triggers phrases lc)) (map fst phrases).
Proof.
  unfold phrase_triggers.
  induction phrases as [|e phrases IH]; intros N; cbn [flat_map map].
  - split; [constructor|easy].
  - inversion N as [|? ? Hx Hl]; subst. destruct (IH Hl) as [N' I'].
    destruct (contains (str (fst e)) lc); cbn [app map trigger_id].
    + split.
      * constructor; auto.
      * intros x [<-|Hx']; [now left|right; auto].
    + split; auto. intros x Hx'. right. auto.
Qed.

Lemma triggers_table d : Forall table_trigger (triggers U d).
Proof.
  unfold triggers. apply Forall_app. split.
  - apply rule_triggers_table, incl_refl.
  - apply phrase_triggers_table, incl_refl.
Qed.

Lemma triggers_ids_nodup d : NoDup (map trigger_id (triggers U d)).
Proof.
  pose proof table_ids_nodup as N. unfold table_ids in N.
  pose proof (NoDup_app_remove_r _ _ N) as N1.
  pose proof (NoDup_app_remove_l _ _ N) as N2.
  unfold triggers. rewrite map_app.
  destruct (rule_triggers_ids _RULES d N1) as [A1 A2].
  destruct (phrase_triggers_ids _BLOCKED_PHRASES
              (lower U (after_rules U _RULES d)) N2) as [B1 B2].
  apply NoDup_app; auto.
  intros x Hx Hy. apply A2 in Hx. apply B2 in Hy. revert Hx Hy. clear.
  cbn. intuition (subst; discriminate).
Qed.

Lemma triggers_flags_nodup d : NoDup (map flag_of (triggers U d)).
Proof.
  apply nodup_map_by with (g := trigger_id).
  - intros x y Hx Hy. pose proof (triggers_table d) as T.
    rewrite Forall_forall in T. apply flag_of_id; auto.
  - apply triggers_ids_nodup.
Qed.

Lemma rule_triggers_length rules : forall t,
  List.length (rule_triggers U rules t) <= List.length rules.
Proof.
  induction rules as [|rule rules IH]; intros t; cbn [rule_triggers]; auto.
  destruct (occurs U (pattern rule) t); cbn [List.length].
  - specialize (IH (sub U (pattern rule) (replacement rule) t)). lia.
  - specialize (IH t). lia.
Qed.

Lemma phrase_triggers_length phrases lc :
  List.length (phrase_triggers phrases lc) <= List.length phrases.
Proof.
  unfold phrase_triggers.
  induction phrases as [|e phrases IH]; cbn [flat_map]; auto.
  destruct (contains (str (fst e)) lc); cbn [app List.length]; lia.
Qed.

End Audit.

(** * What a substitution leaves behind *)

Section Context.

Variable U : UnicodeData.
Variable ic : bool.

Lemma last_of_app prev w1 w2 :
  last_of (last_of prev w1) w2 = last_of prev (w1 ++ w2).
Proof.
  unfold last_of. rewrite rev_app_distr.
  destruct (rev w2) as [|x r]; cbn; auto.
Qed.

Lemma is_word_last_of prev prev' w :
  is_word_opt U prev = is_word_opt U prev' ->
  is_word_opt U (last_of prev w) = is_word_opt U (last_of prev' w).
Proof.
  unfold last_of. destruct (rev w); auto.
Qed.

Lemma hd_error_app_same (w r r' : text) :
  is_word_opt U (hd_error r) = is_word_opt U (hd_error r') ->
  is_word_opt U (hd_error (w ++ r)) = is_word_opt U (hd_error (w ++ r')).
Proof.
  destruct w; auto.
Qed.

(** Whether [r] matches [w] at a position depends on the surroundings only
    through [\b], that is, through whether the neighbours are word
    characters. *)
Lemma exec_context r : forall prev prev' w rest rest',
  wordb_free r = true
  \/ (is_word_opt U prev = is_word_opt U prev'
      /\ is_word_opt U (hd_error rest) = is_word_opt U (hd_error rest')) ->
  In (w, rest) (exec U ic r prev (w ++ rest)) ->
  In (w, rest') (exec U ic r prev' (w ++ rest')).
Proof.
  induction r; intros prev prev' w rest rest' C H; cbn [exec wordb_free] in *.
  - destruct w as [|c w]; cbn [app] in *.
    + destruct rest as [|c s]; [contradiction|].
      destruct (atom_match U ic a c); [|contradiction].
      destruct H as [E|[]]. inversion E.
    + destruct (atom_match U ic a c); [|contradiction].
      destruct H as [E|[]]. inversion E; subst.
      cbn. now left.
  - destruct C as [C|[C1 C2]]; [discriminate|].
    destruct (word_boundary U prev (hd_error (w ++ rest))) eqn:B;
      [|contradiction].
    destruct H as [E|[]]. inversion E as [[E1 E2]]. subst w.
    cbn [app] in *. unfold word_boundary in *. rewrite <- C1, <- C2, B.
    now left.
  - destruct H as [E|[]]. inversion E as [[E1 E2]]. subst w.
    now left.
  - apply in_flat_map in H as ([w1 s1] & H1 & H2).
    apply in_map_iff in H2 as ([w2 s2] & E & H2). cbn [fst snd] in *.
    inversion E; subst. clear E.
    pose proof (@exec_split _ _ _ _ _ _ _ H1) as S1.
    pose proof (@exec_split _ _ _ _ _ _ _ H2) as S2. subst s1.
    rewrite <- app_assoc in *.
    apply in_flat_map. exists (w1, w2 ++ rest'). split.
    + apply IHr1 with (prev := prev) (rest := w2 ++ rest); auto.
      destruct C as [C|[C1 C2]].
      * left. now apply andb_true_iff in C.
      * right. split; auto. now apply hd_error_app_same.
    + apply in_map_iff. exists (w2, rest'). split; auto. cbn [fst snd].
      apply IHr2 with (prev := last_of prev w1) (rest := rest); auto.
      destruct C as [C|[C1 C2]].
      * left. now apply andb_true_iff in C.
      * right. split; auto. now apply is_word_last_of.
  - apply in_app_iff in H as [H|H]; apply in_app_iff.
    + left. apply IHr1 with (prev := prev) (rest := rest); auto.
      destruct C as [C|C]; [left|right]; auto. now apply andb_true_iff in C.
    + right. apply IHr2 with (prev := prev) (rest := rest); auto.
      destruct C as [C|C]; [left|right]; auto. now apply andb_true_iff in C.
  - apply in_app_iff in H as [H|[E|[]]]; apply in_app_iff.
    + left. apply IHr with (prev := prev) (rest := rest); auto.
    + right. inversion E as [[E1 E2]]. subst w.
      now left.
  - apply rep_exec_in in H as (_ & F & L & M). apply rep_exec_in. auto.
Qed.

(** A match holds no character that every item rejects. *)
Lemma exec_rejects r c : forall prev s w s',
  atoms_reject U ic r c = true ->
  In (w, s') (exec U ic r prev s) -> ~ In c w.
Proof.
  induction r; intros prev s w s' R H; cbn [exec atoms_reject] in *.
  - destruct s as [|x s]; [contradiction|].
    destruct (atom_match U ic a x) eqn:A; [|contradiction].
    destruct H as [E|[]]. inversion E; subst.
    intros [->|[]]. rewrite A in R. discriminate.
  - destruct (word_boundary U prev (hd_error s)); [|contradiction].
    destruct H as [E|[]]. inversion E. auto.
  - destruct H as [E|[]]. inversion E. auto.
  - apply andb_true_iff in R as [R1 R2].
    apply in_flat_map in H as ([w1 s1] & H1 & H2).
    apply in_map_iff in H2 as ([w2 s2] & E & H2). cbn [fst snd] in *.
    inversion E; subst. intros Hin. apply in_app_iff in Hin as [Hin|Hin].
    + eapply IHr1; eauto.
    + eapply IHr2; eauto.
  - apply andb_true_iff in R as [R1 R2].
    apply in_app_iff in H as [H|H]; eauto.
  - apply in_app_iff in H as [H|[E|[]]]; eauto. inversion E. auto.
  - apply rep_exec_in in H as (_ & F & _). intros Hin.
    rewrite forallb_forall in F. apply F in Hin.
    rewrite Hin in R. discriminate.
Qed.

(** A match of an expression ending in [\b] ends at a word boundary. *)
Lemma exec_ends_wordb r : forall prev s w s',
  ends_wordb r = true ->
  In (w, s') (exec U ic r prev s) ->
  word_boundary U (last_of prev w) (hd_error s') = true.
Proof.
  induction r; intros prev s w s' E H; cbn [exec ends_wordb] in *;
    try discriminate.
  - destruct (word_boundary U prev (hd_error s)) eqn:B; [|contradiction].
    destruct H as [E'|[]]. inversion E'; subst. exact B.
  - apply in_flat_map in H as ([w1 s1] & H1 & H2).
    apply in_map_iff in H2 as ([w2 s2] & E' & H2). cbn [fst snd] in *.
    inversion E'; subst. rewrite <- last_of_app. eapply IHr2; eauto.
Qed.

(** A match of an expression of the shape [\b ... \b] starts and ends at a
    word boundary. *)
Lemma exec_anchored r prev s w s' :
  anchored r = true ->
  In (w, s') (exec U ic r prev s) ->
  word_boundary U prev (hd_error s) = true
  /\ word_boundary U (last_of prev w) (hd_error s') = true.
Proof.
  destruct r; try discriminate. destruct r1; try discriminate.
  cbn [anchored exec]. intros E H.
  destruct (word_boundary U prev (hd_error s)) eqn:B; [|contradiction].
  cbn [flat_map fst snd last_of rev app] in H. rewrite app_nil_r in H.
  apply in_map_iff in H as ([w2 s2] & E' & H). cbn [fst snd] in *.
  inversion E'; subst. split; auto. eapply exec_ends_wordb; eauto.
Qed.

End Context.

Lemma prefix_before (c : N) : forall (w a t r : text),
  ~ In c w -> a ++ c :: t = w ++ r ->
  exists z, a = w ++ z /\ r = z ++ c :: t.
Proof.
  induction w as [|x w IH]; intros a t r N E.
  - exists a. auto.
  - destruct a as [|y a]; cbn in E; inversion E; subst.
    + exfalso. apply N. now left.
    + destruct (IH a t r) as (z & -> & ->); auto.
      * intros Hin. apply N. now right.
      * exists z. auto.
Qed.

Lemma last_of_nonempty prev prev' (w : text) :
  w <> [] -> last_of prev w = last_of prev' w.
Proof.
  unfold last_of. intros H. destruct (rev w) eqn:E; auto.
  apply (f_equal (@rev N)) in E. rewrite rev_involutive in E. contradiction.
Qed.

Section Leftover.

Variable U : UnicodeData.
Variable p : Pattern.
Variable body : text.

Let repl : text := open_paren :: body ++ [close_paren].

Hypothesis nonempty : 1 <= min_len (re p).
Hypothesis no_open :
  atoms_reject U (ignorecase p) (re p) open_paren = true.
Hypothesis no_close :
  atoms_reject U (ignorecase p) (re p) close_paren = true.
Hypothesis shape : wordb_free (re p) = true \/ anchored (re p) = true.
Hypothesis repl_clean : occurs U p repl = false.

Let run := exec U (ignorecase p) (re p).

Lemma run_nonempty prev s w r : In (w, r) (run prev s) -> w <> [].
Proof.
  intros H. apply exec_min_len in H. destruct w; [cbn in H; lia|discriminate].
Qed.

Lemma occurs_from_skip q c t :
  run q (c :: t) = [] ->
  occurs_from U p q (c :: t) = occurs_from U p (Some c) t.
Proof.
  intros H. cbn [occurs_from]. unfold first_match. fold run.
  unfold run in *. now rewrite H.
Qed.

Lemma occurs_from_cons q c t :
  occurs_from U p q (c :: t) = false ->
  run q (c :: t) = [] /\ occurs_from U p (Some c) t = false.
Proof.
  cbn [occurs_from]. intros H. split.
  - apply first_match_none; auto.
    destruct (first_match U p q (c :: t)) as [[|x w]|]; auto. discriminate.
  - destruct (first_match U p q (c :: t)) as [[|x w]|]; auto. discriminate.
Qed.

Lemma starts_rejected q c t :
  atoms_reject U (ignorecase p) (re p) c = true -> run q (c :: t) = [].
Proof.
  intros R. destruct (run q (c :: t)) as [|[w r] l] eqn:E; auto. exfalso.
  assert (Hin : In (w, r) (run q (c :: t))) by (rewrite E; now left).
  pose proof (@run_nonempty _ _ _ _ Hin) as Hw.
  pose proof (@exec_split _ _ _ _ _ _ _ Hin) as S.
  apply (@exec_rejects _ _ _ _ _ _ _ _ R Hin).
  destruct w as [|x w]; [contradiction|]. inversion S. now left.
Qed.

Lemma scan_cons prev c s :
  (run prev (c :: s) = []
   /\ scan U p 0 prev (c :: s) = Keep c :: scan U p 0 (Some c) s)
  \/ (exists m rest,
         m <> [] /\ c :: s = m ++ rest /\ In (m, rest) (run prev (c :: s))
         /\ scan U p 0 prev (c :: s)
            = Hit m :: scan U p 0 (last_of prev m) rest).
Proof.
  cbn [scan]. destruct (first_match U p prev (c :: s)) as [[|x w]|] eqn:F.
  - left. split; auto. apply first_match_none; auto. now rewrite F.
  - right. apply first_match_in in F as (rest & Hin & S).
    exists (x :: w), rest. split; [discriminate|]. split; auto. split; auto.
    cbn in S. inversion S; subst. f_equal.
    rewrite scan_skip by (rewrite length_app; lia).
    rewrite firstn_app, Nat.sub_diag, firstn_all, skipn_app, Nat.sub_diag,
            skipn_all. cbn [firstn skipn app]. rewrite app_nil_r.
    now rewrite last_of_cons.
  - left. split; auto. apply first_match_none; auto. now rewrite F.
Qed.

(** A stretch of the new text without parenthesis is a stretch of kept
    characters of the old one. *)
Lemma keep_prefix : forall w s q rest',
  ~ In open_paren w ->
  render repl (scan U p 0 q s) = w ++ rest' ->
  exists rest,
    s = w ++ rest /\ rest' = render repl (scan U p 0 (last_of q w) rest).
Proof.
  induction w as [|x w IH]; intros s q rest' N E.
  - exists s. auto.
  - destruct s as [|c s]; [discriminate|].
    destruct (scan_cons q c s) as [[_ Sc]|(m & rest & _ & _ & _ & Sc)];
      rewrite Sc in E; cbn in E; inversion E; subst.
    + destruct (IH s (Some x) rest') as (rest & -> & ->); auto.
      * intros Hin. apply N. now right.
      * exists rest. split; auto. now rewrite last_of_cons.
    + exfalso. apply N. now left.
Qed.

Lemma hd_render q rest :
  hd_error (render repl (scan U p 0 q rest)) = hd_error rest
  \/ (hd_error (render repl (scan U p 0 q rest)) = Some open_paren
      /\ exists m r, m <> [] /\ rest = m ++ r /\ In (m, r) (run q rest)).
Proof.
  destruct rest as [|c s]; [now left|].
  destruct (scan_cons q c s) as [[_ Sc]|(m & r & Hm & S & Hin & Sc)];
    rewrite Sc.
  - now left.
  - right. split; [reflexivity|]. eauto.
Qed.

Lemma kept_position_clean prev prev' s :
  run prev s = [] -> ctx_ok U p prev prev' s ->
  run prev' (render repl (scan U p 0 prev s)) = [].
Proof.
  intros Hs C.
  destruct (run prev' (render repl (scan U p 0 prev s))) as [|[w r'] l] eqn:E;
    auto.
  exfalso.
  assert (Hin : In (w, r') (run prev' (render repl (scan U p 0 prev s))))
    by (rewrite E; now left).
  clear E l.
  pose proof (@run_nonempty _ _ _ _ Hin) as Hw.
  pose proof (@exec_split _ _ _ _ _ _ _ Hin) as S.
  pose proof (@exec_rejects _ _ _ _ _ _ _ _ no_open Hin) as N.
  destruct (@keep_prefix _ _ _ _ N S) as (rest & Es & Er).
  assert (Hin' : In (w, rest) (run prev (w ++ rest))).
  { rewrite S in Hin. unfold run in *.
    apply exec_context with (prev := prev') (rest := r'); auto.
    destruct C as [C|C]; [now left|].
    destruct shape as [F|A]; [now left|]. right.
    rewrite <- S in Hin.
    destruct (@exec_anchored _ _ _ _ _ _ _ A Hin) as [B1 B2].
    rewrite S in B1.
    assert (Hh : hd_error (w ++ r') = hd_error s).
    { rewrite Es. destruct w; [contradiction|reflexivity]. }
    rewrite Hh in B1. split.
    - destruct C as [C|[C1 C2]]; [now symmetry|].
      unfold word_boundary in *. rewrite C1 in *.
      destruct (is_word_opt U prev), (is_word_opt U (hd_error s));
        cbn in *; congruence.
    - rewrite (@last_of_nonempty prev' prev _ Hw) in B2.
      destruct (hd_render (last_of prev w) rest)
        as [Hd|[Hd (m & r & Hm & Em & Hm')]]; rewrite <- Er in Hd.
      + now rewrite Hd.
      + unfold run in Hm'.
        destruct (@exec_anchored _ _ _ _ _ _ _ A Hm') as [B3 _].
        rewrite Hd in *. unfold word_boundary in *.
        change (is_word_opt U (Some open_paren)) with false in *.
        destruct (is_word_opt U (last_of prev w)),
                 (is_word_opt U (hd_error rest)); cbn in *; congruence. }
  rewrite <- Es in Hin'. rewrite Hs in Hin'. contradiction.
Qed.

Lemma repl_tail_clean : forall a q t,
  occurs_from U p q (a ++ [close_paren]) = false ->
  occurs_from U p (Some close_paren) t = false ->
  occurs_from U p q (a ++ close_paren :: t) = false.
Proof.
  induction a as [|x a IH]; intros q t H Ht; cbn [app] in *.
  - rewrite occurs_from_skip; auto. now apply starts_rejected.
  - apply occurs_from_cons in H as [H0 H1].
    rewrite occurs_from_skip; [now apply IH|].
    destruct (run q (x :: a ++ close_paren :: t)) as [|[w r'] l] eqn:E; auto.
    exfalso.
    assert (Hin : In (w, r') (run q (x :: a ++ close_paren :: t)))
      by (rewrite E; now left).
    clear E l.
    pose proof (@exec_split _ _ _ _ _ _ _ Hin) as S.
    pose proof (@exec_rejects _ _ _ _ _ _ _ _ no_close Hin) as N.
    destruct (@prefix_before _ _ (x :: a) t r' N S) as (z & Ea & ->).
    assert (Hin' : In (w, z ++ [close_paren])
                      (run q (w ++ z ++ [close_paren]))).
    { rewrite S in Hin. unfold run in *.
      apply exec_context with (prev := q) (rest := z ++ close_paren :: t);
        auto.
      right. split; auto. destruct z; reflexivity. }
    rewrite app_assoc, <- Ea in Hin'. cbn [app] in Hin'.
    rewrite H0 in Hin'. contradiction.
Qed.

Lemma render_keep_cons c ps :
  render repl (Keep c :: ps) = c :: render repl ps.
Proof. reflexivity. Qed.

Lemma render_hit_cons m ps :
  render repl (Hit m :: ps)
  = open_paren :: body ++ close_paren :: render repl ps.
Proof.
  unfold render, repl. cbn [flat_map app]. now rewrite <- app_assoc.
Qed.

Lemma sub_leaves_nothing : forall n s prev prev',
  List.length s <= n -> ctx_ok U p prev prev' s ->
  occurs_from U p prev' (render repl (scan U p 0 prev s)) = false.
Proof.
  induction n as [|n IH]; intros s prev prev' L C.
  - destruct s; [reflexivity|cbn in L; lia].
  - destruct s as [|c s]; [reflexivity|]. cbn [List.length] in L.
    pose proof (@kept_position_clean prev prev' (c :: s)) as K.
    destruct (scan_cons prev c s) as [[H0 Sc]|(m & rest & Hm & S & Hin & Sc)];
      rewrite Sc in *.
    + rewrite render_keep_cons in *.
      rewrite occurs_from_skip by auto.
      apply IH; [lia|]. right. now left.
    + rewrite render_hit_cons in *.
      rewrite occurs_from_skip by now apply starts_rejected.
      apply repl_tail_clean.
      * unfold occurs, repl in repl_clean. cbn [app] in repl_clean.
        now apply occurs_from_cons in repl_clean.
      * apply IH.
        -- apply (f_equal (@List.length N)) in S.
           rewrite length_app in S. cbn [List.length] in S.
           destruct m; [contradiction|]. cbn [List.length] in S. lia.
        -- destruct shape as [F|A]; [now left|]. right. right.
           split; [reflexivity|].
           unfold run in Hin.
           now destruct (@exec_anchored _ _ _ _ _ _ _ A Hin).
Qed.

(** After the substitution the pattern has no occurrence left. *)
Lemma sub_no_occurrence t : occurs U p (sub U p repl t) = false.
Proof.
  unfold occurs, sub. apply sub_leaves_nothing with (n := List.length t); auto.
  right. now left.
Qed.

End Leftover.

(** The pattern rules of the table meet the conditions of
    [sub_no_occurrence]: each replacement is a parenthesised text without
    occurrence of its own rule, no pattern can read a parenthesis or match the
    empty string, and each pattern is free of [\b] or of the shape
    [\b ... \b]. *)
Lemma rules_leftover_conditions (U : UnicodeData) rule :
  In rule _RULES ->
  1 <= min_len (re (pattern rule))
  /\ atoms_reject U (ignorecase (pattern rule)) (re (pattern rule))
       open_paren = true
  /\ atoms_reject U (ignorecase (pattern rule)) (re (pattern rule))
       close_paren = true
  /\ (wordb_free (re (pattern rule)) = true
      \/ anchored (re (pattern rule)) = true)
  /\ replacement rule
     = open_paren :: removelast (tl (replacement rule)) ++ [close_paren]
  /\ occurs U (pattern rule) (replacement rule) = false.
Proof.
  intros H. cbn [In _RULES] in H.
  repeat (destruct H as [<-|H]; [|try contradiction]).
  all: split; [cbn; lia|].
  all: split; [vm_compute; reflexivity|].
  all: split; [vm_compute; reflexivity|].
  all: split; [first [left; vm_compute; reflexivity
                     |right; vm_compute; reflexivity]|].
  all: split; vm_compute; reflexivity.
Qed.

Lemma rule_sub_no_occurrence (U : UnicodeData) rule t :
  In rule _RULES ->
  occurs U (pattern rule) (sub U (pattern rule) (replacement rule) t) = false.
Proof.
  intros H.
  destruct (@rules_leftover_conditions U rule H) as (L & O & C & S & E & R).
  rewrite E in R |- *. now apply sub_no_occurrence.
Qed.

(** * The call and its effects *)

(** ** What the tables decide *)

Lemma same_tables_refl s : same_tables s s.
Proof. now split. Qed.

Lemma same_tables_sym s1 s2 : same_tables s1 s2 -> same_tables s2 s1.
Proof. intros [A B]. now split. Qed.

Lemma same_tables_trans s1 s2 s3 :
  same_tables s1 s2 -> same_tables s2 s3 -> same_tables s1 s3.
Proof. intros [A B] [C D]. split; congruence. Qed.

Lemma ret_decided (A : Type) (a : A) : decided_by_tables (guardrails.ret a).
Proof. intros s1 s2 H. split; [reflexivity|apply same_tables_refl]. Qed.

Lemma pure_call_decided (A : Type) (m : outcome A) :
  decided_by_tables (guardrails.pure_call m).
Proof. intros s1 s2 H. split; [reflexivity|apply same_tables_refl]. Qed.

Lemma global_rules_decided : decided_by_tables (guardrails.global guardrails.g_RULES).
Proof.
  intros s1 s2 [A B]. cbn. split; [now rewrite A|apply same_tables_refl].
Qed.

Lemma global_phrases_decided :
  decided_by_tables (guardrails.global guardrails.g_BLOCKED_PHRASES).
Proof.
  intros s1 s2 [A B]. cbn. split; [now rewrite B|apply same_tables_refl].
Qed.

Lemma logger_call_decided r : decided_by_tables (guardrails.logger_call r).
Proof. intros s1 s2 H. split; [reflexivity|now split]. Qed.

(** Statements the tables decide compose. *)
Lemma and_then_decided (A B : Type) (m : guardrails.action A)
    (k : A -> guardrails.action B) :
  decided_by_tables m -> (forall a, decided_by_tables (k a)) ->
  decided_by_tables (guardrails.and_then m k).
Proof.
  intros Hm Hk s1 s2 H.
  destruct (Hm s1 s2 H) as [E T1].
  destruct (Hm s2 s1 (same_tables_sym H)) as [_ T2].
  unfold guardrails.and_then.
  destruct (m s1) as [s1' o1], (m s2) as [s2' o2]. cbn [fst snd] in *.
  subst o2. destruct o1 as [a|e].
  - assert (H' : same_tables s1' s2').
    { eapply same_tables_trans; [exact T1|].
      eapply same_tables_trans; [exact H|]. now apply same_tables_sym. }
    destruct (Hk a s1' s2' H') as [E' T']. split; [exact E'|].
    eapply same_tables_trans; eauto.
  - cbn. split; [reflexivity|exact T1].
Qed.

Lemma for_each_decided (A : Type)
    (body : guardrails.variables -> A -> guardrails.action guardrails.variables)
    (items : list A) :
  (forall v x, decided_by_tables (body v x)) ->
  forall v, decided_by_tables (guardrails.for_each body items v).
Proof.
  intros Hb. induction items as [|x rest IH]; intros v; cbn [guardrails.for_each].
  - apply ret_decided.
  - apply and_then_decided; [apply Hb|exact IH].
Qed.

Lemma rule_body_decided U T v rule :
  decided_by_tables (guardrails.rule_body U T v rule).
Proof.
  unfold guardrails.rule_body.
  destruct (findall U (pattern rule) (guardrails.v_cleaned v));
    [apply ret_decided|].
  apply and_then_decided; [apply pure_call_decided|]. intros cleaned.
  apply and_then_decided; [apply logger_call_decided|]. intros _.
  apply ret_decided.
Qed.

Lemma phrase_body_decided U T lower_cleaned v entry :
  decided_by_tables (guardrails.phrase_body U T lower_cleaned v entry).
Proof.
  destruct entry as [phrase repl]. unfold guardrails.phrase_body.
  destruct (contains (str phrase) lower_cleaned); [|apply ret_decided].
  apply and_then_decided; [apply pure_call_decided|]. intros cleaned.
  apply and_then_decided; [apply logger_call_decided|]. intros _.
  apply ret_decided.
Qed.

Lemma call_decided U T d :
  decided_by_tables (guardrails.apply_guardrails U T d).
Proof.
  unfold guardrails.apply_guardrails.
  apply and_then_decided; [apply global_rules_decided|]. intros rules.
  apply and_then_decided;
    [apply for_each_decided; intros; apply rule_body_decided|]. intros v.
  apply and_then_decided; [apply global_phrases_decided|]. intros phrases.
  apply and_then_decided;
    [apply for_each_decided; intros; apply phrase_body_decided|]. intros v'.
  apply and_then_decided; [apply pure_call_decided|]. intros spaced.
  apply and_then_decided; [apply pure_call_decided|]. intros cleaned.
  apply and_then_decided; [apply logger_call_decided|]. intros _.
  apply ret_decided.
Qed.

(** ** The call against the function *)

Lemma re_sub_plain U T p repl t :
  plain repl -> guardrails.re_sub U T p repl t = Returned (sub U p repl t).
Proof. unfold plain, guardrails.re_sub. now intros ->. Qed.

Section Adequacy.

Variable U : UnicodeData.
Variable T : text -> outcome (text -> text).

(** With replacements that hold no backslash, the loop over the rules goes
    through, step by step as [rule_step] does, and the logger is handed the
    records the locals keep. *)
Lemma rule_loop_runs (s : guardrails.state) (journal : list log_record) :
  forall rules,
    Forall (fun rule => plain (replacement rule)) rules ->
    forall st,
      guardrails.for_each (guardrails.rule_body U T) rules (variables_of st)
        (with_journal s (journal ++ l_log st))
      = (with_journal s (journal ++ l_log (fold_left (rule_step U) rules st)),
         Returned (variables_of (fold_left (rule_step U) rules st))).
Proof.
  induction rules as [|rule rules IH]; intros P st; [reflexivity|].
  inversion P as [|? ? Pr Prs]; subst.
  cbn [guardrails.for_each fold_left].
  unfold guardrails.and_then at 1. unfold guardrails.rule_body.
  cbn [guardrails.v_cleaned variables_of].
  destruct (findall U (pattern rule) (l_cleaned st)) as [|m ms] eqn:E.
  - assert (R : rule_step U st rule = st)
      by (unfold rule_step; now rewrite E).
    rewrite R. cbn. now apply IH.
  - assert (R : rule_step U st rule
                = {| l_flags :=
                       l_flags st
                       ++ [(name rule ++ ": matched "
                            ++ decimal (List.length (m :: ms))
                            ++ " occurrence(s)")%string];
                     l_modifications :=
                       l_modifications st
                       ++ [("Replaced " ++ name rule
                            ++ " matches with safe alternative.")%string];
                     l_cleaned :=
                       sub U (pattern rule) (replacement rule) (l_cleaned st);
                     l_log :=
                       l_log st
                       ++ [LogTriggered (name rule) (List.length (m :: ms))] |})
      by (unfold rule_step; now rewrite E).
    rewrite R.
    unfold guardrails.and_then, guardrails.pure_call, guardrails.logger_call,
      guardrails.ret.
    rewrite re_sub_plain by assumption.
    cbn [with_journal guardrails.g_RULES guardrails.g_BLOCKED_PHRASES
         guardrails.handled].
    rewrite <- app_assoc.
    exact (IH Prs
             {| l_flags := _; l_modifications := _; l_cleaned := _;
                l_log := l_log st ++ [LogTriggered (name rule)
                                        (List.length (m :: ms))] |}).
Qed.

Lemma phrase_loop_runs (s : guardrails.state) (journal : list log_record)
    (lower_cleaned : text) :
  forall phrases,
    Forall (fun e : string * string => plain (str (snd e))) phrases ->
    forall st,
      guardrails.for_each (guardrails.phrase_body U T lower_cleaned) phrases
        (variables_of st) (with_journal s (journal ++ l_log st))
      = (with_journal s
           (journal
            ++ l_log (fold_left (phrase_step U lower_cleaned) phrases st)),
         Returned
           (variables_of (fold_left (phrase_step U lower_cleaned) phrases st))).
Proof.
  induction phrases as [|[phrase repl] phrases IH]; intros P st;
    [reflexivity|].
  inversion P as [|? ? Pr Prs]; subst. cbn [snd] in Pr.
  cbn [guardrails.for_each fold_left].
  unfold guardrails.and_then at 1. unfold guardrails.phrase_body.
  cbn [phrase_step].
  destruct (contains (str phrase) lower_cleaned) eqn:E.
  - unfold guardrails.and_then, guardrails.pure_call, guardrails.logger_call,
      guardrails.ret.
    cbn [variables_of guardrails.v_cleaned guardrails.v_flags
         guardrails.v_modifications].
    rewrite re_sub_plain by assumption.
    cbn [with_journal guardrails.g_RULES guardrails.g_BLOCKED_PHRASES
         guardrails.handled].
    rewrite <- app_assoc.
    exact (IH Prs
             {| l_flags := _; l_modifications := _; l_cleaned := _;
                l_log := l_log st ++ [LogPhraseRemoved phrase] |}).
  - cbn. now apply IH.
Qed.

(** In the state the import leaves, a call returns what the function
    computes and hands the logger the records of [emitted_log]. *)
Lemma call_runs (journal : list log_record) (d : text) :
  guardrails.apply_guardrails U T d (guardrails.imported journal)
  = (guardrails.imported (journal ++ emitted_log U d),
     Returned (apply_guardrails U d)).
Proof.
  destruct replacements_are_plain as [PR PP].
  pose (st0 := {| l_flags := []; l_modifications := [];
                  l_cleaned := d; l_log := [] |}).
  pose proof (@rule_loop_runs (guardrails.imported journal) journal
                _RULES PR st0) as L1.
  set (st1 := fold_left (rule_step U) _RULES st0) in *.
  pose proof (@phrase_loop_runs (guardrails.imported journal) journal
                (lower U (l_cleaned st1)) _BLOCKED_PHRASES PP st1) as L2.
  set (st2 := fold_left (phrase_step U (lower U (l_cleaned st1)))
                _BLOCKED_PHRASES st1) in *.
  cbn [l_log st0] in L1. rewrite app_nil_r in L1.
  unfold guardrails.apply_guardrails.
  unfold guardrails.and_then at 1. unfold guardrails.global at 1.
  unfold guardrails.and_then at 1.
  match goal with
  | |- (let (s', o) := ?m in _) = _ =>
      change m
        with (guardrails.for_each (guardrails.rule_body U T) _RULES
                (variables_of st0)
                (with_journal (guardrails.imported journal) journal))
  end.
  rewrite L1.
  unfold guardrails.and_then at 1. unfold guardrails.global at 1.
  unfold guardrails.and_then at 1.
  match goal with
  | |- (let (s', o) := ?m in _) = _ =>
      change m
        with (guardrails.for_each
                (guardrails.phrase_body U T (lower U (l_cleaned st1)))
                _BLOCKED_PHRASES (variables_of st1)
                (with_journal (guardrails.imported journal)
                   (journal ++ l_log st1)))
  end.
  rewrite L2.
  unfold guardrails.and_then, guardrails.pure_call, guardrails.logger_call,
    guardrails.ret.
  rewrite !re_sub_plain by reflexivity.
  cbn [with_journal guardrails.imported guardrails.g_RULES
       guardrails.g_BLOCKED_PHRASES guardrails.handled variables_of
       guardrails.v_flags guardrails.v_modifications guardrails.v_cleaned].
  unfold guardrails.imported, emitted_log, apply_guardrails, run_guardrails,
    normalize_whitespace.
  fold st0. fold st1. fold st2.
  cbn [l_flags l_modifications l_cleaned l_log].
  now rewrite <- app_assoc.
Qed.

End Adequacy.

(** * Properties of the specification *)

(** ** C1: clean text *)

(** C1, as amended.  On a draft in which no pattern rule has an occurrence
    and whose lowercased form contains no blocked phrase, [apply_guardrails]
    passes with no flag and no modification, and returns the draft after
    whitespace normalisation; the returned text is the draft itself exactly
    when the draft is already whitespace-normal (no two consecutive spaces,
    no three consecutive newlines, nothing to strip).  The empty string is
    returned unchanged. *)
Theorem clean_text_passes (U : UnicodeData) (d : text) :
  clean_for_rules U d -> clean_for_phrases U d ->
  apply_guardrails U d = (normalize_whitespace U d, passing)
  /\ (fst (apply_guardrails U d) = d <-> whitespace_normal d)
  /\ apply_guardrails U [] = ([], passing).
Proof.
  intros R P. rewrite (apply_guardrails_clean R P). cbn [fst].
  split; [reflexivity|]. split; [|reflexivity]. split.
  - intros E. rewrite <- E. apply normalize_whitespace_normal.
  - apply normalize_whitespace_fixed.
Qed.

Lemma clean_text_passes_witness :
  clean_for_rules ascii_only clean_draft
  /\ clean_for_phrases ascii_only clean_draft
  /\ (apply_guardrails ascii_only clean_draft
      = (normalize_whitespace ascii_only clean_draft, passing)
      /\ (fst (apply_guardrails ascii_only clean_draft) = clean_draft
          <-> whitespace_normal clean_draft)
      /\ apply_guardrails ascii_only [] = ([], passing)).
Proof.
  assert (R : clean_for_rules ascii_only clean_draft)
    by (repeat constructor; vm_compute; reflexivity).
  assert (P : clean_for_phrases ascii_only clean_draft)
    by (repeat constructor; vm_compute; reflexivity).
  split; [exact R|]. split; [exact P|].
  exact (clean_text_passes R P).
Defined.

(** C1 as stated fails: a draft with no violation but two consecutive spaces
    is not returned exactly. *)
Lemma clean_text_not_verbatim :
  let d := str "Thank you.  We will call you back." in
  clean_for_rules ascii_only d
  /\ clean_for_phrases ascii_only d
  /\ apply_guardrails ascii_only d
     = (str "Thank you. We will call you back.", passing)
  /\ fst (apply_guardrails ascii_only d) <> d.
Proof.
  cbv zeta. split; [|split; [|split]].
  - repeat constructor; vm_compute; reflexivity.
  - repeat constructor; vm_compute; reflexivity.
  - vm_compute. reflexivity.
  - vm_compute. discriminate.
Qed.

(** ** C6: whitespace normalisation *)

(** C6.  The returned text is what the two loops leave with every run of two
    or more spaces cut down to one space, then stripped of leading and
    trailing whitespace, then with every run of three or more newlines cut
    down to two.  It has no two consecutive spaces and no three consecutive
    newlines, and neither starts nor ends with whitespace: stripping it
    changes nothing. *)
Theorem cleaned_whitespace_normal (U : UnicodeData) (d : text) :
  let cleaned := fst (apply_guardrails U d) in
  let c0 := after_rules U _RULES d in
  let before := after_phrases U _BLOCKED_PHRASES (lower U c0) c0 in
  cleaned = collapse_runs newline 3 2 (strip (collapse_runs 32 2 1 before))
  /\ (forall a b, cleaned <> a ++ str "  " ++ b)
  /\ (forall a b, cleaned <> a ++ [newline; newline; newline] ++ b)
  /\ strip cleaned = cleaned
  /\ starts_clean cleaned /\ ends_clean cleaned.
Proof.
  cbv zeta. rewrite apply_guardrails_eq. cbn [fst].
  split; [apply normalize_whitespace_collapses|].
  match goal with
  | |- context [normalize_whitespace U ?t] =>
      destruct (normalize_whitespace_normal U t) as (S & L & T)
  end.
  split; [|split; [|split; [|split]]].
  - now apply contains_free_iff.
  - now apply contains_free_iff.
  - exact T.
  - now apply strip_fixed_clean.
  - now apply strip_fixed_clean.
Qed.

(** Runs inside the text are collapsed, runs at its ends are stripped. *)
Example whitespace_example :
  fst (apply_guardrails ascii_only
         ([32; 32] ++ str "a   b" ++ [10; 10; 10; 10] ++ str "c " ++ [10]))%N
  = str "a b" ++ [10; 10]%N ++ str "c".
Proof. evaluate. Qed.

(** ** C9: totality *)

(** The statement that can raise does raise when a table is not what the
    source defines: with a backslash in a replacement and a template
    compiler that rejects it, the call on a draft with a price ends in the
    exception, and the logger is handed nothing.  On a draft without a price
    the same call returns. *)
Example tampered_table_raises :
  guardrails.apply_guardrails ascii_only rejecting priced_draft tampered
  = (tampered, Raised (ExternalError "re.error"))
  /\ snd (guardrails.apply_guardrails ascii_only rejecting clean_draft tampered)
     = Returned (clean_draft, passing).
Proof. split; vm_compute; reflexivity. Qed.

(** C9.  A call never raises.  Started in the state the import of the module
    leaves (the two tables as the source defines them, whatever the logger
    was handed before), for every draft, every Unicode database and
    whatever the template compiler of [re] does with a backslash, the call
    ends with a value and not with an exception.  The value is the pair the
    function [apply_guardrails] computes, and its check is well formed:
    [passed] says whether [flags] is empty, and [modifications_applied] is
    as long as [flags].  The empty draft gives the empty text and a passing
    check. *)
Theorem apply_guardrails_never_raises (U : UnicodeData)
    (T : text -> outcome (text -> text)) (journal : list log_record)
    (d : text) :
  (exists cleaned check,
      snd (guardrails.apply_guardrails U T d (guardrails.imported journal))
      = Returned (cleaned, check)
      /\ (cleaned, check) = apply_guardrails U d
      /\ (passed check = true <-> flags check = [])
      /\ List.length (modifications_applied check)
         = List.length (flags check))
  /\ snd (guardrails.apply_guardrails U T [] (guardrails.imported journal))
     = Returned ([], passing).
Proof.
  rewrite !call_runs. cbn [snd]. split; [|reflexivity].
  exists (fst (apply_guardrails U d)), (snd (apply_guardrails U d)).
  rewrite <- surjective_pairing. split; [reflexivity|]. split; [reflexivity|].
  rewrite apply_guardrails_eq.
  cbn [snd passed flags modifications_applied]. rewrite !length_map.
  split; [|reflexivity].
  destruct (triggers U d); cbn; split; auto; discriminate.
Qed.

(** The call on a draft with every kind of violation: nine flags, and a
    value all the same. *)
Example every_violation_returns :
  exists cleaned check,
    snd (guardrails.apply_guardrails ascii_only rejecting every_violation
           (guardrails.imported []))
    = Returned (cleaned, check)
    /\ List.length (flags check) = 9.
Proof. do 2 eexists. split; vm_compute; reflexivity. Qed.

(** ** C8: determinism *)

(** C8.  What a call gives is decided by the draft and the two tables.
    Started in two states of the module that hold the same tables, whatever
    the logger was handed in each, a call on the same draft ends the same
    way: the same cleaned text, the same flags and the same modifications
    in the same order, or the same exception.  A call leaves the tables as
    it found them, so a second call, made in the state the first one
    leaves, gives what the first one gave. *)
Theorem apply_guardrails_deterministic (U : UnicodeData)
    (T : text -> outcome (text -> text)) (s1 s2 : guardrails.state)
    (d : text) :
  guardrails.g_RULES s1 = guardrails.g_RULES s2 ->
  guardrails.g_BLOCKED_PHRASES s1 = guardrails.g_BLOCKED_PHRASES s2 ->
  let first := guardrails.apply_guardrails U T d s1 in
  let other := guardrails.apply_guardrails U T d s2 in
  let again := guardrails.apply_guardrails U T d (fst first) in
  snd first = snd other
  /\ guardrails.g_RULES (fst first) = guardrails.g_RULES s1
  /\ guardrails.g_BLOCKED_PHRASES (fst first) = guardrails.g_BLOCKED_PHRASES s1
  /\ snd again = snd first.
Proof.
  intros R P. cbv zeta.
  destruct (@call_decided U T d s1 s2 (conj R P)) as [E [R1 P1]].
  split; [exact E|]. split; [exact R1|]. split; [exact P1|].
  now destruct (@call_decided U T d _ s1 (conj R1 P1)) as [E' _].
Qed.

Lemma apply_guardrails_deterministic_witness :
  let s1 := guardrails.imported [] in
  let s2 := guardrails.imported [LogFailed 2; LogPassed] in
  guardrails.g_RULES s1 = guardrails.g_RULES s2
  /\ guardrails.g_BLOCKED_PHRASES s1 = guardrails.g_BLOCKED_PHRASES s2
  /\ snd (guardrails.apply_guardrails ascii_only rejecting priced_draft s1)
     = snd (guardrails.apply_guardrails ascii_only rejecting priced_draft s2).
Proof.
  cbv zeta. split; [reflexivity|]. split; [reflexivity|].
  exact (proj1 (@apply_guardrails_deterministic ascii_only rejecting
                  (guardrails.imported [])
                  (guardrails.imported [LogFailed 2; LogPassed])
                  priced_draft eq_refl eq_refl)).
Defined.

(** ** C4: one flag per rule that fired *)

(** C4.  [flags] has one entry per rule that fired, whatever the number of
    occurrences: its length is the number of fired rules, which are distinct
    entries of the two tables; [passed] holds exactly when no rule fired,
    which is exactly when [flags] is empty. *)
Theorem one_flag_per_fired_rule (U : UnicodeData) (d : text) :
  let check := snd (apply_guardrails U d) in
  let fired := triggers U d in
  List.length (flags check) = List.length fired
  /\ NoDup (map trigger_id fired)
  /\ incl (map trigger_id fired) table_ids
  /\ (passed check = true <-> fired = [])
  /\ (passed check = true <-> flags check = [])
  /\ (1 <= List.length fired -> passed check = false).
Proof.
  cbv zeta. rewrite apply_guardrails_eq. cbn [snd passed flags].
  split; [apply length_map|]. split; [apply triggers_ids_nodup|]. split.
  { unfold triggers, table_ids. rewrite map_app. apply incl_app.
    - apply incl_appl.
      apply (rule_triggers_ids U _RULES d
               (NoDup_app_remove_r _ _ table_ids_nodup)).
    - apply incl_appr.
      apply (phrase_triggers_ids _BLOCKED_PHRASES
               (lower U (after_rules U _RULES d))
               (NoDup_app_remove_l _ _ table_ids_nodup)). }
  destruct (triggers U d) as [|t ts]; cbn; repeat split;
    auto; try discriminate; lia.
Qed.

(** A rule fires on the text as it stands at its turn: here the guarantee
    matcher would match the draft, but the price rule has already replaced
    [Rs 100]. *)
Example overlapping_rules_one_flag :
  flags (snd (apply_guardrails ascii_only (str "Rs 100% guarantee")))
  = ["hallucinated_exact_price: matched 1 occurrence(s)"%string]
  /\ existsb (fun rule => occurs ascii_only (pattern rule)
                            (str "Rs 100% guarantee")) (skipn 2 _RULES)
     = true.
Proof. split_conj; evaluate. Qed.

(** Three prices in one draft raise one flag. *)
Example three_prices_one_flag :
  flags (snd (apply_guardrails ascii_only
                (str "Either Rs. 100, Rs. 200 or INR 300.")))
  = ["hallucinated_exact_price: matched 3 occurrence(s)"%string].
Proof. vm_compute. reflexivity. Qed.

(** ** C7: format of the audit record *)

Lemma rule_triggers_app (U : UnicodeData) l1 l2 : forall t,
  rule_triggers U (l1 ++ l2) t
  = rule_triggers U l1 t ++ rule_triggers U l2 (after_rules U l1 t).
Proof.
  induction l1 as [|rule l1 IH]; intros t; cbn [app rule_triggers after_rules].
  - reflexivity.
  - destruct (occurs U (pattern rule) t); rewrite IH; reflexivity.
Qed.

Lemma audit_pairs ts :
  Forall table_trigger ts ->
  Forall2 audit_pair (map flag_of ts) (map modification_of ts).
Proof.
  induction 1 as [|t ts H _ IH]; cbn [map]; constructor; auto.
  destruct t as [rule n|phrase]; cbn in H.
  - left. exists rule, n. cbn. tauto.
  - right. exists phrase. cbn. tauto.
Qed.

(** C7.  Flags and modifications are the renderings, in the same order, of
    the rules that fired: a pattern rule gives
    ["<name>: matched <count> occurrence(s)"] and
    ["Replaced <name> matches with safe alternative."], a phrase gives
    ["blocked_phrase: '<phrase>'"] and ["Removed blocked phrase: '<phrase>'"];
    the two lists have the same length.  The count of a pattern rule is the
    number of matches [findall] gives on the text left by the rules before
    it. *)
Theorem audit_record_format (U : UnicodeData) (d : text) :
  let check := snd (apply_guardrails U d) in
  flags check = map flag_of (triggers U d)
  /\ modifications_applied check = map modification_of (triggers U d)
  /\ Forall2 audit_pair (flags check) (modifications_applied check)
  /\ List.length (modifications_applied check) = List.length (flags check)
  /\ (forall i rule,
         nth_error _RULES i = Some rule ->
         let seen := after_rules U (firstn i _RULES) d in
         occurs U (pattern rule) seen = true ->
         In (name rule ++ ": matched "
             ++ decimal (List.length (findall U (pattern rule) seen))
             ++ " occurrence(s)")%string
            (flags check)).
Proof.
  cbv zeta. rewrite apply_guardrails_eq.
  cbn [snd flags modifications_applied].
  split; [reflexivity|]. split; [reflexivity|].
  split; [apply audit_pairs, triggers_table|].
  split; [now rewrite !length_map|].
  intros i rule Hi Hocc.
  apply nth_error_split in Hi as (l1 & l2 & E & Hlen).
  assert (F : firstn i _RULES = l1).
  { rewrite E, <- Hlen. rewrite firstn_app, Nat.sub_diag, firstn_all.
    cbn. apply app_nil_r. }
  rewrite F in *. unfold triggers. rewrite E at 1.
  rewrite rule_triggers_app. cbn [rule_triggers]. rewrite Hocc.
  rewrite !map_app. cbn [map]. apply in_or_app. left. apply in_or_app. right.
  left. reflexivity.
Qed.

(** ** C10: bound and order of the flags *)

Lemma rule_flags_pattern (U : UnicodeData) rules : forall t,
  incl rules _RULES ->
  Forall is_pattern_flag (map flag_of (rule_triggers U rules t)).
Proof.
  induction rules as [|rule rules IH]; intros t I; cbn [rule_triggers].
  - constructor.
  - assert (I' : incl rules _RULES) by (intros x Hx; apply I; now right).
    destruct (occurs U (pattern rule) t) eqn:E; auto.
    cbn [map]. constructor; auto.
    exists rule, (List.length (findall U (pattern rule) t)).
    split; [apply I; now left|]. split; [now apply findall_occurs|reflexivity].
Qed.

Lemma phrase_flags_phrase phrases lc :
  incl (map fst phrases) (map fst _BLOCKED_PHRASES) ->
  Forall is_phrase_flag (map flag_of (phrase_triggers phrases lc)).
Proof.
  unfold phrase_triggers.
  induction phrases as [|e phrases IH]; intros I; cbn [flat_map].
  - constructor.
  - assert (I' : incl (map fst phrases) (map fst _BLOCKED_PHRASES))
      by (intros x Hx; apply I; now right).
    destruct (contains (str (fst e)) lc); cbn [app map]; auto.
    constructor; auto. exists (fst e). split; [apply I; now left|reflexivity].
Qed.

Lemma pattern_flag_not_phrase_flag f : is_pattern_flag f -> ~ is_phrase_flag f.
Proof.
  intros (rule & n & Hr & Hn & ->) (phrase & Hp & E).
  assert (T1 : table_trigger (PatternHit rule n)) by (cbn; auto).
  assert (T2 : table_trigger (PhraseHit phrase)) by exact Hp.
  pose proof (flag_of_id _ _ T1 T2 E) as Id. cbn in Id, Hr, Hp.
  clear E T1 T2. subst phrase.
  repeat (destruct Hr as [Hr|Hr]; [subst rule; cbn in Hp; intuition discriminate|]).
  exact Hr.
Qed.

(** C10.  No flag is repeated, there are at most nine of them, and the
    flags of pattern rules (at most five) all come before the flags of
    phrases (at most four); no string is a flag of both kinds. *)
Theorem flags_distinct_bounded_ordered (U : UnicodeData) (d : text) :
  let fl := flags (snd (apply_guardrails U d)) in
  NoDup fl
  /\ List.length fl <= 9
  /\ (exists pattern_flags phrase_flags,
         fl = pattern_flags ++ phrase_flags
         /\ Forall is_pattern_flag pattern_flags
         /\ List.length pattern_flags <= 5
         /\ Forall is_phrase_flag phrase_flags
         /\ List.length phrase_flags <= 4)
  /\ (forall f, is_pattern_flag f -> ~ is_phrase_flag f).
Proof.
  cbv zeta. rewrite apply_guardrails_eq. cbn [snd flags].
  pose proof (rule_triggers_length U _RULES d) as L1.
  pose proof (phrase_triggers_length _BLOCKED_PHRASES
                (lower U (after_rules U _RULES d))) as L2.
  change (List.length _RULES) with 5 in L1.
  change (List.length _BLOCKED_PHRASES) with 4 in L2.
  split; [apply triggers_flags_nodup|]. split.
  { unfold triggers. rewrite length_map, length_app. lia. }
  split; [|exact pattern_flag_not_phrase_flag].
  unfold triggers. rewrite map_app. do 2 eexists. split; [reflexivity|].
  rewrite !length_map. split; [|split; [|split]]; auto.
  - apply rule_flags_pattern, incl_refl.
  - apply phrase_flags_phrase, incl_refl.
Qed.

(** ** C2: what the phrase loop looks at *)

Lemma in_phrase_triggers phrases lc t :
  In t (phrase_triggers phrases lc) <->
  exists e, In e phrases /\ contains (str (fst e)) lc = true
            /\ t = PhraseHit (fst e).
Proof.
  unfold phrase_triggers. rewrite in_flat_map. split.
  - intros (e & He & Hin). exists e.
    destruct (contains (str (fst e)) lc); [|contradiction].
    destruct Hin as [<-|[]]. auto.
  - intros (e & He & C & ->). exists e. rewrite C. split; [auto|now left].
Qed.



(** ** C3: a second pass *)

(** C3.  The text a call returns is not a fixed point of the engine, and a
    text that matches a rule is returned as clean.  The scare rule does not
    match across two spaces; the whitespace step then collapses them, and
    the call returns a text with the scare phrase in it and [passed = true];
    a second call on that text fails and rewrites it.  Likewise the removal
    of a phrase brings a price into being, which only a second call
    replaces. *)
Lemma second_pass_not_idempotent :
  let d := str "This is not a life  threatening situation." in
  let c1 := fst (apply_guardrails ascii_only d) in
  let d' := str "It costs Rs I am an AI 500." in
  let c1' := fst (apply_guardrails ascii_only d') in
  (c1 = str "This is not a life threatening situation."
   /\ passed (snd (apply_guardrails ascii_only d)) = true
   /\ existsb (fun rule => occurs ascii_only (pattern rule) c1) _RULES = true
   /\ passed (snd (apply_guardrails ascii_only c1)) = false
   /\ fst (apply_guardrails ascii_only c1) <> c1)
  /\ (c1' = str "It costs Rs 500."
      /\ flags (snd (apply_guardrails ascii_only d'))
         = ["blocked_phrase: 'i am an ai'"%string]
      /\ flags (snd (apply_guardrails ascii_only c1'))
         = ["hallucinated_exact_price: matched 1 occurrence(s)"%string]
      /\ fst (apply_guardrails ascii_only c1') <> c1').
Proof.
  cbv zeta. split_conj; evaluate.
Qed.

(** ** C5: what a replacement leaves *)

(** C5.  The returned text can hold an occurrence of the very rule that
    fired.  Deleting the one occurrence of a phrase joins its surroundings
    into the phrase; collapsing two spaces completes a match the scare rule
    did not replace; both remain in the returned text.  In the same way the
    removal of a phrase leaves a price in the reply, which the last
    assertion of [test_full_pipeline] rejects. *)
Lemma replaced_text_still_occurs :
  let d1 := str "i am an i am an aiai" in
  let d2 := str "A life threatening condition, not a life  threatening condition." in
  let d3 := str "It costs Rs I am an AI 500." in
  (flags (snd (apply_guardrails ascii_only d1))
   = ["blocked_phrase: 'i am an ai'"%string]
   /\ fst (apply_guardrails ascii_only d1) = str "i am an ai"
   /\ contains (str "i am an ai")
        (lower ascii_only (fst (apply_guardrails ascii_only d1))) = true)
  /\ (flags (snd (apply_guardrails ascii_only d2))
      = ["scare_tactics: matched 1 occurrence(s)"%string]
      /\ fst (apply_guardrails ascii_only d2)
         = str "A (we recommend a professional assessment to evaluate the situation), not a life threatening condition."
      /\ existsb (fun rule =>
                    occurs ascii_only (pattern rule)
                      (fst (apply_guardrails ascii_only d2)))
                 _RULES = true)
  /\ (fst (apply_guardrails ascii_only d3) = str "It costs Rs 500."
      /\ occurs ascii_only price_assertion
           (fst (apply_guardrails ascii_only d3)) = true).
Proof.
  cbv zeta. split_conj; evaluate.
Qed.

(** * Further properties of the guardrail engine *)

(** ** What the rule loop leaves *)

Section Survive.

Variable U : UnicodeData.
Variables p q : Pattern.
Variable body : text.

Let repl : text := open_paren :: body ++ [close_paren].

Hypothesis p_nonempty : 1 <= min_len (re p).
Hypothesis q_nonempty : 1 <= min_len (re q).
Hypothesis no_open :
  atoms_reject U (ignorecase p) (re p) open_paren = true.
Hypothesis no_close :
  atoms_reject U (ignorecase p) (re p) close_paren = true.
Hypothesis shape :
  wordb_free (re p) = true
  \/ (anchored (re p) = true /\ anchored (re q) = true).
Hypothesis repl_clean : occurs U p repl = false.

Let run := exec U (ignorecase p) (re p).

Lemma occurs_from_suffix : forall a prev b,
  occurs_from U p prev (a ++ b) = false ->
  occurs_from U p (last_of prev a) b = false.
Proof.
  induction a as [|x a IH]; intros prev b H; cbn [app] in H; auto.
  apply occurs_from_cons in H as [_ H]; auto.
  rewrite last_of_cons. now apply IH.
Qed.

Lemma kept_position_survives prev prev' s :
  run prev s = [] -> ctx_ok U p prev prev' s ->
  run prev' (render repl (scan U q 0 prev s)) = [].
Proof.
  intros Hs C. unfold repl in *.
  destruct (run prev' (render (open_paren :: body ++ [close_paren])
                         (scan U q 0 prev s))) as [|[w r'] l] eqn:E;
    auto.
  exfalso.
  assert (Hin : In (w, r') (run prev' (render (open_paren :: body ++ [close_paren])
                                         (scan U q 0 prev s))))
    by (rewrite E; now left).
  clear E l.
  pose proof (@run_nonempty U p p_nonempty _ _ _ _ Hin) as Hw.
  pose proof (@exec_split _ _ _ _ _ _ _ Hin) as S.
  pose proof (@exec_rejects _ _ _ _ _ _ _ _ no_open Hin) as N.
  destruct (@keep_prefix U q body q_nonempty _ _ _ _ N S) as (rest & Es & Er).
  assert (Hin' : In (w, rest) (run prev (w ++ rest))).
  { rewrite S in Hin. unfold run in *.
    apply exec_context with (prev := prev') (rest := r'); auto.
    destruct C as [C|C]; [now left|].
    destruct shape as [F|[A Aq]]; [now left|]. right.
    rewrite <- S in Hin.
    destruct (@exec_anchored _ _ _ _ _ _ _ A Hin) as [B1 B2].
    rewrite S in B1.
    assert (Hh : hd_error (w ++ r') = hd_error s).
    { rewrite Es. destruct w; [contradiction|reflexivity]. }
    rewrite Hh in B1. split.
    - destruct C as [C|[C1 C2]]; [now symmetry|].
      unfold word_boundary in *. rewrite C1 in *.
      destruct (is_word_opt U prev), (is_word_opt U (hd_error s));
        cbn in *; congruence.
    - rewrite (@last_of_nonempty prev' prev _ Hw) in B2.
      destruct (@hd_render U q body q_nonempty (last_of prev w) rest)
        as [Hd|[Hd (m & r & Hm & Em & Hm')]]; rewrite <- Er in Hd.
      + now rewrite Hd.
      + destruct (@exec_anchored _ _ _ _ _ _ _ Aq Hm') as [B3 _].
        rewrite Hd in *. unfold word_boundary in *.
        change (is_word_opt U (Some open_paren)) with false in *.
        destruct (is_word_opt U (last_of prev w)),
                 (is_word_opt U (hd_error rest)); cbn in *; congruence. }
  rewrite <- Es in Hin'. rewrite Hs in Hin'. contradiction.
Qed.

Lemma sub_keeps_clean_from : forall n s prev prev',
  List.length s <= n ->
  occurs_from U p prev s = false ->
  ctx_ok U p prev prev' s ->
  occurs_from U p prev' (render repl (scan U q 0 prev s)) = false.
Proof.
  induction n as [|n IH]; intros s prev prev' L O C.
  - destruct s; [reflexivity|cbn in L; lia].
  - destruct s as [|c s]; [reflexivity|]. cbn [List.length] in L.
    pose proof (@kept_position_survives prev prev' (c :: s)) as K.
    destruct (@occurs_from_cons U p p_nonempty _ _ _ O) as [O0 O1].
    destruct (@scan_cons U q q_nonempty prev c s)
      as [[H0 Sc]|(m & rest & Hm & S & Hin & Sc)]; rewrite Sc in *.
    + unfold repl in *. rewrite render_keep_cons in *.
      rewrite occurs_from_skip by auto.
      apply IH; auto; [lia|]. right. now left.
    + unfold repl in *. rewrite render_hit_cons in *.
      rewrite occurs_from_skip by now apply starts_rejected.
      apply repl_tail_clean; auto.
      * unfold occurs in repl_clean. cbn [app] in repl_clean.
        now apply occurs_from_cons in repl_clean.
      * apply IH.
        -- apply (f_equal (@List.length N)) in S.
           rewrite length_app in S. cbn [List.length] in S.
           destruct m; [contradiction|]. cbn [List.length] in S. lia.
        -- apply occurs_from_suffix. now rewrite <- S.
        -- destruct shape as [F|[A Aq]]; [now left|]. right. right.
           split; [reflexivity|].
           now destruct (@exec_anchored _ _ _ _ _ _ _ Aq Hin).
Qed.

(** A text without occurrence of [p] has none after the substitution of
    [q]. *)
Lemma sub_keeps_clean t :
  occurs U p t = false -> occurs U p (sub U q repl t) = false.
Proof.
  intros H. unfold occurs, sub.
  apply sub_keeps_clean_from with (n := List.length t); auto.
  right. now left.
Qed.

End Survive.

Lemma after_rules_survives (U : UnicodeData) (p : Pattern) :
  1 <= min_len (re p) ->
  atoms_reject U (ignorecase p) (re p) open_paren = true ->
  atoms_reject U (ignorecase p) (re p) close_paren = true ->
  forall rules,
    Forall (fun q => In q _RULES /\ survives U p q) rules ->
    forall t, occurs U p t = false ->
              occurs U p (after_rules U rules t) = false.
Proof.
  intros L O C. induction 1 as [|q rules [Hq [Sh Rc]] _ IH]; intros t H;
    cbn [after_rules]; auto.
  apply IH. destruct (occurs U (pattern q) t); auto.
  destruct (@rules_leftover_conditions U q Hq) as (Lq & _ & _ & _ & E & _).
  rewrite E in Rc |- *. now apply sub_keeps_clean.
Qed.

Lemma rule_loop_clean (U : UnicodeData) : forall rules,
  incl rules _RULES ->
  ForallOrdPairs (fun r1 r2 => survives U (pattern r1) r2) rules ->
  forall t,
    Forall (fun r => occurs U (pattern r) (after_rules U rules t) = false)
           rules.
Proof.
  induction rules as [|r rules IH]; intros I P t; [constructor|].
  inversion P as [|? ? Pr P']; subst.
  assert (I' : incl rules _RULES) by (intros x Hx; apply I; now right).
  assert (Hr : In r _RULES) by (apply I; now left).
  cbn [after_rules]. constructor; auto.
  destruct (@rules_leftover_conditions U r Hr) as (L & O & C & _ & _ & _).
  apply after_rules_survives; auto.
  - rewrite Forall_forall in *. intros q Hq. split; auto.
  - destruct (occurs U (pattern r) t) eqn:E; auto.
    now apply rule_sub_no_occurrence.
Qed.

Lemma rules_survive_later (U : UnicodeData) :
  ForallOrdPairs (fun r1 r2 => survives U (pattern r1) r2) _RULES.
Proof.
  unfold _RULES.
  repeat (constructor; [repeat (constructor; [split; [first [left; vm_compute; reflexivity | right; split; vm_compute; reflexivity] | vm_compute; reflexivity]|]); try constructor|]).
  constructor.
Qed.

(** X1.  When the loop over the pattern rules ends, the working text holds
    no occurrence of any of the five rules.  The substitution of a later
    rule cannot bring an earlier rule back: a match of the earlier rule
    would lie in a stretch the text already had, or inside a replacement,
    where no rule matches. *)
Theorem rule_loop_leaves_no_occurrence (U : UnicodeData) (d : text) :
  let c0 := l_cleaned
              (fold_left (rule_step U) _RULES
                 {| l_flags := []; l_modifications := [];
                    l_cleaned := d; l_log := [] |}) in
  clean_for_rules U c0.
Proof.
  cbv zeta. rewrite fold_rule_step. cbn [l_cleaned].
  apply rule_loop_clean; [apply incl_refl|apply rules_survive_later].
Qed.

Lemma rule_triggers_nil (U : UnicodeData) rules : forall t,
  rule_triggers U rules t = [] ->
  Forall (fun rule => occurs U (pattern rule) t = false) rules.
Proof.
  induction rules as [|r rules IH]; intros t H; [constructor|].
  cbn [rule_triggers] in H. destruct (occurs U (pattern r) t) eqn:E;
    [discriminate|]. constructor; auto.
Qed.

Lemma phrase_triggers_nil phrases lc :
  phrase_triggers phrases lc = [] ->
  Forall (fun e => contains (str (fst e)) lc = false) phrases.
Proof.
  unfold phrase_triggers. induction phrases as [|e phrases IH]; intros H;
    [constructor|].
  cbn [flat_map] in H. destruct (contains (str (fst e)) lc) eqn:E;
    [discriminate|]. constructor; auto.
Qed.

Lemma passed_clean (U : UnicodeData) (d : text) :
  passed (snd (apply_guardrails U d)) = true
  <-> clean_for_rules U d /\ clean_for_phrases U d.
Proof.
  split.
  - rewrite apply_guardrails_eq. cbn [snd passed]. intros H.
    apply Nat.eqb_eq, length_zero_iff_nil in H. unfold triggers in H.
    apply app_eq_nil in H as [H1 H2].
    pose proof (rule_triggers_nil _ _ _ H1) as R.
    destruct (@rule_triggers_clean U _RULES d R) as [_ A].
    rewrite A in H2. split; auto. now apply phrase_triggers_nil.
  - intros [R P]. now rewrite (apply_guardrails_clean R P).
Qed.

(** X2.  The verdict is about the draft itself: [passed] is true exactly
    when no pattern rule has an occurrence in the draft and the lowercased
    draft contains no blocked phrase, which is exactly when the call
    returns the draft after whitespace normalisation with no flag and no
    modification. *)
Theorem passed_iff_draft_clean (U : UnicodeData) (d : text) :
  (passed (snd (apply_guardrails U d)) = true
   <-> clean_for_rules U d /\ clean_for_phrases U d)
  /\ (passed (snd (apply_guardrails U d)) = true
      <-> apply_guardrails U d = (normalize_whitespace U d, passing)).
Proof.
  split; [apply passed_clean|]. split.
  - intros H. apply passed_clean in H as [R P].
    now apply apply_guardrails_clean.
  - intros ->. reflexivity.
Qed.

(** ** Detection and removal of a phrase *)

Lemma lit_match_ascii l c :
  plain_char l = true -> is_ascii c = true ->
  lit_match true l c = (l =? ascii_tolower c)%N.
Proof.
  unfold plain_char, lit_match, sre_fold, ascii_tolower, is_ascii,
    ascii_isupper, in_range.
  intros Hl Hc. apply andb_prop in Hl as [Hl Hu].
  apply N.ltb_lt in Hl, Hc.
  destruct ((65 <=? l)%N && (l <=? 90)%N) eqn:E; [discriminate|]. clear Hu.
  assert (E1 : (l =? 304)%N = false) by (apply N.eqb_neq; lia).
  assert (E2 : (l =? 8490)%N = false) by (apply N.eqb_neq; lia).
  assert (E3 : (c =? 305)%N = false) by (apply N.eqb_neq; lia).
  assert (E4 : (c =? 383)%N = false) by (apply N.eqb_neq; lia).
  assert (E5 : (c =? 304)%N = false) by (apply N.eqb_neq; lia).
  assert (E6 : (c =? 8490)%N = false) by (apply N.eqb_neq; lia).
  rewrite E1, E2, E3, E4, !andb_false_r, !orb_false_r.
  destruct ((65 <=? c)%N && (c <=? 90)%N); [apply N.eqb_sym|].
  rewrite E5, E6. apply N.eqb_sym.
Qed.

Lemma lower_from_ascii (U : UnicodeData) : forall t before,
  forallb is_ascii t = true -> lower_from U before t = map ascii_tolower t.
Proof.
  induction t as [|c t IH]; intros before H; cbn [lower_from map]; auto.
  cbn [forallb] in H. apply andb_prop in H as [Hc Ht]. rewrite Hc.
  cbn [app]. f_equal. now apply IH.
Qed.

Lemma exec_word_ascii (U : UnicodeData) : forall ph,
  forallb plain_char (str ph) = true ->
  forall prev s,
    forallb is_ascii s = true ->
    exec U true (word ph) prev s
    = if starts_with (str ph) (map ascii_tolower s)
      then [(firstn (String.length ph) s, skipn (String.length ph) s)]
      else [].
Proof.
  induction ph as [|a ph IH]; intros P prev s A.
  - reflexivity.
  - cbn [str forallb] in P. apply andb_prop in P as [Pa P].
    assert (L : forall prev' s',
               forallb is_ascii s' = true ->
               exec U true (lit a) prev' s'
               = match s' with
                 | c :: r => if (cp a =? ascii_tolower c)%N
                             then [([c], r)] else []
                 | [] => []
                 end).
    { intros prev' [|c r] A'; cbn [exec lit atom_match]; auto.
      cbn [forallb] in A'. apply andb_prop in A' as [Hc _].
      now rewrite (@lit_match_ascii _ _ Pa Hc). }
    destruct ph as [|b ph].
    + cbn [word]. rewrite L by auto. destruct s as [|c s]; auto.
      cbn [str starts_with map String.length firstn skipn].
      destruct (cp a =? ascii_tolower c)%N; cbn [andb]; auto.
    + change (word (String a (String b ph)))
        with (Seq (lit a) (word (String b ph))).
      cbn [exec]. rewrite L by auto. destruct s as [|c s]; auto.
      cbn [forallb] in A. apply andb_prop in A as [Hc A].
      change (str (String a (String b ph)))
        with (cp a :: str (String b ph)).
      cbn [map starts_with]. destruct (cp a =? ascii_tolower c)%N;
        cbn [andb flat_map fst snd]; auto.
      rewrite app_nil_r, (IH P (last_of prev [c]) s A).
      cbn [String.length firstn skipn].
      destruct (starts_with (str (String b ph)) (map ascii_tolower s));
        reflexivity.
Qed.

Lemma occurs_word_ascii (U : UnicodeData) ph :
  ph <> EmptyString ->
  forallb plain_char (str ph) = true ->
  forall s prev,
    forallb is_ascii s = true ->
    occurs_from U (escaped ph) prev s = contains (str ph) (map ascii_tolower s).
Proof.
  intros Hne P. induction s as [|c s IH]; intros prev A.
  - destruct ph; [contradiction|reflexivity].
  - cbn [occurs_from]. unfold first_match. cbn [escaped re ignorecase].
    rewrite (@exec_word_ascii U ph P prev _ A).
    cbn [map contains].
    destruct (starts_with (str ph) (ascii_tolower c :: map ascii_tolower s)).
    + destruct ph; [contradiction|reflexivity].
    + cbn [orb]. apply IH. cbn [forallb] in A. now apply andb_prop in A.
Qed.

(** X3.  On an ASCII text the two tests of the phrase loop agree: the
    lowercased text contains a phrase of the blocklist exactly when the
    case-insensitive pattern that removes the phrase has an occurrence in
    the text. *)
Theorem phrase_detection_agrees_with_removal (U : UnicodeData)
    (e : string * string) (t : text) :
  In e _BLOCKED_PHRASES -> forallb is_ascii t = true ->
  contains (str (fst e)) (lower U t) = occurs U (escaped (fst e)) t.
Proof.
  intros He A. unfold lower, occurs. rewrite lower_from_ascii by auto.
  symmetry. apply occurs_word_ascii; auto.
  - cbn [In _BLOCKED_PHRASES] in He.
    repeat (destruct He as [<-|He]; [discriminate|]). contradiction.
  - cbn [In _BLOCKED_PHRASES] in He.
    repeat (destruct He as [<-|He]; [vm_compute; reflexivity|]). contradiction.
Qed.

Lemma phrase_detection_agrees_with_removal_witness :
  In ("as an ai language model", "")%string _BLOCKED_PHRASES
  /\ forallb is_ascii (str "As an AI language model, I can help.") = true
  /\ contains (str "as an ai language model")
       (lower ascii_only (str "As an AI language model, I can help."))
     = occurs ascii_only (escaped "as an ai language model")
         (str "As an AI language model, I can help.").
Proof.
  assert (H : In ("as an ai language model", "")%string _BLOCKED_PHRASES)
    by (right; left; reflexivity).
  assert (A : forallb is_ascii (str "As an AI language model, I can help.")
              = true) by (vm_compute; reflexivity).
  split; [exact H|]. split; [exact A|].
  exact (@phrase_detection_agrees_with_removal ascii_only _ _ H A).
Defined.

(** ** What the last two steps can do *)

Lemma subseq_refl t : subseq t t.
Proof. induction t; [apply subseq_nil|now apply subseq_take]. Qed.

Lemma subseq_nil_l t : subseq [] t.
Proof. induction t; [apply subseq_nil|now apply subseq_drop]. Qed.

Lemma subseq_app a a' b b' :
  subseq a a' -> subseq b b' -> subseq (a ++ b) (a' ++ b').
Proof.
  induction 1; intros Hb; cbn [app]; auto;
    [apply subseq_drop|apply subseq_take]; auto.
Qed.

Lemma subseq_trans a b c : subseq a b -> subseq b c -> subseq a c.
Proof.
  intros H1 H2. revert a H1.
  induction H2 as [|x b c H IH|x b c H IH]; intros a H1; auto.
  - apply subseq_drop. auto.
  - inversion H1; subst; [apply subseq_drop|apply subseq_take]; auto.
Qed.

Lemma subseq_length a b : subseq a b -> List.length a <= List.length b.
Proof. induction 1; cbn; lia. Qed.

Lemma subseq_same_length a b :
  subseq a b -> List.length a = List.length b -> a = b.
Proof.
  induction 1 as [|x a b H IH|x a b H IH]; intros L; auto.
  - apply subseq_length in H. cbn in L. lia.
  - f_equal. apply IH. cbn in L. lia.
Qed.

Lemma subseq_repeat (c : N) k n : k <= n -> subseq (repeat c k) (repeat c n).
Proof.
  revert k. induction n as [|n IH]; intros k L.
  - replace k with 0 by lia. apply subseq_nil.
  - destruct k as [|k]; cbn [repeat].
    + apply subseq_nil_l.
    + apply subseq_take. apply IH. lia.
Qed.

Lemma subseq_infix a t b : subseq t (a ++ t ++ b).
Proof.
  apply (@subseq_app [] a t (t ++ b)); [apply subseq_nil_l|].
  rewrite <- (app_nil_r t) at 1.
  apply subseq_app; [apply subseq_refl|apply subseq_nil_l].
Qed.

Lemma render_nil_subseq ps : subseq (render [] ps) (original ps).
Proof.
  induction ps as [|[c|m] ps IH]; cbn [render original flat_map app].
  - apply subseq_nil.
  - now apply subseq_take.
  - apply (@subseq_app [] m); auto. apply subseq_nil_l.
Qed.

Lemma sub_delete_subseq (U : UnicodeData) p t : subseq (sub U p [] t) t.
Proof.
  unfold sub.
  rewrite <- (@scan_original U p (List.length t) t None) at 2 by auto.
  apply render_nil_subseq.
Qed.

Lemma run_len_split c s :
  s = repeat c (run_len c s) ++ skipn (run_len c s) s.
Proof.
  induction s as [|x s IH]; cbn [run_len]; auto.
  destruct (N.eqb_spec x c) as [->|]; cbn [repeat skipn app]; auto.
  now f_equal.
Qed.

Section RunSubseq.

Variable U : UnicodeData.
Variable p : Pattern.
Variable c : N.
Variables lo keep : nat.

Hypothesis lo_pos : 1 <= lo.
Hypothesis keep_pos : 1 <= keep.
Hypothesis keep_lt : keep < lo.
Hypothesis first_match_run : forall prev s,
  first_match U p prev s =
  if (lo <=? run_len c s)%nat then Some (repeat c (run_len c s)) else None.

Lemma sub_run_subseq_upto : forall n s,
  List.length s <= n -> subseq (sub U p (repeat c keep) s) s.
Proof.
  induction n as [|n IH]; intros s L.
  - destruct s; [|cbn in L; lia]. rewrite sub_run_nil. apply subseq_nil.
  - destruct s as [|x s]; [rewrite sub_run_nil; apply subseq_nil|].
    destruct (le_lt_dec lo (run_len c (x :: s))) as [H|H].
    + rewrite (@sub_run_hit U p c lo keep lo_pos keep_pos keep_lt
                 first_match_run _ H).
      rewrite (run_len_split c (x :: s)) at 3.
      apply subseq_app; [apply subseq_repeat; lia|].
      apply IH. rewrite length_skipn. cbn [List.length] in *. lia.
    + rewrite (@sub_run_keep U p c lo keep first_match_run _ _ H).
      apply subseq_take. apply IH. cbn in L. lia.
Qed.

Lemma sub_run_subseq s : subseq (sub U p (repeat c keep) s) s.
Proof. now apply sub_run_subseq_upto with (n := List.length s). Qed.

End RunSubseq.

Lemma normalize_whitespace_subseq (U : UnicodeData) t :
  subseq (normalize_whitespace U t) t.
Proof.
  unfold normalize_whitespace.
  apply subseq_trans with (b := strip (sub U double_spaces (str " ") t)).
  - apply (@sub_run_subseq U triple_newlines newline 3 2); auto.
    intros prev s. apply first_match_triple_newlines.
  - apply subseq_trans with (b := sub U double_spaces (str " ") t).
    + destruct (strip_infix (sub U double_spaces (str " ") t)) as (a & b & E).
      rewrite E at 2. apply subseq_infix.
    + apply (@sub_run_subseq U double_spaces 32%N 2 1); auto.
      intros prev s. apply first_match_double_spaces.
Qed.

Lemma after_phrases_subseq (U : UnicodeData) phrases lc :
  Forall (fun e => snd e = EmptyString) phrases ->
  forall t, subseq (after_phrases U phrases lc t) t.
Proof.
  induction 1 as [|e phrases He _ IH]; intros t; cbn [after_phrases].
  - apply subseq_refl.
  - destruct (contains (str (fst e)) lc); auto.
    eapply subseq_trans; [apply IH|]. rewrite He. apply sub_delete_subseq.
Qed.

(** X4.  After the loop over the pattern rules nothing is inserted: the
    returned text is the text that loop left, with some characters deleted.
    It is never longer, and it is that text itself when it is as long. *)
Theorem phrases_and_whitespace_only_delete (U : UnicodeData) (d : text) :
  let c0 := l_cleaned
              (fold_left (rule_step U) _RULES
                 {| l_flags := []; l_modifications := [];
                    l_cleaned := d; l_log := [] |}) in
  let cleaned := fst (apply_guardrails U d) in
  subseq cleaned c0
  /\ List.length cleaned <= List.length c0
  /\ (List.length cleaned = List.length c0 -> cleaned = c0).
Proof.
  cbv zeta. rewrite fold_rule_step, apply_guardrails_eq. cbn [l_cleaned fst].
  assert (S : subseq
                (normalize_whitespace U
                   (after_phrases U _BLOCKED_PHRASES
                      (lower U (after_rules U _RULES d))
                      (after_rules U _RULES d)))
                (after_rules U _RULES d)).
  { eapply subseq_trans; [apply normalize_whitespace_subseq|].
    apply after_phrases_subseq. repeat constructor. }
  split; [exact S|]. split; [now apply subseq_length|].
  now apply subseq_same_length.
Qed.

(** X5.  The log of a call mirrors its audit record: one info record per
    rule that fired, in the order of the flags, then one verdict record,
    which is the debug record exactly when the check passed and else the
    warning with the number of flags. *)
Theorem log_mirrors_check (U : UnicodeData) (d : text) :
  let check := snd (apply_guardrails U d) in
  emitted_log U d
  = map log_of (triggers U d)
    ++ [if passed check then LogPassed
        else LogFailed (List.length (flags check))]
  /\ List.length (emitted_log U d) = S (List.length (flags check))
  /\ (In LogPassed (emitted_log U d) <-> passed check = true).
Proof.
  cbv zeta. unfold emitted_log. rewrite run_guardrails_eq, apply_guardrails_eq.
  cbn [l_log snd passed flags]. rewrite !length_map.
  split; [reflexivity|]. split.
  - rewrite length_app, length_map. cbn [List.length]. lia.
  - rewrite in_app_iff. split.
    + intros [H|H].
      * apply in_map_iff in H as ([rule n|ph] & E & _); discriminate.
      * destruct (List.length (triggers U d) =? 0)%nat; auto.
        destruct H as [H|[]]. discriminate.
    + intros ->. right. now left.
Qed.

(** ** The replacement texts stay *)

Lemma contains_refl_app n b : contains n (n ++ b) = true.
Proof. apply contains_iff. now exists [], b. Qed.

Lemma render_hits repl ps :
  hits ps <> [] -> contains repl (render repl ps) = true.
Proof.
  induction ps as [|[c|m] ps IH]; cbn [hits render flat_map app]; intros H.
  - contradiction.
  - apply (@contains_app_r repl [c]). now apply IH.
  - apply contains_refl_app.
Qed.

Lemma sub_inserts (U : UnicodeData) p repl t :
  occurs U p t = true -> contains repl (sub U p repl t) = true.
Proof.
  intros H. apply render_hits. now apply scan_occurs.
Qed.

Section Block.

Variable U : UnicodeData.
Variable q : Pattern.
Variable r : text.
Variable body : text.

Let block : text := open_paren :: body ++ [close_paren].

Hypothesis safe : block_safe U q block.

Let run := exec U (ignorecase q) (re q).

Lemma block_position_clean x a q0 t :
  run q0 (x :: a ++ [close_paren]) = [] ->
  run q0 (x :: a ++ close_paren :: t) = [].
Proof.
  destruct safe as (L & O & C & B). intros H0.
  destruct (run q0 (x :: a ++ close_paren :: t)) as [|[w r'] l] eqn:E; auto.
  exfalso.
  assert (Hin : In (w, r') (run q0 (x :: a ++ close_paren :: t)))
    by (rewrite E; now left).
  clear E l.
  pose proof (@exec_split _ _ _ _ _ _ _ Hin) as S.
  pose proof (@exec_rejects _ _ _ _ _ _ _ _ C Hin) as N.
  destruct (@prefix_before _ _ (x :: a) t r' N S) as (z & Ea & ->).
  assert (Hin' : In (w, z ++ [close_paren])
                    (run q0 (w ++ z ++ [close_paren]))).
  { rewrite S in Hin. unfold run in *.
    apply exec_context with (prev := q0) (rest := z ++ close_paren :: t);
      auto.
    right. split; auto. destruct z; reflexivity. }
  rewrite app_assoc, <- Ea in Hin'. cbn [app] in Hin'.
  rewrite H0 in Hin'. contradiction.
Qed.

Lemma scan_keep_here q0 x s :
  run q0 (x :: s) = [] ->
  scan U q 0 q0 (x :: s) = Keep x :: scan U q 0 (Some x) s.
Proof.
  destruct safe as (L & _). intros H.
  destruct (@scan_cons U q L q0 x s) as [[_ Sc]|(m & rest & _ & _ & Hin & _)];
    auto.
  unfold run in H. rewrite H in Hin. contradiction.
Qed.

Lemma scan_through_block : forall a q0 t,
  occurs_from U q q0 (a ++ [close_paren]) = false ->
  scan U q 0 q0 (a ++ close_paren :: t)
  = map Keep (a ++ [close_paren]) ++ scan U q 0 (Some close_paren) t.
Proof.
  destruct safe as (L & O & C & B).
  induction a as [|x a IH]; intros q0 t H; cbn [app map] in *.
  - apply scan_keep_here. now apply starts_rejected.
  - apply occurs_from_cons in H as [H0 H1]; auto.
    rewrite scan_keep_here by now apply block_position_clean.
    f_equal. now apply IH.
Qed.

Lemma render_map_keep (a : text) ps :
  render r (map Keep a ++ ps) = a ++ render r ps.
Proof.
  induction a as [|x a IH]; cbn [map app render flat_map]; auto.
  f_equal. exact IH.
Qed.

Lemma block_survives_from : forall n a prev b,
  List.length a <= n ->
  contains block (render r (scan U q 0 prev (a ++ block ++ b))) = true.
Proof.
  destruct safe as (L & O & C & B).
  induction n as [|n IH]; intros a prev b Ln.
  - destruct a; [|cbn in Ln; lia]. cbn [app]. unfold block. cbn [app].
    rewrite scan_keep_here by now apply starts_rejected.
    rewrite <- app_assoc. cbn [app].
    rewrite scan_through_block.
    + change (Keep open_paren :: ?l ++ ?m)
        with (map Keep [open_paren] ++ l ++ m).
      rewrite app_assoc, <- map_app, render_map_keep. cbn [app].
      apply contains_iff.
      exists [], (render r (scan U q 0 (Some close_paren) b)).
      cbn [app]. now rewrite <- !app_assoc.
    + unfold occurs, block in B. now apply occurs_from_cons in B.
  - destruct a as [|x a]; [apply (IH [] prev b); cbn; lia|].
    cbn [app].
    destruct (@scan_cons U q L prev x (a ++ block ++ b))
      as [[_ Sc]|(m & rest & Hm & S & Hin & Sc)]; rewrite Sc;
      cbn [render flat_map].
    + apply (@contains_app_r block [x]). apply IH. cbn in Ln. lia.
    + apply contains_app_r.
      pose proof (@exec_rejects _ _ _ _ _ _ _ _ O Hin) as Nm.
      unfold block in S at 1. cbn [app] in S.
      change (x :: a ++ open_paren :: (body ++ [close_paren]) ++ b)
        with ((x :: a) ++ open_paren :: (body ++ [close_paren]) ++ b) in S.
      destruct (@prefix_before _ _ (x :: a) _ rest Nm S) as (z & Ea & ->).
      change (open_paren :: (body ++ [close_paren]) ++ b) with (block ++ b).
      apply IH.
      apply (f_equal (@List.length N)) in Ea. rewrite length_app in Ea.
      destruct m; [contradiction|]. cbn [List.length] in *. lia.
Qed.

(** A parenthesised text in which [q] has no occurrence is still there
    after the substitution of [q], whatever replaces the matches. *)
Lemma block_survives t :
  contains block t = true -> contains block (sub U q r t) = true.
Proof.
  intros H. apply contains_iff in H as (a & b & ->).
  apply block_survives_from with (n := List.length a). auto.
Qed.

End Block.

Lemma lstrip_keeps x : is_space x = false ->
  forall a s, lstrip (a ++ x :: s) = lstrip a ++ x :: s.
Proof.
  intros Hx. induction a as [|y a IH]; intros s; cbn [app lstrip].
  - now rewrite Hx.
  - destruct (is_space y); auto.
Qed.

Lemma rstrip_keeps n a b :
  n <> [] -> ends_clean n -> rstrip (a ++ n ++ b) = a ++ n ++ rstrip b.
Proof.
  unfold ends_clean, rstrip. intros Hn He.
  rewrite !rev_app_distr, <- app_assoc.
  assert (E : rev (rev n) = n) by apply rev_involutive.
  destruct (rev n) as [|y m].
  { cbn in E. now subst n. }
  cbn in He. cbn [app]. rewrite lstrip_keeps by auto.
  rewrite rev_app_distr.
  change (y :: m ++ rev a) with ((y :: m) ++ rev a).
  now rewrite rev_app_distr, rev_involutive, E, <- app_assoc.
Qed.

Lemma strip_keeps n t :
  n <> [] -> starts_clean n -> ends_clean n ->
  contains n t = true -> contains n (strip t) = true.
Proof.
  intros Hn Hs He H. apply contains_iff in H as (a & b & ->).
  unfold strip. destruct n as [|x n]; [contradiction|]. cbn in Hs.
  change (a ++ (x :: n) ++ b) with (a ++ x :: n ++ b).
  rewrite lstrip_keeps by auto.
  change (lstrip a ++ x :: n ++ b) with (lstrip a ++ (x :: n) ++ b).
  rewrite rstrip_keeps by auto.
  apply contains_iff. eexists _, _. reflexivity.
Qed.

Lemma after_rules_keeps_block (U : UnicodeData) body rules :
  Forall (fun q => block_safe U (pattern q)
                     (open_paren :: body ++ [close_paren])) rules ->
  forall t,
    contains (open_paren :: body ++ [close_paren]) t = true ->
    contains (open_paren :: body ++ [close_paren])
      (after_rules U rules t) = true.
Proof.
  induction 1 as [|q rules Hq _ IH]; intros t H; cbn [after_rules]; auto.
  apply IH. destruct (occurs U (pattern q) t); auto.
  now apply block_survives.
Qed.

Lemma after_phrases_keeps_block (U : UnicodeData) body phrases lc :
  Forall (fun e => block_safe U (escaped (fst e))
                     (open_paren :: body ++ [close_paren])) phrases ->
  forall t,
    contains (open_paren :: body ++ [close_paren]) t = true ->
    contains (open_paren :: body ++ [close_paren])
      (after_phrases U phrases lc t) = true.
Proof.
  induction 1 as [|e phrases He _ IH]; intros t H; cbn [after_phrases]; auto.
  apply IH. destruct (contains (str (fst e)) lc); auto.
  now apply block_survives.
Qed.

Lemma normalize_whitespace_keeps_block (U : UnicodeData) body t :
  block_safe U double_spaces (open_paren :: body ++ [close_paren]) ->
  block_safe U triple_newlines (open_paren :: body ++ [close_paren]) ->
  contains (open_paren :: body ++ [close_paren]) t = true ->
  contains (open_paren :: body ++ [close_paren])
    (normalize_whitespace U t) = true.
Proof.
  intros S2 S3 H. unfold normalize_whitespace.
  apply block_survives; auto.
  apply strip_keeps.
  - discriminate.
  - reflexivity.
  - unfold ends_clean. rewrite app_comm_cons, rev_app_distr. reflexivity.
  - apply block_survives; auto.
Qed.

Lemma replacements_out_of_reach (U : UnicodeData) :
  ForallOrdPairs (fun r1 r2 => block_safe U (pattern r2) (replacement r1))
    _RULES
  /\ Forall (fun r => replacement_safe U (replacement r)) _RULES.
Proof.
  split.
  - unfold _RULES.
    repeat (constructor;
            [repeat (constructor;
                     [split; [cbn; lia|
                              split; [vm_compute; reflexivity|
                                      split; vm_compute; reflexivity]]|]);
             try constructor|]).
    constructor.
  - unfold _RULES, replacement_safe, _BLOCKED_PHRASES, block_safe.
    repeat (constructor;
            [split; [repeat (constructor; [split; [cbn; lia|split; [vm_compute; reflexivity|split; vm_compute; reflexivity]]|]); try constructor
                    |split; (split; [cbn; lia|split; [vm_compute; reflexivity|split; vm_compute; reflexivity]])]|]).
    constructor.
Qed.

Lemma rule_loop_keeps_replacements (U : UnicodeData) : forall rules,
  incl rules _RULES ->
  ForallOrdPairs (fun r1 r2 => block_safe U (pattern r2) (replacement r1))
    rules ->
  forall t r n,
    In (PatternHit r n) (rule_triggers U rules t) ->
    contains (replacement r) (after_rules U rules t) = true.
Proof.
  induction rules as [|rule rules IH]; intros I P t r n H;
    cbn [rule_triggers after_rules] in *; [contradiction|].
  inversion P as [|? ? Pr P']; subst.
  assert (I' : incl rules _RULES) by (intros x Hx; apply I; now right).
  destruct (occurs U (pattern rule) t) eqn:E; [|eapply IH; eauto].
  destruct H as [H|H]; [|eapply IH; eauto].
  inversion H; subst r n. clear H.
  assert (Hr : In rule _RULES) by (apply I; now left).
  destruct (@rules_leftover_conditions U rule Hr) as (_ & _ & _ & _ & Eb & _).
  rewrite Eb in Pr |- *. rewrite <- Eb at 2.
  apply after_rules_keeps_block; auto.
  rewrite <- Eb. now apply sub_inserts.
Qed.

Lemma modification_names_rule t rule :
  table_trigger t -> In rule _RULES ->
  modification_of t = modification_of (PatternHit rule 0) ->
  exists n, t = PatternHit rule n.
Proof.
  intros T Hr E. destruct t as [rule' n|ph]; cbn in T.
  - exists n. f_equal. destruct T as [T _].
    cbn [In _RULES] in T, Hr.
    repeat (destruct T as [<-|T]; [|try contradiction]);
      repeat (destruct Hr as [<-|Hr]; [|try contradiction]);
      first [reflexivity | cbn in E; discriminate].
  - cbn in E. discriminate.
Qed.

(** X6.  Whenever [modifications_applied] says that the matches of a
    pattern rule were replaced, the returned text contains the replacement
    text of that rule: no later rule, no phrase removal and no whitespace
    normalisation reaches into it. *)
Theorem replaced_rule_leaves_its_alternative (U : UnicodeData) (d : text)
    (rule : _Rule) :
  In rule _RULES ->
  In ("Replaced " ++ name rule ++ " matches with safe alternative.")%string
     (modifications_applied (snd (apply_guardrails U d))) ->
  contains (replacement rule) (fst (apply_guardrails U d)) = true.
Proof.
  intros Hr Hm. rewrite apply_guardrails_eq in *.
  cbn [fst snd modifications_applied] in *.
  apply in_map_iff in Hm as (t & E & Ht).
  pose proof (triggers_table U d) as T. rewrite Forall_forall in T.
  destruct (@modification_names_rule t rule (T _ Ht) Hr E) as (n & ->).
  unfold triggers in Ht. apply in_app_or in Ht as [Ht|Ht].
  2:{ apply in_phrase_triggers in Ht as (e & _ & _ & Ee). discriminate. }
  destruct (replacements_out_of_reach U) as [P S].
  rewrite Forall_forall in S. destruct (S _ Hr) as (Sp & S2 & S3).
  pose proof (@rule_loop_keeps_replacements U _RULES (incl_refl _) P d _ _ Ht)
    as K.
  destruct (@rules_leftover_conditions U rule Hr) as (_ & _ & _ & _ & Eb & _).
  rewrite Eb in *.
  apply normalize_whitespace_keeps_block; auto.
  apply after_phrases_keeps_block; auto.
Qed.

Lemma replaced_rule_leaves_its_alternative_witness :
  exists rule,
    nth_error _RULES 0 = Some rule
    /\ In rule _RULES
    /\ In ("Replaced " ++ name rule ++ " matches with safe alternative.")%string
         (modifications_applied (snd (apply_guardrails ascii_only priced_draft)))
    /\ contains (replacement rule)
         (fst (apply_guardrails ascii_only priced_draft)) = true.
Proof.
  eexists. split; [reflexivity|].
  assert (I : In (hd (Build__Rule "" (escaped "") []) _RULES) _RULES)
    by (left; reflexivity).
  assert (M : In ("Replaced "
                  ++ name (hd (Build__Rule "" (escaped "") []) _RULES)
                  ++ " matches with safe alternative.")%string
                (modifications_applied
                   (snd (apply_guardrails ascii_only priced_draft))))
    by (vm_compute; left; reflexivity).
  split; [exact I|]. split; [exact M|].
  exact (@replaced_rule_leaves_its_alternative ascii_only priced_draft _ I M).
Defined.

(** * Properties of the rest of the pipeline *)

(** ** Enumerations and the classifier *)

Lemma text_eqb_eq a : forall b, text_eqb a b = true <-> a = b.
Proof.
  induction a as [|x a IH]; intros [|y b]; cbn [text_eqb]; split;
    try discriminate; auto.
  - intros H. apply andb_prop in H as [H1 H2]. apply N.eqb_eq in H1.
    apply IH in H2. now subst.
  - intros H. inversion H; subst. rewrite N.eqb_refl. now apply IH.
Qed.

Lemma enum_call_value (E : Type) (members : list E) (value : E -> string) v m :
  schemas.enum_call members value v = Returned m ->
  v = JString (str (value m)) /\ In m members.
Proof.
  unfold schemas.enum_call. destruct v; try discriminate.
  destruct (find _ members) as [m'|] eqn:Fd; [|discriminate].
  intros H. inversion H; subst m'. apply find_some in Fd as [Hin E1].
  apply text_eqb_eq in E1. now subst.
Qed.

Lemma CustomerIntent_call_value i :
  schemas.CustomerIntent_call (JString (str (schemas.CustomerIntent_value i)))
  = Returned i.
Proof. destruct i; vm_compute; reflexivity. Qed.

Lemma Urgency_call_value u :
  schemas.Urgency_call (JString (str (schemas.Urgency_value u))) = Returned u.
Proof. destruct u; vm_compute; reflexivity. Qed.

(** X7.  Looking a member up by its value gives the member back, for every
    intent and every urgency, and a member is named by nothing but the
    string that is its value. *)
Theorem enum_value_round_trip :
  (forall i,
      schemas.CustomerIntent_call (JString (str (schemas.CustomerIntent_value i)))
      = Returned i)
  /\ (forall v i,
         schemas.CustomerIntent_call v = Returned i ->
         v = JString (str (schemas.CustomerIntent_value i)))
  /\ (forall u,
         schemas.Urgency_call (JString (str (schemas.Urgency_value u)))
         = Returned u)
  /\ (forall v u,
         schemas.Urgency_call v = Returned u ->
         v = JString (str (schemas.Urgency_value u))).
Proof.
  split; [|split; [|split]].
  - apply CustomerIntent_call_value.
  - intros v i H. now apply enum_call_value in H.
  - apply Urgency_call_value.
  - intros v u H. now apply enum_call_value in H.
Qed.

Section ClassifierFacts.

Variable F : PyFloat.

Lemma secondary_of_values (l : list schemas.CustomerIntent) :
  intent_classifier.secondary_of
    (map (fun i => JString (str (schemas.CustomerIntent_value i))) l) = l.
Proof.
  unfold intent_classifier.secondary_of.
  induction l as [|i l IH]; cbn [map flat_map]; auto.
  rewrite IH.
  change (schemas.CustomerIntent_call ?v)
    with (schemas.CustomerIntent_call v).
  now rewrite CustomerIntent_call_value.
Qed.

Lemma validate_strs_strings (l : list text) :
  schemas.validate_strs (map JString l) = Returned l.
Proof.
  induction l as [|s l IH]; cbn [map schemas.validate_strs]; auto.
  now rewrite IH.
Qed.

End ClassifierFacts.

Lemma parse_analysis_of_expected_reply (F : PyFloat)
    (primary : schemas.CustomerIntent) (conf : json)
    (secondary : list schemas.CustomerIntent) (urg : schemas.Urgency)
    (topics : list text) :
  intent_classifier.parse_analysis F
    (analysis_json primary conf secondary urg topics)
  = match float_of F conf with
    | Raised e => Raised e
    | Returned x =>
        let c := py_min F (py_max F x (float_0 F)) (float_1 F) in
        if float_le F (float_0 F) c && float_le F c (float_1 F)
        then Returned
               {| schemas.primary_intent := primary;
                  schemas.confidence := c;
                  schemas.secondary_intents := secondary;
                  schemas.urgency := urg;
                  schemas.key_topics := firstn 5 topics |}
        else Raised ValidationError
    end.
Proof.
  unfold intent_classifier.parse_analysis, analysis_json.
  cbn [get bind]. 
  change (dict_find (str "primary_intent") _) with (Some (JString (str (schemas.CustomerIntent_value primary)))).
  change (dict_find (str "secondary_intents") _) with (Some (JArray (map (fun i => JString (str (schemas.CustomerIntent_value i))) secondary))).
  change (dict_find (str "urgency") _) with (Some (JString (str (schemas.Urgency_value urg)))).
  change (dict_find (str "confidence") _) with (Some conf).
  change (dict_find (str "key_topics") _) with (Some (JArray (map JString topics))).
  cbn [iterate bind slice_to].
  rewrite secondary_of_values, CustomerIntent_call_value, Urgency_call_value.
  destruct (float_of F conf) as [x|e]; cbn [bind]; auto.
  unfold schemas.IntentAnalysis_new.
  destruct (float_le F (float_0 F) _ && float_le F _ (float_1 F)); auto.
  cbn [schemas.validate_str_list].
  now rewrite firstn_map, validate_strs_strings.
Qed.

Lemma validate_strs_inv : forall js l,
  schemas.validate_strs js = Returned l -> map JString l = js.
Proof.
  induction js as [|j js IH]; intros l Vl; cbn in Vl.
  - now inversion Vl.
  - destruct j; try discriminate.
    destruct (schemas.validate_strs js) as [l'|]; [|discriminate].
    inversion Vl; subst. cbn. f_equal. now apply IH.
Qed.

Lemma parse_analysis_inv (F : PyFloat) result a :
  intent_classifier.parse_analysis F result = Returned a ->
  exists members,
    result = JObject members
    /\ (schemas.primary_intent a = schemas.GENERAL_INQUIRY
        \/ dict_find (str "primary_intent") members
           = Some (JString (str (schemas.CustomerIntent_value
                                   (schemas.primary_intent a)))))
    /\ (schemas.urgency a = schemas.MEDIUM
        \/ dict_find (str "urgency") members
           = Some (JString (str (schemas.Urgency_value (schemas.urgency a)))))
    /\ Forall (fun i =>
                 exists raw items,
                   dict_find (str "secondary_intents") members = Some raw
                   /\ iterate raw = Returned items
                   /\ In (JString (str (schemas.CustomerIntent_value i))) items)
              (schemas.secondary_intents a)
    /\ List.length (schemas.key_topics a) <= 5
    /\ (schemas.key_topics a = []
        \/ exists items,
             dict_find (str "key_topics") members = Some (JArray items)
             /\ map JString (schemas.key_topics a) = firstn 5 items)
    /\ float_le F (float_0 F) (schemas.confidence a) = true
    /\ float_le F (schemas.confidence a) (float_1 F) = true.
Proof.
  unfold intent_classifier.parse_analysis.
  destruct result as [| | | | |members]; try discriminate.
  unfold get.
  remember (dict_find (str "primary_intent") members) as vp eqn:Ep.
  remember (dict_find (str "secondary_intents") members) as vs eqn:Es.
  remember (dict_find (str "urgency") members) as vu eqn:Eu.
  remember (dict_find (str "confidence") members) as vc eqn:Ec.
  remember (dict_find (str "key_topics") members) as vk eqn:Ek.
  cbn [bind]. intros H. exists members. split; [reflexivity|].
  destruct (iterate match vs with Some v => v | None => JArray [] end)
    as [raw_intents|] eqn:It; [|discriminate].
  cbn [bind] in H.
  destruct (float_of F _) as [x|]; [|discriminate]. cbn [bind] in H.
  destruct (slice_to 5 _) as [topics|] eqn:Sl; [|discriminate].
  cbn [bind] in H. unfold schemas.IntentAnalysis_new in H.
  destruct (float_le F (float_0 F) _ && float_le F _ (float_1 F)) eqn:V;
    [|discriminate].
  destruct (schemas.validate_str_list topics) as [l|] eqn:Vl; [|discriminate].
  injection H as H. subst a.
  cbn [schemas.primary_intent schemas.urgency schemas.secondary_intents
       schemas.key_topics schemas.confidence].
  apply andb_prop in V as [V1 V2].
  assert (T : l = [] \/ exists items, vk = Some (JArray items)
                                     /\ map JString l = firstn 5 items).
  { destruct vk as [v|].
    - destruct v; try discriminate; cbn in Sl; inversion Sl; subst topics;
        cbn in Vl; try discriminate.
      right. exists items. split; auto. now apply validate_strs_inv.
    - cbn in Sl. inversion Sl; subst topics. cbn in Vl. inversion Vl.
      now left. }
  split; [|split; [|split; [|split; [|split; [|split]]]]]; auto.
  - destruct vp as [v|]; [|left; reflexivity].
    destruct (schemas.CustomerIntent_call v) as [i|] eqn:E; [|now left].
    right. apply enum_call_value in E as [-> _]. now symmetry.
  - destruct vu as [v|]; [|left; reflexivity].
    destruct (schemas.Urgency_call v) as [u|] eqn:E; [|now left].
    right. apply enum_call_value in E as [-> _]. now symmetry.
  - apply Forall_forall. intros i Hi.
    unfold intent_classifier.secondary_of in Hi.
    apply in_flat_map in Hi as (raw & Hraw & Hi). cbn beta in Hi.
    destruct (schemas.CustomerIntent_call raw) as [j|] eqn:E; [|contradiction].
    destruct Hi as [<-|[]]. apply enum_call_value in E as [-> _].
    destruct vs as [v|].
    + exists v, raw_intents. split; [now symmetry|]. auto.
    + cbn in It. inversion It; subst. contradiction.
  - destruct T as [->|(items & _ & E)]; [cbn; lia|].
    apply (f_equal (@List.length json)) in E.
    rewrite length_map, length_firstn in E. lia.
  - destruct T as [->|(items & Ev & E)]; [now left|].
    right. exists items. split; auto. now rewrite <- Ek.
Qed.

(** X8.  On a reply in the format the classification prompt asks for,
    [classify_intent] returns the intent, the secondary intents (in order,
    repetitions included) and the urgency the reply names, the first five
    key topics, and the confidence cut to the range from 0.0 to 1.0; it
    raises only when the confidence cannot be converted or is rejected by
    the schema. *)
Theorem classify_intent_of_expected_reply (F : PyFloat)
    (groq : groq_service.GroqService) (message : text)
    (primary : schemas.CustomerIntent) (conf : json)
    (secondary : list schemas.CustomerIntent) (urg : schemas.Urgency)
    (topics : list text) :
  groq_service.chat_completion_json groq
    (intent_classifier.classification_messages message) "0.1" 300
  = Returned (analysis_json primary conf secondary urg topics) ->
  intent_classifier.classify_intent F (Returned groq) message
  = match float_of F conf with
    | Raised e => Raised e
    | Returned x =>
        let c := py_min F (py_max F x (float_0 F)) (float_1 F) in
        if float_le F (float_0 F) c && float_le F c (float_1 F)
        then Returned
               {| schemas.primary_intent := primary;
                  schemas.confidence := c;
                  schemas.secondary_intents := secondary;
                  schemas.urgency := urg;
                  schemas.key_topics := firstn 5 topics |}
        else Raised ValidationError
    end.
Proof.
  intros H. unfold intent_classifier.classify_intent. cbn [bind].
  rewrite H. cbn [bind]. apply parse_analysis_of_expected_reply.
Qed.

Lemma classify_intent_of_expected_reply_witness :
  let reply :=
    analysis_json schemas.LEAKAGE_SEEPAGE (JNumber "0.9")
      [schemas.WALL_REPAIR; schemas.WALL_REPAIR] schemas.HIGH
      [str "a"; str "b"; str "c"; str "d"; str "e"; str "f"] in
  let groq :=
    scripted_groq (Returned reply)
      (Raised (ExternalError "timeout")) (Raised (ExternalError "timeout")) in
  groq_service.chat_completion_json groq
    (intent_classifier.classification_messages example_message) "0.1" 300
  = Returned reply
  /\ intent_classifier.classify_intent two_decimals (Returned groq)
       example_message
     = Returned
         (@schemas.Build_IntentAnalysis two_decimals
            schemas.LEAKAGE_SEEPAGE 90%N
            [schemas.WALL_REPAIR; schemas.WALL_REPAIR] schemas.HIGH
            [str "a"; str "b"; str "c"; str "d"; str "e"]).
Proof.
  cbv zeta. split; [reflexivity|].
  exact (@classify_intent_of_expected_reply two_decimals
           (scripted_groq
              (Returned
                 (analysis_json schemas.LEAKAGE_SEEPAGE (JNumber "0.9")
                    [schemas.WALL_REPAIR; schemas.WALL_REPAIR] schemas.HIGH
                    [str "a"; str "b"; str "c"; str "d"; str "e"; str "f"]))
              (Raised (ExternalError "timeout"))
              (Raised (ExternalError "timeout")))
           example_message
           schemas.LEAKAGE_SEEPAGE (JNumber "0.9")
           [schemas.WALL_REPAIR; schemas.WALL_REPAIR] schemas.HIGH
           [str "a"; str "b"; str "c"; str "d"; str "e"; str "f"] eq_refl).
Defined.

(** X9.  What [classify_intent] returns was in the reply.  The reply is a
    JSON object; the primary intent and the urgency are the ones it names,
    or else the defaults [GENERAL_INQUIRY] and [MEDIUM]; every secondary
    intent is an item of its [secondary_intents]; the key topics are the
    first five (at most) of its [key_topics]; the confidence is within the
    bounds of the schema. *)
Theorem classify_intent_sound (F : PyFloat)
    (get_groq_service : outcome groq_service.GroqService) (message : text)
    (a : schemas.IntentAnalysis F) :
  intent_classifier.classify_intent F get_groq_service message = Returned a ->
  exists groq members,
    get_groq_service = Returned groq
    /\ groq_service.chat_completion_json groq
         (intent_classifier.classification_messages message) "0.1" 300
       = Returned (JObject members)
    /\ (schemas.primary_intent a = schemas.GENERAL_INQUIRY
        \/ dict_find (str "primary_intent") members
           = Some (JString (str (schemas.CustomerIntent_value
                                   (schemas.primary_intent a)))))
    /\ (schemas.urgency a = schemas.MEDIUM
        \/ dict_find (str "urgency") members
           = Some (JString (str (schemas.Urgency_value (schemas.urgency a)))))
    /\ Forall (fun i =>
                 exists raw items,
                   dict_find (str "secondary_intents") members = Some raw
                   /\ iterate raw = Returned items
                   /\ In (JString (str (schemas.CustomerIntent_value i))) items)
              (schemas.secondary_intents a)
    /\ List.length (schemas.key_topics a) <= 5
    /\ (schemas.key_topics a = []
        \/ exists items,
             dict_find (str "key_topics") members = Some (JArray items)
             /\ map JString (schemas.key_topics a) = firstn 5 items)
    /\ float_le F (float_0 F) (schemas.confidence a) = true
    /\ float_le F (schemas.confidence a) (float_1 F) = true.
Proof.
  unfold intent_classifier.classify_intent.
  destruct get_groq_service as [groq|]; [|discriminate]. cbn [bind].
  destruct (groq_service.chat_completion_json groq _ "0.1" 300)
    as [result|] eqn:E; [|discriminate].
  cbn [bind]. intros H. apply parse_analysis_inv in H as (members & -> & H).
  exists groq, members. auto.
Qed.

Lemma classify_intent_sound_witness :
  let a :=
    @schemas.Build_IntentAnalysis two_decimals
      schemas.GENERAL_INQUIRY 100%N [schemas.COMPLAINT] schemas.MEDIUM
      [str "refund"] in
  let groq :=
    scripted_groq
      (Returned
         (JObject [ (str "primary_intent", JString (str "praise"));
                    (str "confidence", JNumber "7");
                    (str "secondary_intents",
                     JArray [JString (str "complaint"); JNull]);
                    (str "key_topics", JArray [JString (str "refund")]) ]))
      (Raised (ExternalError "timeout")) (Raised (ExternalError "timeout")) in
  intent_classifier.classify_intent two_decimals (Returned groq)
    example_message = Returned a
  /\ List.length (schemas.key_topics a) <= 5.
Proof.
  cbv zeta. split; [reflexivity|].
  destruct (@classify_intent_sound two_decimals
              (Returned
                 (scripted_groq
                    (Returned
                       (JObject
                          [ (str "primary_intent", JString (str "praise"));
                            (str "confidence", JNumber "7");
                            (str "secondary_intents",
                             JArray [JString (str "complaint"); JNull]);
                            (str "key_topics",
                             JArray [JString (str "refund")]) ]))
                    (Raised (ExternalError "timeout"))
                    (Raised (ExternalError "timeout"))))
              example_message _ eq_refl)
    as (groq & members & _ & _ & _ & _ & _ & H & _).
  exact H.
Defined.

(** ** Follow-up questions *)

Lemma has_key_string key s :
  has_key key (JString s) = Returned (contains (str key) s).
Proof. reflexivity. Qed.

Lemma followups_of_strings : forall (l : list text) r,
  response_generator.followups_of (map JString l) = Returned r -> r = [].
Proof.
  induction l as [|s l IH]; intros r H; cbn [map response_generator.followups_of] in H.
  - now inversion H.
  - rewrite !has_key_string in H. cbn [bind] in H.
    destruct (contains (str "question") s); cbn [bind] in H.
    + destruct (contains (str "reason") s); cbn [bind subscript] in H;
        [discriminate|auto].
    + auto.
Qed.

Lemma followups_of_sound : forall items r,
  response_generator.followups_of items = Returned r ->
  Forall (fun fq =>
            exists q,
              In (JObject q) items
              /\ dict_find (str "question") q
                 = Some (JString (schemas.question fq))
              /\ dict_find (str "reason") q
                 = Some (JString (schemas.reason fq))) r.
Proof.
  induction items as [|q items IH]; intros r H;
    cbn [response_generator.followups_of] in H.
  - inversion H. constructor.
  - assert (Tail : forall r',
               response_generator.followups_of items = Returned r' ->
               Forall (fun fq =>
                         exists q0,
                           In (JObject q0) (q :: items)
                           /\ dict_find (str "question") q0
                              = Some (JString (schemas.question fq))
                           /\ dict_find (str "reason") q0
                              = Some (JString (schemas.reason fq))) r').
    { intros r' H'. apply IH in H'. rewrite Forall_forall in *.
      intros fq Hfq. destruct (H' fq Hfq) as (q0 & Hin & A & B).
      exists q0. split; [now right|auto]. }
    destruct q as [| | |s|l|members]; try discriminate.
    + (* a string *)
      rewrite !has_key_string in H. cbn [bind] in H.
      destruct (contains (str "question") s); cbn [bind] in H; auto.
      destruct (contains (str "reason") s); cbn [bind subscript] in H;
        [discriminate|auto].
    + (* a list *)
      unfold has_key in H at 1. cbn [bind] in H.
      destruct (existsb _ l); cbn [bind] in H; auto.
      unfold has_key in H at 1. cbn [bind] in H.
      destruct (existsb _ l); cbn [bind subscript] in H; [discriminate|auto].
    + (* an object *)
      unfold has_key in H at 1. cbn [bind] in H.
      destruct (dict_find (str "question") members) as [a|] eqn:Ea;
        cbn [bind] in H; auto.
      unfold has_key in H at 1. cbn [bind] in H.
      destruct (dict_find (str "reason") members) as [b|] eqn:Eb;
        cbn [bind] in H; auto.
      unfold subscript in H. rewrite Ea, Eb in H. cbn [bind] in H.
      unfold schemas.FollowUpQuestion_new, schemas.validate_str in H.
      destruct a; try discriminate. destruct b; try discriminate.
      cbn [bind] in H.
      destruct (response_generator.followups_of items) as [others|] eqn:Eo;
        [|discriminate].
      cbn [bind] in H. injection H as <-. constructor.
      * exists members. split; [now left|]. cbn. auto.
      * now apply Tail.
Qed.

(** X10.  Every follow-up question returned comes from the reply: the
    reply is an object whose [questions] is a list, and the question and
    its reason are the strings under [question] and [reason] of an object
    of that list. *)
Theorem followups_come_from_the_reply (F : PyFloat) (message : text)
    (intent : schemas.IntentAnalysis F) (groq : groq_service.GroqService) :
  Forall (fun fq =>
            exists members items q,
              groq_service.chat_completion_json groq
                (response_generator.followup_messages message intent)
                "0.3" 400
              = Returned (JObject members)
              /\ dict_find (str "questions") members = Some (JArray items)
              /\ In (JObject q) items
              /\ dict_find (str "question") q
                 = Some (JString (schemas.question fq))
              /\ dict_find (str "reason") q
                 = Some (JString (schemas.reason fq)))
         (response_generator._generate_followups message intent groq).
Proof.
  unfold response_generator._generate_followups.
  destruct (groq_service.chat_completion_json groq _ "0.3" 400)
    as [result|] eqn:E; cbn [bind]; [|constructor].
  destruct result as [| | | | |members]; cbn [get bind]; try constructor.
  destruct (dict_find (str "questions") members) as [v|] eqn:Q;
    [|cbn; constructor].
  destruct v as [| | |s|items|ms]; cbn [iterate bind]; try constructor.
  - replace (map (fun c : N => JString [c]) s)
      with (map JString (map (fun c => [c]) s)) by now rewrite map_map.
    destruct (response_generator.followups_of _) as [r|] eqn:R; [|constructor].
    apply followups_of_strings in R. subst r. constructor.
  - destruct (response_generator.followups_of items) as [r|] eqn:R;
      [|constructor].
    apply followups_of_sound in R. rewrite Forall_forall in *.
    intros fq Hfq. destruct (R fq Hfq) as (q & Hin & A & B).
    exists members, items, q. auto.
  - replace (map (fun m : text * json => JString (fst m)) ms)
      with (map JString (map fst ms)) by now rewrite map_map.
    destruct (response_generator.followups_of _) as [r|] eqn:R; [|constructor].
    apply followups_of_strings in R. subst r. constructor.
Qed.

Lemma followups_of_raised_tail h rest e :
  response_generator.followups_of rest = Raised e ->
  exists e', response_generator.followups_of (h :: rest) = Raised e'.
Proof.
  intros H. cbn [response_generator.followups_of].
  destruct (has_key "question" h) as [[|]|]; cbn [bind]; eauto.
  destruct (has_key "reason" h) as [[|]|]; cbn [bind]; eauto.
  destruct (subscript h "question"); cbn [bind]; eauto.
  destruct (subscript h "reason"); cbn [bind]; eauto.
  destruct (schemas.FollowUpQuestion_new _ _); cbn [bind]; eauto.
  rewrite H. cbn [bind]. eauto.
Qed.

Lemma followups_of_poison : forall items q a b,
  In (JObject q) items ->
  dict_find (str "question") q = Some a ->
  dict_find (str "reason") q = Some b ->
  schemas.FollowUpQuestion_new a b = Raised ValidationError ->
  exists e, response_generator.followups_of items = Raised e.
Proof.
  induction items as [|h items IH]; intros q a b Hin A B V; [contradiction|].
  destruct Hin as [->|Hin].
  - cbn [response_generator.followups_of]. unfold has_key, subscript.
    rewrite A, B. cbn [bind]. rewrite V. cbn [bind]. eauto.
  - destruct (IH q a b Hin A B V) as (e & E).
    eapply followups_of_raised_tail; eauto.
Qed.

(** X11.  One malformed item spoils all: when an object of the
    [questions] list has both keys but a [question] or a [reason] that is
    not a string, no question at all is returned, whatever the other items
    are. *)
Theorem followups_all_or_nothing (F : PyFloat) (message : text)
    (intent : schemas.IntentAnalysis F) (groq : groq_service.GroqService)
    (members : list (text * json)) (items : list json)
    (q : list (text * json)) (a b : json) :
  groq_service.chat_completion_json groq
    (response_generator.followup_messages message intent) "0.3" 400
  = Returned (JObject members) ->
  dict_find (str "questions") members = Some (JArray items) ->
  In (JObject q) items ->
  dict_find (str "question") q = Some a ->
  dict_find (str "reason") q = Some b ->
  (forall s, a <> JString s) \/ (forall s, b <> JString s) ->
  response_generator._generate_followups message intent groq = [].
Proof.
  intros E Q Hin A B V. unfold response_generator._generate_followups.
  rewrite E. cbn [bind get]. rewrite Q. cbn [iterate bind].
  destruct (@followups_of_poison items q a b Hin A B) as (e & ->); auto.
  unfold schemas.FollowUpQuestion_new, schemas.validate_str.
  destruct V as [V|V].
  - destruct a; auto. now destruct (V s).
  - destruct b; try (destruct a; reflexivity). now destruct (V s).
Qed.

Lemma followups_all_or_nothing_witness :
  let groq :=
    followup_only (JObject [ (str "questions", JArray poisoned_questions) ]) in
  In (JObject number_as_question) poisoned_questions
  /\ (forall s, JNumber "42" <> JString s)
  /\ response_generator._generate_followups example_message
       example_analysis groq = [].
Proof.
  cbv zeta. split; [right; left; reflexivity|]. split; [discriminate|].
  refine (@followups_all_or_nothing two_decimals example_message
            example_analysis
            (followup_only
               (JObject [ (str "questions", JArray poisoned_questions) ]))
            [ (str "questions", JArray poisoned_questions) ]
            poisoned_questions number_as_question
            (JNumber "42") (JString (str "No reason."))
            eq_refl eq_refl (or_intror (or_introl eq_refl)) eq_refl eq_refl
            (or_introl _)).
  discriminate.
Defined.

Lemma followups_of_questions : forall qs,
  response_generator.followups_of
    (map (fun fq =>
            JObject [ (str "question", JString (schemas.question fq));
                      (str "reason", JString (schemas.reason fq)) ]) qs)
  = Returned qs.
Proof.
  induction qs as [|[a b] qs IH]; cbn [map response_generator.followups_of];
    auto.
  change (has_key "question" (JObject ?m)) with (Returned (A := bool) true).
  cbn [bind].
  change (has_key "reason" (JObject ?m)) with (Returned (A := bool) true).
  cbn [bind schemas.question schemas.reason].
  change (subscript (JObject _) "question") with (Returned (JString a)).
  change (subscript (JObject _) "reason") with (Returned (JString b)).
  cbn [bind schemas.FollowUpQuestion_new schemas.validate_str].
  rewrite IH. reflexivity.
Qed.

(** X12.  On a reply in the format the follow-up prompt asks for, the
    questions are returned as they are, in order. *)
Theorem followups_of_expected_reply (F : PyFloat) (message : text)
    (intent : schemas.IntentAnalysis F) (groq : groq_service.GroqService)
    (qs : list schemas.FollowUpQuestion) :
  groq_service.chat_completion_json groq
    (response_generator.followup_messages message intent) "0.3" 400
  = Returned (questions_json qs) ->
  response_generator._generate_followups message intent groq = qs.
Proof.
  intros E. unfold response_generator._generate_followups, questions_json in *.
  rewrite E. cbn [bind get].
  change (dict_find (str "questions") _)
    with (Some (JArray
                  (map (fun fq =>
                          JObject
                            [ (str "question", JString (schemas.question fq));
                              (str "reason", JString (schemas.reason fq)) ])
                       qs))).
  cbn [iterate bind]. now rewrite followups_of_questions.
Qed.

Lemma followups_of_expected_reply_witness :
  let groq := followup_only (questions_json example_questions) in
  groq_service.chat_completion_json groq
    (response_generator.followup_messages example_message example_analysis)
    "0.3" 400
  = Returned (questions_json example_questions)
  /\ response_generator._generate_followups example_message
       example_analysis groq = example_questions.
Proof.
  cbv zeta. split; [reflexivity|].
  exact (@followups_of_expected_reply two_decimals example_message
           example_analysis
           (followup_only (questions_json example_questions))
           example_questions eq_refl).
Defined.

(** ** The context *)

Lemma join_holds sep : forall parts part,
  In part parts -> exists a b, join sep parts = a ++ part ++ b.
Proof.
  induction parts as [|p parts IH]; intros part H; [contradiction|].
  cbn [join]. destruct H as [->|H].
  - destruct parts as [|p' parts].
    + exists [], []. now rewrite app_nil_r.
    + exists [], (sep ++ join sep (p' :: parts)). reflexivity.
  - destruct parts as [|p' parts]; [contradiction|].
    destruct (IH part H) as (a & b & ->).
    exists (p ++ sep ++ a), b. now rewrite <- !app_assoc.
Qed.

Lemma contains_within n a b : contains n (a ++ n ++ b) = true.
Proof. apply contains_iff. now exists a, b. Qed.

Lemma contains_trans n m h :
  contains n m = true -> contains m h = true -> contains n h = true.
Proof.
  intros H1 H2. apply contains_iff in H1 as (a & b & ->).
  apply contains_iff in H2 as (c & d & ->).
  apply contains_iff. exists (c ++ a), (b ++ d). now rewrite <- !app_assoc.
Qed.

Section ContextFacts.

Variable F : PyFloat.
Variable L : knowledge_base.VectorLibrary F.

Lemma context_sections_hold :
  forall (results : list (knowledge_base.RetrievalResult L)) i r,
  In r results ->
  exists part,
    In part (response_generator.context_sections i results)
    /\ contains (knowledge_base.content (knowledge_base.document r)) part
       = true
    /\ contains (knowledge_base.category (knowledge_base.document r)
                 ++ str "/"
                 ++ knowledge_base.topic (knowledge_base.document r)) part
       = true.
Proof.
  induction results as [|r0 results IH]; intros i r H; [contradiction|].
  cbn [response_generator.context_sections]. destruct H as [->|H].
  - eexists. split; [now left|]. split.
    + rewrite !app_assoc. rewrite <- (app_nil_r (knowledge_base.content _)) at 2.
      apply contains_within.
    + match goal with
      | |- contains ?n (?a ++ ?b ++ ?c ++ ?d ++ ?e ++ ?cat ++ ?s ++ ?top ++ ?rest) = true =>
          replace (a ++ b ++ c ++ d ++ e ++ cat ++ s ++ top ++ rest)
            with ((a ++ b ++ c ++ d ++ e) ++ (cat ++ s ++ top) ++ rest)
            by now rewrite <- !app_assoc
      end.
      apply contains_within.
  - destruct (IH (S i) r H) as (part & Hin & A & B).
    exists part. split; [now right|auto].
Qed.

End ContextFacts.

(** X13.  The context handed to the model holds every retrieved document:
    its content and its [category/topic], the string reported in
    [sources_used], occur in it.  The fixed fallback sentence is given
    exactly when nothing was retrieved. *)
Theorem context_holds_every_document (F : PyFloat)
    (L : knowledge_base.VectorLibrary F)
    (results : list (knowledge_base.RetrievalResult L)) :
  let context := response_generator._format_context results in
  (context
   = str "No specific knowledge base documents matched. Use general UrbanRoof knowledge."
   <-> results = [])
  /\ Forall (fun r =>
               contains (knowledge_base.content (knowledge_base.document r))
                 context = true
               /\ contains
                    (knowledge_base.category (knowledge_base.document r)
                     ++ str "/"
                     ++ knowledge_base.topic (knowledge_base.document r))
                    context = true)
            results.
Proof.
  cbv zeta. split.
  - split; [|now intros ->].
    destruct results as [|r results]; auto.
    cbn [response_generator._format_context
         response_generator.context_sections join].
    destruct (response_generator.context_sections 2 results); discriminate.
  - apply Forall_forall. intros r Hr.
    destruct results as [|r0 results]; [contradiction|].
    cbn [response_generator._format_context].
    destruct (@context_sections_hold F L (r0 :: results) 1 r Hr)
      as (part & Hin & A & B).
    destruct (@join_holds [newline; newline] _ _ Hin) as (a & b & E).
    rewrite E. split.
    + apply contains_trans with (m := part); auto. apply contains_within.
    + apply contains_trans with (m := part); auto. apply contains_within.
Qed.

(** ** The knowledge base *)

Section StoreFacts.

Variable F : PyFloat.
Variable L : knowledge_base.VectorLibrary F.
Variable settings : knowledge_base.Settings F.

Import knowledge_base.

Lemma list_index_in (A : Type) (l : list A) idx x :
  list_index l idx = Returned x -> In x l.
Proof.
  unfold list_index.
  destruct (_ <? 0)%Z; [discriminate|].
  destruct (nth_error l _) eqn:E; [|discriminate].
  intros H. inversion H; subst. eapply nth_error_In; eauto.
Qed.

Lemma collect_spec (docs : list (KnowledgeDocument L)) threshold :
  forall found results,
    collect docs threshold found = Returned results ->
    map (@score F L) results
    = map (fun h => score_float L (fst h)) (filter (kept L threshold) found)
    /\ Forall2 (fun r h => list_index docs (snd h) = Returned (document r))
         results (filter (kept L threshold) found)
    /\ Forall (fun r => In (document r) docs) results
    /\ List.length results <= List.length found.
Proof.
  induction found as [|[s idx] found IH]; intros results H;
    cbn [collect] in H.
  - inversion H. cbn. repeat split; constructor.
  - cbn [filter].
    assert (K : kept L threshold (s, idx)
                = negb (idx =? -1)%Z && negb (score_below L s threshold))
      by reflexivity.
    rewrite K. clear K.
    destruct (idx =? -1)%Z; cbn [negb andb].
    { destruct (IH _ H) as (A & B & C & D). cbn [List.length].
      split; [|split; [|split]]; auto. }
    destruct (score_below L s threshold); cbn [negb].
    { destruct (IH _ H) as (A & B & C & D). cbn [List.length].
      split; [|split; [|split]]; auto. }
    destruct (list_index docs idx) as [doc|] eqn:Ed; [|discriminate].
    cbn [bind] in H.
    destruct (collect docs threshold found) as [rest|]; [|discriminate].
    cbn [bind] in H. inversion H; subst results; clear H.
    destruct (IH _ eq_refl) as (A & B & C & D).
    cbn [map List.length score document fst snd]. repeat split.
    + now f_equal.
    + constructor; auto.
    + constructor; auto. cbn. eapply list_index_in; eauto.
    + lia.
Qed.

Lemma retrieve_unready (self : KnowledgeBase L) query top_k threshold :
  is_ready self = false ->
  retrieve settings self query top_k threshold = Raised RuntimeError.
Proof.
  unfold is_ready, retrieve. now intros ->.
Qed.

Lemma load_items_spec cat : forall items docs docs' r,
  load_items cat items docs = (docs', r) ->
  exists added,
    docs' = docs ++ added
    /\ (r = Returned tt ->
        map (@document_fields F L) added
        = map (fun item => (cat, item_field item "topic",
                            item_field item "content")) items).
Proof.
  induction items as [|item items IH]; intros docs docs' r H;
    cbn [load_items] in H.
  - inversion H; subst. exists []. split; [now rewrite app_nil_r|auto].
  - unfold item_get in H.
    destruct (dict_find (str "topic") item) as [t|] eqn:Et.
    2:{ inversion H; subst. exists []. split; [now rewrite app_nil_r|].
        discriminate. }
    destruct (dict_find (str "content") item) as [c|] eqn:Ec.
    2:{ inversion H; subst. exists []. split; [now rewrite app_nil_r|].
        discriminate. }
    destruct (IH _ _ _ H) as (added & -> & S).
    eexists. split; [now rewrite <- app_assoc|].
    intros R. cbn [app map]. rewrite (S R). f_equal.
    unfold document_fields, item_field. cbn [category topic content].
    now rewrite Et, Ec.
Qed.

Lemma load_categories_spec : forall raw docs docs' r,
  load_categories raw docs = (docs', r) ->
  exists added,
    docs' = docs ++ added
    /\ (r = Returned tt ->
        map (@document_fields F L) added = flattened raw).
Proof.
  induction raw as [|[cat items] raw IH]; intros docs docs' r H;
    cbn [load_categories] in H.
  - inversion H; subst. exists []. split; [now rewrite app_nil_r|auto].
  - destruct (load_items cat items docs) as [docs1 r1] eqn:E1.
    destruct (load_items_spec _ _ _ E1) as (added1 & -> & S1).
    destruct r1 as [[]|e].
    + destruct (IH _ _ _ H) as (added & -> & S).
      exists (added1 ++ added). split; [now rewrite <- app_assoc|].
      intros R. unfold flattened. cbn [flat_map fst snd].
      rewrite map_app, (S1 eq_refl). f_equal. now apply S.
    + inversion H; subst. exists added1. split; auto. discriminate.
Qed.

Lemma set_embeddings_fields : forall (docs : list (KnowledgeDocument L)) embs,
  map (@document_fields F L) (set_embeddings docs embs)
  = map (@document_fields F L) docs.
Proof.
  induction docs as [|d docs IH]; intros [|e embs]; cbn [set_embeddings map];
    auto.
  now rewrite IH.
Qed.

Lemma initialise_ready file (self : KnowledgeBase L) :
  is_ready self = true -> initialise file self = (self, Returned tt).
Proof. unfold is_ready, initialise. now intros ->. Qed.

Lemma initialise_unready file (self : KnowledgeBase L) self' r :
  is_ready self = false ->
  initialise file self = (self', r) ->
  (exists added,
      map (@document_fields F L) (_documents self')
      = map (@document_fields F L) (_documents self) ++ added
      /\ (r = Returned tt ->
          exists raw, file = Some (Returned raw) /\ added = flattened raw))
  /\ match r with
     | Returned _ =>
         is_ready self' = true /\ exists index, _index self' = Some index
     | Raised e =>
         is_ready self' = false
         /\ (file = None -> e = FileNotFoundError /\ self' = self)
     end.
Proof.
  unfold is_ready, initialise. intros E. rewrite E.
  assert (Fail : forall (s : KnowledgeBase L) e added,
             _is_initialised s = false ->
             file <> None ->
             map (@document_fields F L) (_documents s)
             = map (@document_fields F L) (_documents self) ++ added ->
             (s, Raised e) = (self', r) ->
             (exists added,
                 map (@document_fields F L) (_documents self')
                 = map (@document_fields F L) (_documents self) ++ added
                 /\ (r = Returned tt ->
                     exists raw,
                       file = Some (Returned raw) /\ added = flattened raw))
             /\ match r with
                | Returned _ =>
                    _is_initialised self' = true
                    /\ exists index, _index self' = Some index
                | Raised e =>
                    _is_initialised self' = false
                    /\ (file = None -> e = FileNotFoundError /\ self' = self)
                end).
  { intros s e added Hs Hf Hd H. inversion H; subst. split.
    - exists added. split; [assumption|discriminate].
    - split; [assumption|]. intros X. contradiction. }
  destruct file as [[raw|e]|].
  - destruct (load_categories raw (_documents self)) as [docs loaded] eqn:Ld.
    destruct (load_categories_spec _ _ Ld) as (added & -> & S).
    destruct loaded as [[]|e].
    + specialize (S eq_refl).
      destruct (embed_texts L _) as [embeddings|e].
      * destruct (IndexFlatIP L embeddings) as [index|e].
        -- destruct (index_add L index embeddings) as [index'|e].
           ++ intros H. inversion H; subst.
              cbn [_documents _is_initialised _index]. split.
              ** exists (flattened raw).
                 rewrite set_embeddings_fields, map_app, S.
                 split; [reflexivity|eauto].
              ** split; [reflexivity|eauto].
           ++ apply Fail with (added := flattened raw); try discriminate;
                auto.
              cbn [_documents]. now rewrite set_embeddings_fields, map_app, S.
        -- apply Fail with (added := flattened raw); try discriminate; auto.
           cbn [_documents]. now rewrite set_embeddings_fields, map_app, S.
      * apply Fail with (added := flattened raw); try discriminate; auto.
        cbn [_documents]. now rewrite map_app, S.
    + apply Fail with (added := map (@document_fields F L) added);
        try discriminate; auto.
      cbn [_documents]. now rewrite map_app.
  - apply Fail with (added := []); try discriminate; auto.
    now rewrite app_nil_r.
  - intros H. inversion H; subst. split.
    + exists []. rewrite app_nil_r. split; [reflexivity|discriminate].
    + split; [assumption|auto].
Qed.

End StoreFacts.

(** X16.  [retrieve] returns the hits of the search whose row number is
    not [-1] and whose score is not below the threshold, in the order of the
    search, each with the document stored at its row, and so no more
    results than hits.  It returns only on a ready knowledge base, and a
    [top_k] of 0 is taken as absent. *)
Theorem retrieve_keeps_the_hits_above_threshold (F : PyFloat)
    (L : knowledge_base.VectorLibrary F) (settings : knowledge_base.Settings F)
    (self : knowledge_base.KnowledgeBase L) (query : text)
    (top_k : option Z) (threshold : option (float F))
    (results : list (knowledge_base.RetrievalResult L)) :
  knowledge_base.retrieve settings self query top_k threshold
  = Returned results ->
  let k :=
    match top_k with
    | Some 0%Z | None => knowledge_base.knowledge_top_k settings
    | Some k => k
    end in
  let least :=
    match threshold with
    | Some t => t
    | None => knowledge_base.similarity_threshold settings
    end in
  exists index query_vec found,
    knowledge_base.is_ready self = true
    /\ knowledge_base._index self = Some index
    /\ knowledge_base.embed_query L query = Returned query_vec
    /\ knowledge_base.search L index query_vec k = Returned found
    /\ map (@knowledge_base.score F L) results
       = map (fun h => knowledge_base.score_float L (fst h))
             (filter (kept L least) found)
    /\ Forall2 (fun r h =>
                  knowledge_base.list_index (knowledge_base._documents self)
                    (snd h)
                  = Returned (knowledge_base.document r))
         results (filter (kept L least) found)
    /\ Forall (fun r =>
                 In (knowledge_base.document r)
                    (knowledge_base._documents self)) results
    /\ List.length results <= List.length found.
Proof.
  unfold knowledge_base.retrieve, knowledge_base.is_ready.
  destruct (knowledge_base._is_initialised self); [|discriminate].
  destruct (knowledge_base._index self) as [index|]; [|discriminate].
  destruct (knowledge_base.embed_query L query) as [qv|]; [|discriminate].
  cbn [bind]. intros H. cbv zeta.
  assert (K : match top_k with
              | Some k =>
                  if (k =? 0)%Z then knowledge_base.knowledge_top_k settings
                  else k
              | None => knowledge_base.knowledge_top_k settings
              end
              = match top_k with
                | Some 0%Z | None => knowledge_base.knowledge_top_k settings
                | Some k => k
                end).
  { destruct top_k as [[|p|p]|]; reflexivity. }
  rewrite K in H.
  destruct (knowledge_base.search L index qv _) as [found|] eqn:S;
    [|discriminate].
  cbn [bind] in H. apply collect_spec in H as (A & B & C & D).
  exists index, qv, found. rewrite S. repeat split; auto.
Qed.

Lemma retrieve_keeps_the_hits_above_threshold_witness :
  let kb := example_store example_hits in
  match knowledge_base.retrieve example_settings kb example_message
          (Some 0%Z) None with
  | Returned results =>
      map (fun r =>
             (knowledge_base.topic (knowledge_base.document r),
              knowledge_base.score r)) results
      = [ (str "Damp walls", 90%N); (str "Waterproofing", 40%N) ]
  | Raised _ => False
  end
  /\ knowledge_base.is_ready kb = true.
Proof.
  cbv zeta. split; [vm_compute; reflexivity|].
  destruct (@retrieve_keeps_the_hits_above_threshold two_decimals
              (scripted_library example_hits) example_settings
              (example_store example_hits) example_message (Some 0%Z) None
              _ eq_refl) as (index & qv & found & R & _).
  exact R.
Defined.

(** X17.  A successful [initialise] leaves the knowledge base ready, and
    every later call does nothing, whatever the file has become.  On a base
    that was not ready it appends the entries of the file, category by
    category, to the documents already there: what an earlier failed
    attempt loaded stays, and the document count grows by the number of
    entries. *)
Theorem initialise_appends_then_does_nothing (F : PyFloat)
    (L : knowledge_base.VectorLibrary F)
    (file : option (outcome knowledge_base.knowledge_json))
    (self self' : knowledge_base.KnowledgeBase L) :
  knowledge_base.initialise file self = (self', Returned tt) ->
  knowledge_base.is_ready self' = true
  /\ (forall file', knowledge_base.initialise file' self' = (self', Returned tt))
  /\ (knowledge_base.is_ready self = true -> self' = self)
  /\ (knowledge_base.is_ready self = false ->
      (exists index, knowledge_base._index self' = Some index)
      /\ exists raw,
           file = Some (Returned raw)
           /\ map (@document_fields F L) (knowledge_base._documents self')
              = map (@document_fields F L) (knowledge_base._documents self)
                ++ flattened raw
           /\ knowledge_base.document_count self'
              = knowledge_base.document_count self
                + List.length (flattened raw)).
Proof.
  intros H.
  assert (R : knowledge_base.is_ready self' = true).
  { destruct (knowledge_base.is_ready self) eqn:E.
    - rewrite (initialise_ready file self E) in H. now inversion H; subst.
    - now destruct (initialise_unready file self E H) as [_ [R _]]. }
  split; [exact R|]. split; [|split].
  - intros file'. now apply initialise_ready.
  - intros E. rewrite (initialise_ready file self E) in H. now inversion H.
  - intros E.
    destruct (initialise_unready file self E H)
      as [(added & D & Hraw) [_ I]].
    split; [exact I|]. destruct (Hraw eq_refl) as (raw & -> & ->).
    exists raw. split; [reflexivity|]. split; [exact D|].
    unfold knowledge_base.document_count.
    apply (f_equal (@List.length (text * text * text))) in D.
    now rewrite length_app, !length_map in D.
Qed.

Lemma initialise_appends_then_does_nothing_witness :
  let fresh := knowledge_base.__init__ (scripted_library example_hits) in
  let kb := example_store example_hits in
  knowledge_base.initialise (Some (Returned example_knowledge)) fresh
  = (kb, Returned tt)
  /\ knowledge_base.document_count kb = 3
  /\ knowledge_base.initialise None kb = (kb, Returned tt).
Proof.
  cbv zeta.
  assert (H : knowledge_base.initialise (Some (Returned example_knowledge))
                (knowledge_base.__init__ (scripted_library example_hits))
              = (example_store example_hits, Returned tt))
    by reflexivity.
  split; [exact H|]. split; [vm_compute; reflexivity|].
  exact (proj1 (proj2 (@initialise_appends_then_does_nothing _ _ _ _ _ H)) None).
Defined.

(** ** The pipeline *)

Section PipelineFacts.

Variable F : PyFloat.
Variable L : knowledge_base.VectorLibrary F.
Variable settings : knowledge_base.Settings F.
Variable datetime : Type.
Variable U : UnicodeData.

Import schemas groq_service knowledge_base response_generator.

Lemma get_knowledge_base_instance file (inst inst' : option (KnowledgeBase L))
    kb :
  get_knowledge_base file inst = (inst', Returned kb) -> inst' = Some kb.
Proof.
  unfold get_knowledge_base. destruct inst as [kb0|].
  - intros H. now inversion H.
  - destruct (initialise file (__init__ L)) as [kb1 [[]|e]]; intros H;
      inversion H; subst; reflexivity.
Qed.

Lemma generate_lead_response_inv (env : environment datetime)
    (inst inst' : option (KnowledgeBase L)) message name
    (resp : LeadResponse F datetime) :
  generate_lead_response settings U env inst message name
  = (inst', Returned resp) ->
  exists groq kb intent results draft,
    get_groq_service env = Returned groq
    /\ get_knowledge_base (knowledge_file env) inst = (inst', Returned kb)
    /\ intent_classifier.classify_intent F (Returned groq) message
       = Returned intent
    /\ retrieve settings kb message None None = Returned results
    /\ chat_completion groq (draft_messages results intent message name)
       = Returned draft
    /\ resp
       = {| request_id := firstn 12 (uuid4_hex env);
            timestamp := utcnow env;
            original_message := message;
            intent_analysis := intent;
            drafted_reply := fst (apply_guardrails U draft);
            follow_up_questions := _generate_followups message intent groq;
            guardrail_check := snd (apply_guardrails U draft);
            sources_used :=
              map (fun r => category (document r) ++ str "/"
                            ++ topic (document r)) results |}.
Proof.
  unfold generate_lead_response.
  destruct (get_groq_service env) as [groq|] eqn:G; [|discriminate].
  destruct (get_knowledge_base (knowledge_file env) inst) as [inst1 got]
    eqn:K.
  destruct got as [kb|]; cbn [bind]; [|discriminate].
  destruct (intent_classifier.classify_intent F (Returned groq) message)
    as [intent|] eqn:C; cbn [bind]; [|discriminate].
  destruct (retrieve settings kb message None None) as [results|] eqn:R;
    cbn [bind]; [|discriminate].
  destruct (chat_completion groq _) as [draft|] eqn:D; cbn [bind];
    [|discriminate].
  destruct (apply_guardrails U draft) as [safe check] eqn:A.
  intros H. injection H as E1 E2. subst inst1 resp.
  exists groq, kb, intent, results, draft.
  split; [reflexivity|]. split; [reflexivity|]. split; [exact C|].
  split; [exact R|]. split; [exact D|]. now rewrite A.
Qed.

Lemma generate_lead_response_returns (env : environment datetime)
    (inst inst' : option (KnowledgeBase L)) message name
    groq kb intent results draft :
  get_groq_service env = Returned groq ->
  get_knowledge_base (knowledge_file env) inst = (inst', Returned kb) ->
  intent_classifier.classify_intent F (Returned groq) message
  = Returned intent ->
  retrieve settings kb message None None = Returned results ->
  chat_completion groq (draft_messages results intent message name)
  = Returned draft ->
  generate_lead_response settings U env inst message name
  = (inst',
     Returned
       {| request_id := firstn 12 (uuid4_hex env);
          timestamp := utcnow env;
          original_message := message;
          intent_analysis := intent;
          drafted_reply := fst (apply_guardrails U draft);
          follow_up_questions := _generate_followups message intent groq;
          guardrail_check := snd (apply_guardrails U draft);
          sources_used :=
            map (fun r => category (document r) ++ str "/"
                          ++ topic (document r)) results |}).
Proof.
  intros G K C R D. unfold generate_lead_response.
  rewrite G, K. cbn [bind]. rewrite C. cbn [bind]. rewrite R. cbn [bind].
  rewrite D. cbn [bind].
  now destruct (apply_guardrails U draft).
Qed.

End PipelineFacts.

(** X14.  No response goes around the guardrails.  When
    [generate_lead_response] returns, the Groq service, the knowledge base
    (which is ready), the classification, the retrieval and the drafting
    request have succeeded, and the reply and the check of the response are
    those of [apply_guardrails] on the draft: the reply is whitespace-normal
    and [passed] holds exactly when the draft was clean.  The sources are
    the [category/topic] of the retrieved documents, in order. *)
Theorem response_is_the_guardrailed_draft (F : PyFloat)
    (L : knowledge_base.VectorLibrary F) (settings : knowledge_base.Settings F)
    (datetime : Type) (U : UnicodeData)
    (env : response_generator.environment datetime)
    (inst inst' : option (knowledge_base.KnowledgeBase L))
    (message : text) (name : option text)
    (resp : schemas.LeadResponse F datetime) :
  response_generator.generate_lead_response settings U env inst message name
  = (inst', Returned resp) ->
  exists groq kb intent results draft,
    response_generator.get_groq_service env = Returned groq
    /\ inst' = Some kb
    /\ knowledge_base.is_ready kb = true
    /\ intent_classifier.classify_intent F (Returned groq) message
       = Returned intent
    /\ knowledge_base.retrieve settings kb message None None
       = Returned results
    /\ groq_service.chat_completion groq
         (response_generator.draft_messages results intent message name)
       = Returned draft
    /\ (schemas.drafted_reply resp, schemas.guardrail_check resp)
       = apply_guardrails U draft
    /\ whitespace_normal (schemas.drafted_reply resp)
    /\ (passed (schemas.guardrail_check resp) = true
        <-> clean_for_rules U draft /\ clean_for_phrases U draft)
    /\ schemas.intent_analysis resp = intent
    /\ schemas.original_message resp = message
    /\ schemas.follow_up_questions resp
       = response_generator._generate_followups message intent groq
    /\ schemas.sources_used resp
       = map (fun r =>
                knowledge_base.category (knowledge_base.document r)
                ++ str "/"
                ++ knowledge_base.topic (knowledge_base.document r))
             results.
Proof.
  intros H.
  apply generate_lead_response_inv
    in H as (groq & kb & intent & results & draft & G & K & C & R & D & ->).
  exists groq, kb, intent, results, draft.
  cbn [schemas.drafted_reply schemas.guardrail_check schemas.intent_analysis
       schemas.original_message schemas.follow_up_questions
       schemas.sources_used].
  split; [exact G|]. split; [eapply get_knowledge_base_instance; eauto|].
  split.
  { destruct (knowledge_base.is_ready kb) eqn:E; auto.
    rewrite (@retrieve_unready F L settings kb message None None E) in R.
    discriminate. }
  split; [exact C|]. split; [exact R|]. split; [exact D|].
  split; [now destruct (apply_guardrails U draft)|].
  split.
  { rewrite apply_guardrails_eq. cbn [fst].
    apply normalize_whitespace_normal. }
  split; [apply passed_clean|]. repeat split.
Qed.

(** X15.  A failure of the follow-up request does not fail the pipeline:
    when the other five steps succeed a response is returned, with the
    guardrailed draft, and with no follow-up question if that request
    raised. *)
Theorem followup_failure_is_tolerated (F : PyFloat)
    (L : knowledge_base.VectorLibrary F) (settings : knowledge_base.Settings F)
    (datetime : Type) (U : UnicodeData)
    (env : response_generator.environment datetime)
    (inst inst' : option (knowledge_base.KnowledgeBase L))
    (message : text) (name : option text)
    (groq : groq_service.GroqService) (kb : knowledge_base.KnowledgeBase L)
    (intent : schemas.IntentAnalysis F)
    (results : list (knowledge_base.RetrievalResult L)) (draft : text) :
  response_generator.get_groq_service env = Returned groq ->
  knowledge_base.get_knowledge_base
    (response_generator.knowledge_file env) inst = (inst', Returned kb) ->
  intent_classifier.classify_intent F (Returned groq) message
  = Returned intent ->
  knowledge_base.retrieve settings kb message None None = Returned results ->
  groq_service.chat_completion groq
    (response_generator.draft_messages results intent message name)
  = Returned draft ->
  exists resp,
    response_generator.generate_lead_response settings U env inst message name
    = (inst', Returned resp)
    /\ schemas.drafted_reply resp = fst (apply_guardrails U draft)
    /\ (forall e,
           groq_service.chat_completion_json groq
             (response_generator.followup_messages message intent) "0.3" 400
           = Raised e ->
           schemas.follow_up_questions resp = []).
Proof.
  intros G K C R D. eexists. split.
  - eapply generate_lead_response_returns; eauto.
  - cbn [schemas.drafted_reply schemas.follow_up_questions].
    split; [reflexivity|].
    intros e E. unfold response_generator._generate_followups.
    now rewrite E.
Qed.

Lemma response_is_the_guardrailed_draft_witness :
  let env := example_environment (Some (Returned example_knowledge)) in
  response_generator.generate_lead_response example_settings ascii_only env
    None example_message (Some (str "Asha"))
  = (Some (example_store example_hits), Returned example_response)
  /\ whitespace_normal (schemas.drafted_reply example_response).
Proof.
  cbv zeta.
  assert (H : response_generator.generate_lead_response example_settings
                ascii_only
                (example_environment (Some (Returned example_knowledge)))
                None example_message (Some (str "Asha"))
              = (Some (example_store example_hits), Returned example_response))
    by reflexivity.
  split; [exact H|].
  destruct (response_is_the_guardrailed_draft _ _ _ _ _ _ H)
    as (groq & kb & intent & results & draft & _ & _ & _ & _ & _ & _ & _ & W & _).
  exact W.
Defined.

Lemma followup_failure_is_tolerated_witness :
  let env := example_environment (Some (Returned example_knowledge)) in
  exists resp,
    response_generator.generate_lead_response example_settings ascii_only env
      None example_message None
    = (Some (example_store example_hits), Returned resp)
    /\ schemas.follow_up_questions resp = [].
Proof.
  cbv zeta.
  destruct (@followup_failure_is_tolerated two_decimals
              (scripted_library example_hits) example_settings nat ascii_only
              (example_environment (Some (Returned example_knowledge)))
              None (Some (example_store example_hits))
              example_message None
              _ (example_store example_hits) _ _ example_draft
              eq_refl eq_refl eq_refl eq_refl eq_refl)
    as (resp & E & _ & Q).
  exists resp. split; [exact E|].
  apply (Q (ExternalError "timeout")). reflexivity.
Defined.

(** X18.  A start that failed is never retried.  When the first
    [get_knowledge_base] raises, the module keeps the base it created, not
    ready; every later [get_knowledge_base] returns that base without
    looking at the file, [retrieve] raises [RuntimeError] on it, and no
    later request gets a response. *)
Theorem failed_start_is_never_retried (F : PyFloat)
    (L : knowledge_base.VectorLibrary F) (settings : knowledge_base.Settings F)
    (datetime : Type) (U : UnicodeData)
    (file : option (outcome knowledge_base.knowledge_json))
    (inst' : option (knowledge_base.KnowledgeBase L)) (e : exception) :
  knowledge_base.get_knowledge_base file None = (inst', Raised e) ->
  exists kb,
    inst' = Some kb
    /\ knowledge_base.is_ready kb = false
    /\ (file = None -> e = FileNotFoundError)
    /\ (forall file',
           knowledge_base.get_knowledge_base file' inst' = (inst', Returned kb))
    /\ (forall query top_k threshold,
           knowledge_base.retrieve settings kb query top_k threshold
           = Raised RuntimeError)
    /\ (forall (env : response_generator.environment datetime) message name,
           exists e',
             response_generator.generate_lead_response settings U env inst'
               message name
             = (inst', Raised e')).
Proof.
  unfold knowledge_base.get_knowledge_base.
  destruct (knowledge_base.initialise file (knowledge_base.__init__ L))
    as [kb r] eqn:I.
  destruct r as [[]|e0]; intros H; inversion H; subst; clear H.
  destruct (@initialise_unready F L file (knowledge_base.__init__ L) kb
              (Raised e) eq_refl I) as [_ [R N]].
  exists kb. split; [reflexivity|]. split; [exact R|].
  split; [intros X; now destruct (N X)|]. split; [reflexivity|].
  split; [intros; now apply retrieve_unready|].
  intros env message name. unfold response_generator.generate_lead_response.
  destruct (response_generator.get_groq_service env) as [groq|e1]; eauto.
  cbn [knowledge_base.get_knowledge_base bind].
  destruct (intent_classifier.classify_intent F (Returned groq) message)
    as [intent|e2]; cbn [bind]; eauto.
  rewrite (@retrieve_unready F L settings kb message None None R).
  cbn [bind]. eauto.
Qed.

Lemma failed_start_is_never_retried_witness :
  let lib := scripted_library example_hits in
  exists kb,
    knowledge_base.get_knowledge_base None None = (Some kb, Raised FileNotFoundError)
    /\ knowledge_base.get_knowledge_base (Some (Returned example_knowledge))
         (Some kb)
       = (Some kb, Returned kb)
    /\ knowledge_base.retrieve example_settings kb example_message None None
       = Raised RuntimeError
    /\ knowledge_base.document_count (L := lib) kb = 0.
Proof.
  cbv zeta.
  destruct (@failed_start_is_never_retried two_decimals
              (scripted_library example_hits) example_settings nat ascii_only
              None (Some (knowledge_base.__init__ _)) FileNotFoundError eq_refl)
    as (kb & E & _ & _ & G & R & _).
  exists kb. injection E as <-.
  split; [reflexivity|]. split; [apply G|]. split; [apply R|reflexivity].
Defined.
